(** * Vector quantization with EMA codebook maintenance

    A shallow embedding of [VectorQuantization] from [ddsp/training/nn.py]
    (the [build], [call] and [unquantize] methods) together with the
    properties of the codebook that the specification states.

    - A tensor is a shape and its elements in row-major order, so that
      [tf.reshape] keeps the elements and changes the shape; matrices inside
      [call] are lists of rows.
    - Tensor operations that TensorFlow refuses (a reshape that does not fit,
      an empty [argmin] axis, an index out of range) and the Python errors of
      [build] are results in an error monad; the methods of the layer run in
      a state and error monad over the layer's variables.
    - The two random draws of a training call are an oracle handed to the
      call.
    - Tensor elements are kept abstract behind the [Scalar] interface, which
      lists the element operations the layer applies.  Three
      implementations are given: exact rational arithmetic ([Qc]), the
      specification's "reals", in which nothing is rounded; dual numbers
      over [Qc], which carry a tangent next to every value and give
      [tf.stop_gradient] its meaning under differentiation; and IEEE single
      precision, the [tf.float32] in which the layer runs, where every
      operation is rounded.  The Python numbers [gamma] and
      [restart_threshold] live in the same arithmetic as the tensor
      elements.  Results that use no law of arithmetic are stated for every
      implementation; results that rest on exact arithmetic say so, and
      where rounding invalidates one, a run in single precision shows it. *)

From Stdlib Require Import List Arith Lia Bool ZArith QArith Qcanon Permutation.
From Stdlib Require Import SpecFloat.
From Stdlib Require Import Qround Lqa.
From Stdlib Require String.
Import ListNotations.

Set Implicit Arguments.
Local Open Scope nat_scope.

(** ** Errors and the error monad *)

Inductive error : Type :=
| ValueError            (* raised by [build] itself *)
| ZeroDivisionError     (* Python [%] with a zero divisor *)
| IndexError            (* Python indexing of an empty sequence *)
| InvalidArgumentError. (* raised by a tensor operation it cannot perform *)

Inductive result (A : Type) : Type :=
| Ok (a : A)
| Raise (e : error).

Arguments Ok {A} a.
Arguments Raise {A} e.

Definition rbind {A B} (r : result A) (f : A -> result B) : result B :=
  match r with
  | Ok a => f a
  | Raise e => Raise e
  end.

Declare Scope result_scope.
Delimit Scope result_scope with result.
Notation "x <- r ;; k" := (rbind r (fun x => k))
  (at level 61, r at next level, right associativity) : result_scope.

Fixpoint mapM {A B} (f : A -> result B) (l : list A) : result (list B) :=
  match l with
  | [] => Ok []
  | a :: l' =>
      (b <- f a ;;
       bs <- mapM f l' ;;
       Ok (b :: bs))%result
  end.

(** ** Scalars: the element operations used by the layer *)

Class Scalar (F : Type) : Type := {
  zero : F;
  one : F;
  add : F -> F -> F;
  sub : F -> F -> F;
  mul : F -> F -> F;
  (** [tf.math.divide_no_nan]: zero whenever the denominator is zero. *)
  divide_no_nan : F -> F -> F;
  (** [less a b] is the comparison [a < b]. *)
  less : F -> F -> bool;
  (** conversion of a Python [int] that meets a tensor. *)
  of_nat : nat -> F;
  (** [tf.stop_gradient]. *)
  stop_gradient : F -> F
}.

(** Exact rationals, the specification's reals: no operation is rounded. *)

Definition Qc_less (a b : Qc) : bool :=
  match (a ?= b)%Qc with
  | Lt => true
  | _ => false
  end.

Definition Qc_divide_no_nan (a b : Qc) : Qc :=
  match (b ?= 0)%Qc with
  | Eq => 0%Qc
  | _ => (a / b)%Qc
  end.

Definition Qc_of_nat (n : nat) : Qc := Q2Qc (inject_Z (Z.of_nat n)).

#[export] Instance Qc_scalar : Scalar Qc := {
  zero := 0%Qc;
  one := 1%Qc;
  add := Qcplus;
  sub := Qcminus;
  mul := Qcmult;
  divide_no_nan := Qc_divide_no_nan;
  less := Qc_less;
  of_nat := Qc_of_nat;
  stop_gradient := fun a => a
}.

(** The safe division on IEEE single-precision numbers (24 bits of
    precision, exponents below 128), where not-a-number and the infinities
    exist: a denominator that compares equal to zero, of either sign, gives
    positive zero for every numerator. *)
Definition float32_divide_no_nan (a b : spec_float) : spec_float :=
  if SFeqb b (S754_zero false) then S754_zero false
  else SFdiv 24 128 a b.

(** Dual numbers: a value and its derivative along one fixed direction of the
    input (forward-mode differentiation), both exact rationals.  Comparisons
    look at values only; [stop_gradient] keeps the value and forgets the
    derivative. *)

Record Dual : Type := mkDual { value : Qc; tangent : Qc }.

Definition Dual_divide_no_nan (a b : Dual) : Dual :=
  match (value b ?= 0)%Qc with
  | Eq => mkDual 0%Qc 0%Qc
  | _ => mkDual (value a / value b)%Qc
                ((tangent a * value b - value a * tangent b)
                 / (value b * value b))%Qc
  end.

#[export] Instance Dual_scalar : Scalar Dual := {
  zero := mkDual 0%Qc 0%Qc;
  one := mkDual 1%Qc 0%Qc;
  add := fun a b => mkDual (value a + value b)%Qc (tangent a + tangent b)%Qc;
  sub := fun a b => mkDual (value a - value b)%Qc (tangent a - tangent b)%Qc;
  mul := fun a b => mkDual (value a * value b)%Qc
                           (tangent a * value b + value a * tangent b)%Qc;
  divide_no_nan := Dual_divide_no_nan;
  less := fun a b => Qc_less (value a) (value b);
  of_nat := fun n => mkDual (Qc_of_nat n) 0%Qc;
  stop_gradient := fun a => mkDual (value a) 0%Qc
}.

(** IEEE single precision, the [tf.float32] of the layer's variables: 24
    bits of precision, exponents below 128, every operation rounded to the
    nearest number with ties going to the even mantissa. *)

Definition float32_of_nat (n : nat) : spec_float :=
  binary_normalize 24 128 (Z.of_nat n) 0 false.

Definition float32_scalar : Scalar spec_float := {|
  zero := S754_zero false;
  one := float32_of_nat 1;
  add := SFadd 24 128;
  sub := SFsub 24 128;
  mul := SFmul 24 128;
  divide_no_nan := float32_divide_no_nan;
  less := SFltb;
  of_nat := float32_of_nat;
  stop_gradient := fun a => a
|}.

(** The rational number that a finite single-precision number stands for. *)
Definition float32_value (a : spec_float) : Qc :=
  match a with
  | S754_finite s m e =>
      let q := (inject_Z (Zpos m) * Qpower 2 e)%Q in
      Q2Qc (if s then Qopp q else q)
  | _ => 0%Qc
  end.

(** ** Tensors *)

(** A tensor is its shape and its elements in row-major order. *)
Record Tensor (A : Type) : Type := mkTensor {
  shape : list nat;
  data : list A
}.

Definition numel (s : list nat) : nat := fold_right Nat.mul 1 s.

Definition wf_tensor {A} (t : Tensor A) : Prop :=
  length (data t) = numel (shape t).

(** [blocks count size l]: [count] consecutive pieces of [size] elements. *)
Definition blocks {A} (count size : nat) (l : list A) : list (list A) :=
  map (fun i => firstn size (skipn (i * size) l)) (seq 0 count).

(** [columns n gs]: entry [i] collects element [i] of every list of [gs]. *)
Definition columns {A} (n : nat) (gs : list (list A)) : list (list A) :=
  map (fun i => flat_map (fun g => firstn 1 (skipn i g)) gs) (seq 0 n).

(** [tf.reshape(t, s)] for a fully given shape. *)
Definition reshape {A} (s : list nat) (d : list A) : result (Tensor A) :=
  if length d =? numel s then Ok (mkTensor s d)
  else Raise InvalidArgumentError.

(** [tf.reshape(t, (-1, cols))]: the rows of the flattened tensor.  Rows of
    width zero, for which the number of rows is not determined by the
    number of elements, are refused. *)
Definition reshape_rows {A} (cols : nat) (t : Tensor A)
  : result (list (list A)) :=
  if cols =? 0 then Raise InvalidArgumentError
  else if length (data t) mod cols =? 0
       then Ok (blocks (length (data t) / cols) cols (data t))
       else Raise InvalidArgumentError.

(** [tf.split(m, num, axis=1)] on a matrix whose rows have [width] columns. *)
Definition split_axis1 {A} (num width : nat) (m : list (list A))
  : result (list (list (list A))) :=
  if num =? 0 then Raise InvalidArgumentError
  else if width mod num =? 0
       then Ok (map (fun i =>
                       map (fun r => firstn (width / num)
                                       (skipn (i * (width / num)) r)) m)
                    (seq 0 num))
       else Raise InvalidArgumentError.

(** [tf.split(l, num, axis=0)]. *)
Definition split_axis0 {A} (num : nat) (l : list A)
  : result (list (list A)) :=
  if num =? 0 then Raise InvalidArgumentError
  else if length l mod num =? 0
       then Ok (blocks num (length l / num) l)
       else Raise InvalidArgumentError.

(** Number of rows shared by the pieces of a split. *)
Definition group_rows {A} (gs : list (list A)) : nat :=
  match gs with
  | [] => 0
  | g :: _ => length g
  end.

(** [tf.concat(gs, axis=1)] on matrices with the same number of rows. *)
Definition concat_axis1 {A} (gs : list (list (list A))) : list (list A) :=
  map (@concat A) (columns (group_rows gs) gs).

(** [tf.stack(gs, axis=1)] on vectors of the same length. *)
Definition stack_axis1 {A} (gs : list (list A)) : list (list A) :=
  columns (group_rows gs) gs.

(** [tf.nn.embedding_lookup(e, c)]. *)
Definition embedding_lookup {A} (e : list (list A)) (c : list nat)
  : result (list (list A)) :=
  if forallb (fun ci => ci <? length e) c
  then Ok (map (fun ci => nth ci e []) c)
  else Raise InvalidArgumentError.

(** Indices of the true entries, [tf.squeeze(tf.where(b), -1)]. *)
Definition where_true (b : list bool) : list nat :=
  filter (fun i => nth i b false) (seq 0 (length b)).

Fixpoint update_row {A} (i : nat) (v : A) (l : list A) : list A :=
  match l, i with
  | [], _ => []
  | _ :: l', 0 => v :: l'
  | a :: l', S i' => a :: update_row i' v l'
  end.

(** Row [i] becomes [u], for every pair [(i, u)] in turn. *)
Definition scatter_rows {A} (ius : list (nat * list A)) (t : list (list A))
  : list (list A) :=
  fold_left (fun acc iu => update_row (fst iu) (snd iu) acc) ius t.

(** [tf.tensor_scatter_nd_update(t, expand_dims(idx, 1), updates)]. *)
Definition tensor_scatter_nd_update {A} (t : list (list A)) (idx : list nat)
    (updates : list (list A)) : result (list (list A)) :=
  if negb (length idx =? length updates) then Raise InvalidArgumentError
  else if negb (forallb (fun i => i <? length t) idx)
       then Raise InvalidArgumentError
       else Ok (scatter_rows (combine idx updates) t).

(** [tf.where(expand_dims(cond, 1), a, b)]: a whole-row choice. *)
Fixpoint where_rows {A} (cond : list bool) (a b : list (list A))
  : list (list A) :=
  match cond, a, b with
  | c :: cond', ra :: a', rb :: b' =>
      (if c then ra else rb) :: where_rows cond' a' b'
  | _, _, _ => []
  end.

Fixpoint map2 {A B C} (f : A -> B -> C) (la : list A) (lb : list B)
  : list C :=
  match la, lb with
  | a :: la', b :: lb' => f a b :: map2 f la' lb'
  | _, _ => []
  end.

(** ** The layer *)

Section Layer.

Context {F : Type} {SF : Scalar F}.

(** Constructor arguments of [VectorQuantization.__init__]. *)
Record Config : Type := mkConfig {
  k : nat;
  gamma : F;
  restart_threshold : F;
  num_heads : nat;
  commitment_loss_weight : F
}.

(** What [build] creates: the observed depth and the two variables. *)
Record Variables : Type := mkVariables {
  depth : nat;
  counts : list F;
  sums : list (list F)
}.

(** The two random draws of a training call, [tf.random.uniform] and
    [tf.random.shuffle], as an oracle handed to the call. *)
Record Random : Type := mkRandom {
  uniform : nat -> nat -> list (list F);
  shuffle : list (list F) -> list (list F)
}.

(** Methods run on the layer's variables and may fail. *)
Definition Method (A : Type) : Type := Variables -> result (A * Variables).

Definition mret {A} (a : A) : Method A := fun v => Ok (a, v).

Definition mbind {A B} (m : Method A) (f : A -> Method B) : Method B :=
  fun v =>
    match m v with
    | Ok (a, v') => f a v'
    | Raise e => Raise e
    end.

Definition lift {A} (r : result A) : Method A :=
  fun v =>
    match r with
    | Ok a => Ok (a, v)
    | Raise e => Raise e
    end.

Definition read : Method Variables := fun v => Ok (v, v).

Definition same_widths (a b : list (list F)) : bool :=
  (length a =? length b)
  && forallb (fun p => length (fst p) =? length (snd p)) (combine a b).

(** [self.counts.assign_sub(delta)] *)
Definition assign_sub_counts (delta : list F) : Method unit :=
  fun v =>
    if length (counts v) =? length delta
    then Ok (tt, mkVariables (depth v) (map2 sub (counts v) delta) (sums v))
    else Raise InvalidArgumentError.

(** [self.sums.assign_sub(delta)] *)
Definition assign_sub_sums (delta : list (list F)) : Method unit :=
  fun v =>
    if same_widths (sums v) delta
    then Ok (tt, mkVariables (depth v) (counts v)
                             (map2 (map2 sub) (sums v) delta))
    else Raise InvalidArgumentError.

Declare Scope method_scope.
Delimit Scope method_scope with method.
Notation "x <- m ;; f" := (mbind m (fun x => f))
  (at level 61, m at next level, right associativity) : method_scope.

(** Python's [a % b] on non-negative integers. *)
Definition py_mod (a b : nat) : result nat :=
  if b =? 0 then Raise ZeroDivisionError else Ok (a mod b).

(** [input_shapes[-1]] *)
Definition last_dim (input_shapes : list nat) : result nat :=
  match rev input_shapes with
  | [] => Raise IndexError
  | d :: _ => Ok d
  end.

Definition build (self : Config) (input_shapes : list nat)
  : result Variables :=
  (d <- last_dim input_shapes ;;
   r <- py_mod d (num_heads self) ;;
   if negb (r =? 0) then Raise ValueError
   else Ok (mkVariables d
              (repeat zero (k self))
              (repeat (repeat zero (d / num_heads self)) (k self))))%result.

(** *** Element-wise and reduction helpers *)

Definition reduce_sum (l : list F) : F := fold_right add zero l.

(** [tf.reduce_sum(m**2, axis=1)] *)
Definition square_norms (m : list (list F)) : list F :=
  map (fun r => reduce_sum (map (fun v => mul v v) r)) m.

(** [tf.matmul(a, tf.transpose(b))] *)
Definition matmul_tb (a b : list (list F)) : list (list F) :=
  map (fun ra => map (fun rb => reduce_sum (map2 mul ra rb)) b) a.

(** [tf.reduce_sum(m, axis=0)] for a matrix with [cols] columns. *)
Definition reduce_sum_axis0 (cols : nat) (m : list (list F)) : list F :=
  map (fun i => reduce_sum (map (fun r => nth i r zero) m)) (seq 0 cols).

(** [tf.matmul(a, b, transpose_a=True)], where [a] has [rows] columns and
    [b] has [cols] columns. *)
Definition matmul_ta (rows cols : nat) (a b : list (list F))
  : list (list F) :=
  map (fun i =>
         map (fun j =>
                reduce_sum
                  (map2 (fun ra rb => mul (nth i ra zero) (nth j rb zero))
                        a b))
             (seq 0 cols))
      (seq 0 rows).

(** [tf.one_hot(indices=c, depth=n)] *)
Definition one_hot (c : list nat) (n : nat) : list (list F) :=
  map (fun ci => map (fun i => if i =? ci then one else zero) (seq 0 n)) c.

(** [tf.math.divide_no_nan(sums, tf.expand_dims(counts, 1))] *)
Definition centroid_means (s : list (list F)) (c : list F)
  : list (list F) :=
  map2 (fun row ci => map (fun v => divide_no_nan v ci) row) s c.

(** [tf.argmin] along a row: the first index that holds the minimum. *)
Fixpoint argmin_from (best : nat) (vbest : F) (i : nat) (l : list F) : nat :=
  match l with
  | [] => best
  | v :: l' =>
      if less v vbest then argmin_from i v (S i) l'
      else argmin_from best vbest (S i) l'
  end.

Definition argmin (l : list F) : result nat :=
  match l with
  | [] => Raise InvalidArgumentError
  | v :: l' => Ok (argmin_from 0 v 1 l')
  end.

(** *** The stages of [call] *)

(** Flatten the input and put the heads one after the other along the
    batch axis. *)
Definition flatten_heads (self : Config) (vars : Variables) (x : Tensor F)
  : result (list (list F)) :=
  (x_flat <- reshape_rows (depth vars) x ;;
   x_flat_split <- split_axis1 (num_heads self) (depth vars) x_flat ;;
   Ok (concat x_flat_split))%result.

(** The mask of the centroids that are kept in a training call. *)
Definition keep_mask (self : Config) (vars : Variables) (n : nat)
  : list bool :=
  map (fun c => less (mul (restart_threshold self) (of_nat n))
                     (mul c (of_nat (k self))))
      (counts vars).

(** The centroid matrix [e]. *)
Definition resolve_centroids (self : Config) (rng : Random)
    (training : bool) (vars : Variables) (x_flat : list (list F))
  : result (list (list F)) :=
  if training then
    let n := length x_flat in
    let keep := keep_mask self vars n in
    let restart := map negb keep in
    let restart_idx := where_true restart in
    let n_replace := Nat.min (length restart_idx) (length x_flat) in
    (e_restart <- tensor_scatter_nd_update
                    (uniform rng (k self) (depth vars / num_heads self))
                    (firstn n_replace restart_idx)
                    (firstn n_replace (shuffle rng x_flat)) ;;
     Ok (where_rows keep
           (centroid_means (sums vars) (counts vars))
           e_restart))%result
  else
    Ok (centroid_means (sums vars) (counts vars)).

(** Squared distance of every input row to every centroid. *)
Definition distances (x_flat e : list (list F)) : list (list F) :=
  let xx := square_norms x_flat in
  let xe := matmul_tb x_flat e in
  let ee := square_norms e in
  map2 (fun xx_n xe_n =>
          map2 (fun xe_ni ee_i =>
                  add (sub xx_n (mul (of_nat 2) xe_ni)) ee_i)
               xe_n ee)
       xx xe.

(** [tf.argmin(distances, axis=1)], which refuses an empty axis. *)
Definition nearest (x_flat e : list (list F)) : result (list nat) :=
  if length e =? 0 then Raise InvalidArgumentError
  else mapM argmin (distances x_flat e).

(** The looked-up centroids, put back into the shape of [x]. *)
Definition quantized_lookup (self : Config) (x : Tensor F)
    (e : list (list F)) (c : list nat) : result (Tensor F) :=
  (z <- embedding_lookup e c ;;
   z_split <- split_axis0 (num_heads self) z ;;
   let z := concat_axis1 z_split in
   reshape (shape x) (concat z))%result.

(** [x + tf.stop_gradient(z - x)] *)
Definition straight_through (x z : Tensor F) : Tensor F :=
  mkTensor (shape x)
    (map2 (fun xv zv => add xv (stop_gradient (sub zv xv)))
          (data x) (data z)).

(** Batch statistics and the moving-average update of both variables. *)
Definition update_statistics (self : Config) (x_flat : list (list F))
    (c : list nat) : Method unit :=
  let oh := one_hot c (k self) in
  let batch_counts := reduce_sum_axis0 (k self) oh in
  (vars <- read ;;
   let batch_sums :=
     matmul_ta (k self) (depth vars / num_heads self) oh x_flat in
   _ <- assign_sub_counts
          (map (mul (sub one (gamma self)))
               (map2 sub (counts vars) batch_counts)) ;;
   vars <- read ;;
   assign_sub_sums
     (map (map (mul (sub one (gamma self))))
          (map2 (map2 sub) (sums vars) batch_sums)))%method.

(** The codes, one per head, in the leading shape of [x]. *)
Definition reshape_codes (self : Config) (x : Tensor F) (c : list nat)
  : result (Tensor nat) :=
  (c_split <- split_axis0 (num_heads self) c ;;
   let c := stack_axis1 c_split in
   reshape (removelast (shape x) ++ [num_heads self]) (concat c))%result.

Definition call (self : Config) (rng : Random) (x : Tensor F)
    (training : bool) : Method (Tensor F * Tensor nat) :=
  (vars <- read ;;
   x_flat <- lift (flatten_heads self vars x) ;;
   e <- lift (resolve_centroids self rng training vars x_flat) ;;
   c <- lift (nearest x_flat e) ;;
   z <- lift (quantized_lookup self x e c) ;;
   let z := straight_through x z in
   _ <- (if training then update_statistics self x_flat c else mret tt) ;;
   c <- lift (reshape_codes self x c) ;;
   mret (z, c))%method.

Definition unquantize (c : Tensor nat) : Method (Tensor F) :=
  (vars <- read ;;
   let e := centroid_means (sums vars) (counts vars) in
   z <- lift (embedding_lookup e (data c)) ;;
   lift (reshape (removelast (shape c) ++ [depth vars]) (concat z)))%method.

(** The layer as its callers use it: the variables are created from the
    shape of the first input, and every later call finds them in place. *)
Definition layer_call (self : Config) (built : option Variables)
    (rng : Random) (x : Tensor F) (training : bool)
  : result ((Tensor F * Tensor nat) * Variables) :=
  match built with
  | Some vars => call self rng x training vars
  | None =>
      (vars <- build self (shape x) ;;
       call self rng x training vars)%result
  end.

End Layer.

Arguments Config F : clear implicits.
Arguments Variables F : clear implicits.
Arguments Random F : clear implicits.

(** ** Vocabulary of the properties *)

Section Vocabulary.

Context {F : Type} {SF : Scalar F}.

(** The shapes that [build] gives the variables. *)
Definition wf_vars (self : Config F) (vars : Variables F) : Prop :=
  num_heads self <> 0 /\
  depth vars mod num_heads self = 0 /\
  length (counts vars) = k self /\
  length (sums vars) = k self /\
  Forall (fun row => length row = depth vars / num_heads self) (sums vars).

(** What the calls assume of the random draws: [uniform] has the shape it
    is asked for and [shuffle] permutes the rows. *)
Definition wf_random (rng : Random F) : Prop :=
  (forall rows cols,
      length (uniform rng rows cols) = rows /\
      Forall (fun r => length r = cols) (uniform rng rows cols)) /\
  (forall m, Permutation (shuffle rng m) m).

(** The states a layer goes through: built once, then used. *)
Inductive reachable (self : Config F) : Variables F -> Prop :=
| reach_build (input_shapes : list nat) (vars : Variables F) :
    build self input_shapes = Ok vars ->
    reachable self vars
| reach_call (rng : Random F) (x : Tensor F) (training : bool)
    (vars vars' : Variables F) (r : Tensor F * Tensor nat) :
    reachable self vars ->
    call self rng x training vars = Ok (r, vars') ->
    reachable self vars'
| reach_unquantize (c : Tensor nat) (vars vars' : Variables F)
    (z : Tensor F) :
    reachable self vars ->
    unquantize c vars = Ok (z, vars') ->
    reachable self vars'.

(** The distances of one input row to all centroids. *)
Definition row_distances (e : list (list F)) (xr : list F) : list F :=
  map2 (fun xe_ni ee_i =>
          add (sub (reduce_sum (map (fun v => mul v v) xr))
                   (mul (of_nat 2) xe_ni))
              ee_i)
       (map (fun rb => reduce_sum (map2 mul xr rb)) e)
       (square_norms e).

(** Where [x + stop_gradient(z - x)] evaluates to [z], as it does in exact
    arithmetic, the straight-through step returns the quantized tensor
    itself. *)
Definition exact_straight_through : Prop :=
  forall a b : F, add a (stop_gradient (sub b a)) = b.

End Vocabulary.

Arguments exact_straight_through F {SF}.

(** [r[lo : lo + len]] *)
Definition slice_row {A} (lo len : nat) (r : list A) : list A :=
  firstn len (skipn lo r).

(** [t[..., lo : lo + len]] *)
Definition slice_last {A} (lo len : nat) (t : Tensor A) : Tensor A :=
  let leading := removelast (shape t) in
  let width := last (shape t) 0 in
  mkTensor (leading ++ [len])
    (concat (map (slice_row lo len)
                 (blocks (numel leading) width (data t)))).

(** The moving average in the form the specification gives it. *)
Definition ema (g old batch : Qc) : Qc :=
  (g * old + (1 - g) * batch)%Qc.

(** Number of flattened sub-vectors assigned to each centroid. *)
Definition assigned_counts (n : nat) (c : list nat) : list Qc :=
  map (fun i => Qc_of_nat (count_occ Nat.eq_dec c i)) (seq 0 n).

(** The sub-vectors assigned to centroid [i]. *)
Definition assigned_rows (i : nat) (c : list nat) (x_flat : list (list Qc))
  : list (list Qc) :=
  map snd (filter (fun p => fst p =? i) (combine c x_flat)).

(** Entry by entry, the sum of the sub-vectors assigned to each centroid. *)
Definition assigned_sums (n w : nat) (c : list nat)
    (x_flat : list (list Qc)) : list (list Qc) :=
  map (fun i =>
         map (fun j =>
                fold_right Qcplus 0%Qc
                  (map (fun row => nth j row 0%Qc)
                       (assigned_rows i c x_flat)))
             (seq 0 w))
      (seq 0 n).

(** ** A small concrete layer

    Three centroids of width two shared by two heads, and a batch of two
    vectors of depth four. *)

Definition demo_q (n : Z) : Qc := Q2Qc (inject_Z n).

Definition demo_config : Config Qc :=
  mkConfig 3 (Q2Qc (99 # 100)) (Q2Qc (1 # 10)) 2 (Q2Qc (1 # 5)).

Definition demo_vars : Variables Qc :=
  mkVariables 4
    [demo_q 1; demo_q 2; demo_q 0]
    [[demo_q 1; demo_q 2]; [demo_q 6; demo_q 8]; [demo_q 0; demo_q 0]].

Definition demo_x : Tensor Qc :=
  mkTensor [2; 4] (map demo_q [1; 2; 3; 4; 0; 0; 1; 2]%Z).

Definition demo_random : Random Qc :=
  mkRandom (fun rows cols => repeat (repeat (Q2Qc (1 # 2)) cols) rows)
           (fun rows => rev rows).

(** The same layer on dual numbers, with a tangent of one on every input
    element. *)

Definition constant (a : Qc) : Dual := mkDual a 0%Qc.

Definition demo_dual_config : Config Dual :=
  mkConfig 3 (constant (Q2Qc (99 # 100))) (constant (Q2Qc (1 # 10))) 2
           (constant (Q2Qc (1 # 5))).

Definition demo_dual_vars : Variables Dual :=
  mkVariables 4 (map constant (counts demo_vars))
              (map (map constant) (sums demo_vars)).

Definition demo_dual_x : Tensor Dual :=
  mkTensor [2; 4] (map (fun v => mkDual v 1%Qc) (data demo_x)).

Definition demo_dual_random : Random Dual :=
  mkRandom (fun rows cols => repeat (repeat (constant (Q2Qc (1 # 2))) cols)
                                    rows)
           (fun rows => rev rows).

(** Two layers with one centroid of depth one in single precision.
    [float32_ratio n d] is the single-precision number nearest to [n / d].
    The decay is the single-precision number nearest to 0.99, for which
    Python's [1 - gamma] is exact and is itself a single-precision number;
    the restart threshold is zero. *)

Definition float32_ratio (n d : nat) : spec_float :=
  SFdiv 24 128 (float32_of_nat n) (float32_of_nat d).

Definition float32_config : Config spec_float :=
  mkConfig 1 (float32_ratio 99 100) (float32_of_nat 0) 1
           (float32_ratio 1 5).

Definition float32_random : Random spec_float :=
  mkRandom (fun rows cols => repeat (repeat (float32_ratio 1 2) cols) rows)
           (fun rows => rows).

(** A count of 7 and a batch of two sub-vectors. *)
Definition float32_training_vars : Variables spec_float :=
  mkVariables 1 [float32_of_nat 7] [[float32_of_nat 7]].

Definition float32_training_x : Tensor spec_float :=
  mkTensor [2; 1] [float32_of_nat 1; float32_of_nat 1].

(** The centroid 0.1 and the input 0.7. *)
Definition float32_inference_vars : Variables spec_float :=
  mkVariables 1 [float32_of_nat 1] [[float32_ratio 1 10]].

Definition float32_inference_x : Tensor spec_float :=
  mkTensor [1; 1] [float32_ratio 7 10].

(** The moving average in the form the specification gives it, evaluated in
    single precision. *)
Definition float32_ema (g old batch : spec_float) : spec_float :=
  SFadd 24 128 (SFmul 24 128 g old)
               (SFmul 24 128 (SFsub 24 128 (float32_of_nat 1) g) batch).

(** The squared Euclidean distance of two vectors. *)
Definition sq_dist (a b : list Qc) : Qc :=
  fold_right Qcplus 0%Qc (map2 (fun u v => (u - v) * (u - v))%Qc a b).

(** ** Shapes: [ensure_4d] and [inv_ensure_4d]

    The remaining definitions embed the utilities of [nn.py] that do not
    depend on a Keras layer. *)

(** [x[:, tf.newaxis, tf.newaxis, :]] on two axes and
    [x[:, :, tf.newaxis, :]] on three: the elements stay, unit axes are
    inserted. *)
Definition ensure_4d {A} (x : Tensor A) : Tensor A :=
  match shape x with
  | [a; d] => mkTensor [a; 1; 1; d] (data x)
  | [a; b; d] => mkTensor [a; b; 1; d] (data x)
  | _ => x
  end.

(** [x[:, 0, 0, :]]: four indices need four axes, and index [0] needs a
    non-empty axis; axes after the fourth are kept whole. *)
Definition index_0_0 {A} (x : Tensor A) : result (Tensor A) :=
  match shape x with
  | a :: h :: w :: d :: rest =>
      if (h =? 0) || (w =? 0) then Raise InvalidArgumentError
      else
        let inner := numel (d :: rest) in
        Ok (mkTensor (a :: d :: rest)
              (concat (map (firstn inner)
                           (blocks a (h * w * inner) (data x)))))
  | _ => Raise InvalidArgumentError
  end.

(** [x[:, :, 0, :]] *)
Definition index_0 {A} (x : Tensor A) : result (Tensor A) :=
  match shape x with
  | a :: b :: w :: d :: rest =>
      if w =? 0 then Raise InvalidArgumentError
      else
        let inner := numel (d :: rest) in
        Ok (mkTensor (a :: b :: d :: rest)
              (concat (map (firstn inner)
                           (blocks (a * b) (w * inner) (data x)))))
  | _ => Raise InvalidArgumentError
  end.

Definition inv_ensure_4d {A} (x : Tensor A) (n_dims : nat)
  : result (Tensor A) :=
  if n_dims =? 2 then index_0_0 x
  else if n_dims =? 3 then index_0 x
  else Ok x.

(** ** Dictionaries of tensors: [split_to_dict] and [OutputSplitsLayer] *)

(** A Python [dict] with string keys, in insertion order. *)
Definition Dict (V : Type) : Type := list (String.string * V).

(** [d[key] = v]: a key that is present keeps its place. *)
Fixpoint dict_set {V} (key : String.string) (v : V) (d : Dict V) : Dict V :=
  match d with
  | [] => [(key, v)]
  | (key', v') :: d' =>
      if String.eqb key key' then (key', v) :: d'
      else (key', v') :: dict_set key v d'
  end.

(** [dict(pairs)] *)
Definition dict {V} (pairs : list (String.string * V)) : Dict V :=
  fold_left (fun d kv => dict_set (fst kv) (snd kv) d) pairs [].

(** [d.get(key)] *)
Fixpoint dict_get {V} (key : String.string) (d : Dict V) : option V :=
  match d with
  | [] => None
  | (key', v) :: d' =>
      if String.eqb key key' then Some v else dict_get key d'
  end.

(** Where the pieces of the given sizes begin, and their sizes. *)
Fixpoint split_offsets (lo : nat) (sizes : list nat) : list (nat * nat) :=
  match sizes with
  | [] => []
  | s :: sizes' => (lo, s) :: split_offsets (lo + s) sizes'
  end.

(** [tf.split(t, sizes, axis=-1)] for a list of sizes, which are channel
    counts: there is at least one piece, the tensor has a last axis, and
    the sizes add up to it. *)
Definition split_last {A} (sizes : list nat) (t : Tensor A)
  : result (list (Tensor A)) :=
  match sizes, shape t with
  | [], _ => Raise InvalidArgumentError
  | _, [] => Raise InvalidArgumentError
  | _, _ =>
      if fold_right Nat.add 0 sizes =? last (shape t) 0
      then Ok (map (fun p => slice_last (fst p) (snd p) t)
                   (split_offsets 0 sizes))
      else Raise InvalidArgumentError
  end.

Definition split_to_dict {A} (tensor : Tensor A)
    (tensor_splits : list (String.string * nat))
  : result (Dict (Tensor A)) :=
  let labels := map fst tensor_splits in
  let sizes := map snd tensor_splits in
  (tensors <- split_last sizes tensor ;;
   Ok (dict (combine labels tensors)))%result.

(** What [OutputSplitsLayer.__init__] derives from [output_splits]: the width
    of the final dense layer and the keys of the output dictionary. *)
Definition n_out (output_splits : list (String.string * nat)) : nat :=
  fold_right Nat.add 0 (map snd output_splits).

Definition output_keys (output_splits : list (String.string * nat))
  : list String.string :=
  map fst output_splits.

(** [tf.concat(ts, axis=-1)] on tensors that agree on the leading axes. *)
Definition concat_last {A} (ts : list (Tensor A)) : Tensor A :=
  match ts with
  | [] => mkTensor [] []
  | t0 :: _ =>
      let leading := removelast (shape t0) in
      mkTensor
        (leading ++ [fold_right Nat.add 0
                       (map (fun t => last (shape t) 0) ts)])
        (concat (concat_axis1
                   (map (fun t => blocks (numel leading) (last (shape t) 0)
                                         (data t)) ts)))
  end.

(** The default [output_splits] of [OutputSplitsLayer], with two
    harmonics instead of forty. *)
Module SplitDemo.
Import String.
Local Open Scope string_scope.

Definition demo_splits : list (string * nat) :=
  [("amps", 1); ("harmonic_distribution", 2)].

End SplitDemo.

(** ** Argument names: [DictLayer] *)

(** What [inspect.getfullargspec] reports of a method, as far as
    [DictLayer] reads it: the names of the positional arguments, [self]
    first, and the default values of the last of them ([None] when no
    argument has a default). *)
Record ArgSpec (V : Type) : Type := mkArgSpec {
  spec_args : list String.string;
  spec_defaults : option (list V)
}.

(** A bound of a Python slice on a sequence of length [len]: a negative
    bound counts from the end, and every bound is clamped to the
    sequence. *)
Definition py_bound (len : nat) (i : Z) : nat :=
  if (i <? 0)%Z then Z.to_nat (Z.max 0 (Z.of_nat len + i))
  else Nat.min len (Z.to_nat i).

(** [l[start:stop]] *)
Definition py_slice {A} (start stop : option Z) (l : list A) : list A :=
  let lo := match start with
            | Some i => py_bound (length l) i
            | None => 0
            end in
  let hi := match stop with
            | Some i => py_bound (length l) i
            | None => length l
            end in
  firstn (hi - lo) (skipn lo l).

(** Names of the required arguments. *)
Definition get_argument_names {V} (spec : ArgSpec V) : list String.string :=
  match spec_defaults spec with
  | Some (d :: ds) =>
      let n_defaults := length (d :: ds) in
      py_slice (Some 1%Z) (Some (- Z.of_nat n_defaults)%Z) (spec_args spec)
  | _ => py_slice (Some 1%Z) None (spec_args spec)
  end.

(** Names of the arguments with a default. *)
Definition get_default_argument_names {V} (spec : ArgSpec V)
  : list String.string :=
  match spec_defaults spec with
  | Some (d :: ds) =>
      let n_defaults := length (d :: ds) in
      py_slice (Some (- Z.of_nat n_defaults)%Z) None (spec_args spec)
  | _ => []
  end.

(** The method of the docstring of [DictLayer.__call__]:
    [def call(self, f0_hz, loudness, power=None)]. *)
Module ArgDemo.
Import String.
Local Open Scope string_scope.

Definition demo_spec : ArgSpec (option nat) :=
  mkArgSpec ["self"; "f0_hz"; "loudness"; "power"] (Some [None]).

Definition demo_required : list string := ["f0_hz"; "loudness"].

Definition demo_optional : list string := ["power"].

End ArgDemo.

(** ** Straight-through estimators *)

(** [tf.math.round] on exact rationals: the nearest integer, and the even
    one of the two when the value lies half-way. *)
Definition Qc_round (q : Qc) : Qc :=
  let f := Qfloor q in
  let r := (q - Q2Qc (inject_Z f))%Qc in
  if Qc_less r (Q2Qc (1 # 2)) then Q2Qc (inject_Z f)
  else if Qc_less (Q2Qc (1 # 2)) r then Q2Qc (inject_Z (f + 1))
  else if Z.even f then Q2Qc (inject_Z f)
  else Q2Qc (inject_Z (f + 1)).

(** Rounding is locally constant, and TensorFlow gives it the derivative
    zero. *)
Definition Dual_round (a : Dual) : Dual :=
  mkDual (Qc_round (value a)) 0%Qc.

Section StraightThroughEstimators.

Context {F : Type} {SF : Scalar F}.

(** [tf.math.round], [tf.nn.softmax] and the draw of a sample of the
    one-hot categorical distribution, cast to [tf.float32]. *)
Variable round : F -> F.
Variable softmax : Tensor F -> Tensor F.
Variable one_hot_sample : Tensor F -> Tensor F.

Definition straight_through_int_quantization (x : Tensor F) : Tensor F :=
  mkTensor (shape x)
    (map (fun v => add v (stop_gradient (sub (round v) v))) (data x)).

Definition straight_through_softmax (logits : Tensor F)
  : Tensor F * Tensor F :=
  let probs := softmax logits in
  let sample := one_hot_sample probs in
  let p_sample := map2 mul (data probs) (data sample) in
  let sample :=
    mkTensor (shape sample)
      (map2 (fun s p => add (stop_gradient (sub s p)) p)
            (data sample) p_sample) in
  (sample, probs).

End StraightThroughEstimators.

(** Stand-ins for the softmax and for the draw, on two logits: equal
    probabilities that keep the tangents of the logits, and the sample that
    selects the second entry. *)
Definition demo_softmax (t : Tensor Dual) : Tensor Dual :=
  mkTensor (shape t)
    (map (fun v => mkDual (Q2Qc (1 # 2)) (tangent v)) (data t)).

Definition demo_one_hot_sample (p : Tensor Dual) : Tensor Dual :=
  mkTensor (shape p) [constant 0%Qc; constant 1%Qc].

Definition demo_logits : Tensor Dual :=
  mkTensor [2] [mkDual 0%Qc 1%Qc; mkDual 0%Qc (Q2Qc 3)].

(** ** The stack of dilated convolutions *)

Module DilatedConvStack.

(** How the constructor reads [resample_type]: a value that counts as
    false ([None] or the empty string) is [None] here; the other strings
    are one of the two supported names or something else. *)
Inductive ResampleType : Type :=
| downsample
| upsample
| other_resample_type.

Section Stack.

(** The names of the normalizations. *)
Variable NormType : Type.

(** The Keras layers that the constructor creates, by the arguments they
    are created with; [Sequential] holds the two layers that [dilated_conv]
    adds to it.  A pair is (height, width).  Keras is not part of this
    code: a layer is recorded with its arguments whatever they are, and the
    checks that Keras makes of them when a layer is created are not
    modelled, so that an error here is an error of the constructor's own
    statements. *)
Inductive KerasLayer : Type :=
| Activation_relu
| Conv2D (filters : nat) (kernel_size strides : nat * nat)
         (dilation_rate : Z * Z)
| Conv2DTranspose (filters : nat) (kernel_size strides : nat * nat)
| Sequential (first second : KerasLayer)
| Normalize (norm_type : option NormType)
| ConditionalNorm (norm_type : option NormType) (shift_only : bool).

Record DilatedConvStack : Type := mkDilatedConvStack {
  conditional : bool;
  norm_type : option NormType;
  conv_in : KerasLayer;
  layers : list KerasLayer;
  norms : list KerasLayer;
  resample_layers : list KerasLayer
}.

(** The inner function [dilated_conv] of the constructor; [dilation] is an
    integer. *)
Definition dilated_conv (ch layers_per_stack kernel_size : nat)
    (dilation : Z) (i : nat) : KerasLayer :=
  let dilation_rate :=
    if (0 <? dilation)%Z then (dilation ^ Z.of_nat i)%Z
    else ((- dilation)
          ^ (Z.of_nat layers_per_stack - Z.of_nat i - 1))%Z in
  Sequential Activation_relu
             (Conv2D ch (kernel_size, 1) (1, 1) (dilation_rate, 1%Z)).

(** The body of the loop over the stacks, for stack [i], on the three
    lists that the constructor grows. *)
Definition add_stack (ch layers_per_stack kernel_size : nat) (dilation : Z)
    (norm_type : option NormType) (resample_type : option ResampleType)
    (resample_stride stacks_per_resample : nat)
    (shift_only conditional : bool) (i : nat)
    (acc : list KerasLayer * list KerasLayer * list KerasLayer)
  : result (list KerasLayer * list KerasLayer * list KerasLayer) :=
  let '(layers, norms, resample_layers) := acc in
  let norm := if conditional then ConditionalNorm norm_type shift_only
              else Normalize norm_type in
  let layers :=
    layers ++ map (dilated_conv ch layers_per_stack kernel_size dilation)
                  (seq 0 layers_per_stack) in
  let norms := norms ++ repeat norm layers_per_stack in
  match resample_type with
  | None => Ok (layers, norms, resample_layers)
  | Some kind =>
      (r <- py_mod (i + 1) stacks_per_resample ;;
       if r =? 0 then
         match kind with
         | downsample =>
             Ok (layers, norms,
                 resample_layers
                 ++ [Conv2D ch (resample_stride, 1) (resample_stride, 1)
                            (1%Z, 1%Z)])
         | upsample =>
             Ok (layers, norms,
                 resample_layers
                 ++ [Conv2DTranspose ch (resample_stride * 2, 1)
                                     (resample_stride, 1)])
         | other_resample_type => Raise ValueError
         end
       else Ok (layers, norms, resample_layers))%result
  end.

Fixpoint add_stacks (f : nat -> list KerasLayer * list KerasLayer
                              * list KerasLayer
                         -> result (list KerasLayer * list KerasLayer
                                    * list KerasLayer))
    (ids : list nat)
    (acc : list KerasLayer * list KerasLayer * list KerasLayer)
  : result (list KerasLayer * list KerasLayer * list KerasLayer) :=
  match ids with
  | [] => Ok acc
  | i :: ids' => (acc' <- f i acc ;; add_stacks f ids' acc')%result
  end.

(** [DilatedConvStack.__init__] *)
Definition init (ch layers_per_stack stacks kernel_size : nat)
    (dilation : Z) (norm_type : option NormType)
    (resample_type : option ResampleType)
    (resample_stride stacks_per_resample : nat)
    (shift_only conditional : bool) : result DilatedConvStack :=
  (acc <- add_stacks
            (add_stack ch layers_per_stack kernel_size dilation norm_type
                       resample_type resample_stride stacks_per_resample
                       shift_only conditional)
            (seq 0 stacks) ([], [], []) ;;
   let '(layers, norms, resample_layers) := acc in
   Ok (mkDilatedConvStack conditional norm_type
         (Conv2D ch (kernel_size, 1) (1, 1) (1%Z, 1%Z))
         layers norms resample_layers))%result.

Context {F : Type} {SF : Scalar F}.

(** Applying a Keras layer to one tensor, and a conditional normalization
    to a tensor and its conditioning, are taken as given. *)
Variable apply : KerasLayer -> Tensor F -> Tensor F.
Variable apply2 : KerasLayer -> Tensor F -> Tensor F -> Tensor F.

(** [x + y] on tensors of one shape. *)
Definition tensor_add (x y : Tensor F) : Tensor F :=
  mkTensor (shape x) (map2 add (data x) (data y)).

(** What [call] is given: a pair of tensors for a conditional stack, one
    tensor otherwise. *)
Definition Inputs (conditional : bool) : Type :=
  if conditional then (Tensor F * Tensor F)%type else Tensor F.

(** The first lines of [call]: the input with four axes, and how a
    normalization is applied in the loop. *)
Definition read_inputs (conditional : bool)
  : Inputs conditional -> Tensor F * (KerasLayer -> Tensor F -> Tensor F) :=
  match conditional with
  | true => fun inputs =>
      (ensure_4d (fst inputs),
       fun norm y => apply2 norm y (ensure_4d (snd inputs)))
  | false => fun inputs =>
      (ensure_4d inputs, fun norm y => apply norm y)
  end.

(** The loop of [call] from position [i] on. *)
Fixpoint run_layers (self : DilatedConvStack)
    (apply_norm : KerasLayer -> Tensor F -> Tensor F) (i : nat)
    (lns : list (KerasLayer * KerasLayer)) (x : Tensor F)
  : result (Tensor F) :=
  match lns with
  | [] => Ok x
  | (layer, norm) :: lns' =>
      let x := tensor_add x (apply_norm norm (apply layer x)) in
      (x <- match resample_layers self with
            | [] => Ok x
            | _ :: _ =>
                let layers_per_resample :=
                  length (layers self) / length (resample_layers self) in
                (r <- py_mod (i + 1) layers_per_resample ;;
                 if r =? 0 then
                   match nth_error (resample_layers self)
                                   (i / layers_per_resample) with
                   | Some resample => Ok (apply resample x)
                   | None => Raise IndexError
                   end
                 else Ok x)
            end ;;
       run_layers self apply_norm (S i) lns' x)%result
  end.

Definition call (self : DilatedConvStack)
    (inputs : Inputs (conditional self)) : result (Tensor F) :=
  let '(x, apply_norm) := read_inputs (conditional self) inputs in
  let x := apply (conv_in self) x in
  (x <- run_layers self apply_norm 0
          (combine (layers self) (norms self)) x ;;
   index_0 x)%result.

(** *** The same computation, chunk by chunk *)

(** One residual layer. *)
Definition residual_step (apply_norm : KerasLayer -> Tensor F -> Tensor F)
    (x : Tensor F) (ln : KerasLayer * KerasLayer) : Tensor F :=
  tensor_add x (apply_norm (snd ln) (apply (fst ln) x)).

(** Chunks of [size] residual layers, each followed by the next resampling
    layer; the layers that are left run without resampling. *)
Fixpoint run_chunks (apply_norm : KerasLayer -> Tensor F -> Tensor F)
    (size : nat) (resamples : list KerasLayer)
    (lns : list (KerasLayer * KerasLayer)) (x : Tensor F) : Tensor F :=
  match resamples with
  | [] => fold_left (residual_step apply_norm) lns x
  | resample :: resamples' =>
      run_chunks apply_norm size resamples' (skipn size lns)
        (apply resample
           (fold_left (residual_step apply_norm) (firstn size lns) x))
  end.

(** The dilation rate of a layer made by [dilated_conv]. *)
Definition dilation_rate_of (layer : KerasLayer) : option Z :=
  match layer with
  | Sequential Activation_relu (Conv2D _ _ _ (rate, _)) => Some rate
  | _ => None
  end.

End Stack.

End DilatedConvStack.

(** A stack to try the constructor and the call on: three stacks of two
    layers, a downsampling every second stack, and layers that leave their
    input as it is. *)
Definition demo_apply (layer : DilatedConvStack.KerasLayer unit)
    (x : Tensor Qc) : Tensor Qc := x.

Definition demo_apply2 (layer : DilatedConvStack.KerasLayer unit)
    (x z : Tensor Qc) : Tensor Qc := x.

Definition demo_stack : DilatedConvStack.DilatedConvStack unit :=
  match DilatedConvStack.init 1 2 3 3 2%Z None
          (Some DilatedConvStack.downsample) 2 2 false false with
  | Ok self => self
  | Raise _ =>
      DilatedConvStack.mkDilatedConvStack false None
        (DilatedConvStack.Activation_relu unit) [] [] []
  end.

(** ** Notes: masks and pooling

    In this part a tensor with the axes [[batch, time, notes]] or
    [[batch, time, dims]] is a list over the batch of matrices, each a list
    over time of rows; a tensor [[batch, notes]] is a list of rows.  The
    number of columns of a matrix is read off its first row. *)

Definition n_columns {A} (m : list (list A)) : nat :=
  match m with
  | [] => 0
  | r :: _ => length r
  end.

(** [tf.cumsum] along a row of integers, after the running total [acc]. *)
Fixpoint cumsum (acc : Z) (l : list Z) : list Z :=
  match l with
  | [] => []
  | a :: l' => (acc + a)%Z :: cumsum (acc + a)%Z l'
  end.

Section Notes.

Context {F : Type} {SF : Scalar F}.

(** [tf.abs], and the two helpers of other modules that the functions
    call: [spectral_ops.diff] along the time axis of one batch entry, and
    [core.safe_divide] on two elements. *)
Variable abs : F -> F.
Variable diff : list F -> list F.
Variable safe_divide : F -> F -> F.

(** [tf.cast(b, tf.float32)] *)
Definition cast_bool (b : bool) : F := if b then one else zero.

(** The region of every timestep of one batch entry: the edges, with the
    last one dropped, a true one put in front and a false one at the end,
    counted up, minus one. *)
Definition edge_idx (q : list F) : list Z :=
  let edges := map (fun d => less zero (abs d)) (diff q) in
  let edges := removelast edges in
  let edges := true :: edges in
  let edges := edges ++ [false] in
  let edges := map (fun b : bool => if b then 1%Z else 0%Z) edges in
  map (fun s => (s - 1)%Z) (cumsum 0%Z edges).

Definition get_note_lengths (note_mask : list (list (list F)))
  : list (list F) :=
  map (fun m => reduce_sum_axis0 (n_columns m) m) note_mask.

(** [get_note_moments(x, note_mask, return_std=False)] for [x] with the
    axes [[batch, time, dims]]: the mean only. *)
Definition get_note_moments (x note_mask : list (list (list F)))
  : list (list (list F)) :=
  map2 (fun xb mb =>
          let n := n_columns mb in
          let d := n_columns xb in
          let note_lengths := reduce_sum_axis0 n mb in
          let sums :=
            map (fun r =>
                   map (fun j =>
                          reduce_sum
                            (map2 (fun xt mt =>
                                     mul (nth j xt zero) (nth r mt zero))
                                  xb mb))
                       (seq 0 d))
                (seq 0 n) in
          map2 (fun row len => map (fun s => safe_divide s len) row)
               sums note_lengths)
       x note_mask.

(** The same for [x] with the axes [[batch, time]]: a unit axis is added
    to [x] and removed from the mean. *)
Definition get_note_moments_2d (x : list (list F))
    (note_mask : list (list (list F))) : list (list F) :=
  map (map (fun row => nth 0 row zero))
      (get_note_moments (map (map (fun v => [v])) x) note_mask).

Definition get_note_mask (q_pitch : list (list F)) (max_regions : nat)
    (note_on_only : bool) : list (list (list F)) :=
  let note_mask :=
    map (fun q =>
           map (fun idx =>
                  map (fun r => cast_bool (idx =? Z.of_nat r)%Z)
                      (seq 0 max_regions))
               (edge_idx q))
        q_pitch in
  if note_on_only then
    let note_pitches := get_note_moments_2d q_pitch note_mask in
    let note_on := map (map (fun p => cast_bool (less zero p))) note_pitches in
    map2 (fun mb on => map (fun mt => map2 mul mt on) mb) note_mask note_on
  else note_mask.

Definition pool_over_notes (x note_mask : list (list (list F)))
  : list (list (list F)) :=
  let x_notes := get_note_moments x note_mask in
  map2 (fun notes mb =>
          map (fun mt =>
                 map (fun j =>
                        reduce_sum
                          (map2 (fun nr m => mul (nth j nr zero) m)
                                notes mt))
                     (seq 0 (n_columns notes)))
              mb)
       x_notes note_mask.

Definition get_short_note_loss_mask (note_mask : list (list (list F)))
    (note_lengths note_pitches : list (list F)) (min_length : F)
  : list (list F) :=
  let short_notes :=
    map2 (map2 (fun len p =>
                  cast_bool (less len min_length && less zero p)))
         note_lengths note_pitches in
  map2 (fun mb short => map (fun mt => reduce_sum (map2 mul mt short)) mb)
       note_mask short_notes.

End Notes.

(** ** Normalization *)

(** The three names that [normalize_op] knows. *)
Inductive NormKind : Type :=
| instance_norm
| layer_norm
| group_norm.

Section Normalization.

Context {F : Type} {SF : Scalar F}.

(** The division [x / y] and [tf.sqrt] on elements, and the default value
    of [eps]. *)
Variable div : F -> F -> F.
Variable sqrt : F -> F.
Variable default_eps : F.

(** [tf.reduce_mean] of the listed elements. *)
Definition reduce_mean (l : list F) : F :=
  div (reduce_sum l) (of_nat (length l)).

(** In one entry of the first axis of a tensor [[a, b, c, d, e, ...]], with
    [rest] elements behind the fifth axis: the elements that share the
    index [id] on the fourth axis and the position [ir] behind the fifth,
    that is, the elements averaged together by a reduction over the second,
    third and fifth axes. *)
Definition group_elems (bc d e rest : nat) (block : list F) (id ir : nat)
  : list F :=
  flat_map (fun p =>
              map (fun ie =>
                     nth (p * (d * e * rest) + (id * e + ie) * rest + ir)
                         block zero)
                  (seq 0 e))
           (seq 0 bc).

(** [(x - mean) / tf.sqrt(var + eps)] on one entry of the first axis, with
    the moments of [tf.nn.moments(x, [1, 2, 4], keepdims=True)]. *)
Definition normalize_block (bc d e rest : nat) (eps : F) (block : list F)
  : list F :=
  map (fun q =>
         let id := (q mod (d * e * rest)) / (e * rest) in
         let ir := q mod rest in
         let elems := group_elems bc d e rest block id ir in
         let mean := reduce_mean elems in
         let var :=
           reduce_mean (map (fun u => mul (sub u mean) (sub u mean)) elems) in
         div (sub (nth q block zero) mean) (sqrt (add var eps)))
      (seq 0 (bc * (d * e * rest))).

(** [normalize_op(x, norm_type, eps)] for [norm_type] one of the three
    names or [None]. *)
Definition normalize_op (x : Tensor F) (norm_type : option NormKind)
    (eps : F) : result (Tensor F) :=
  match norm_type with
  | None => Ok x
  | Some kind =>
      match rev (shape x) with
      | [] => Raise InvalidArgumentError
      | ch :: _ =>
          let n_groups := match kind with
                          | instance_norm => ch
                          | layer_norm => 1
                          | group_norm => 32
                          end in
          if n_groups =? 0 then Raise InvalidArgumentError
          else
            (x5 <- reshape (removelast (shape x)
                            ++ [n_groups; ch / n_groups]) (data x) ;;
             match shape x5 with
             | a :: b :: c :: d :: e :: rest =>
                 let r := numel rest in
                 Ok (mkTensor (shape x)
                       (concat
                          (map (normalize_block (b * c) d e r eps)
                               (blocks a (b * c * (d * e * r))
                                       (data x5)))))
             | _ => Raise InvalidArgumentError
             end)%result
      end
  end.

(** The weights of a [Normalize] layer, of shape [[1, 1, 1, ch]]. *)
Record NormalizeWeights : Type := mkNormalizeWeights {
  scale : list F;
  shift : list F
}.

(** [Normalize.build] *)
Definition Normalize_build (x_shape : list nat) : result NormalizeWeights :=
  (ch <- last_dim x_shape ;;
   Ok (mkNormalizeWeights (repeat one ch) (repeat zero ch)))%result.

(** [x op w] for a weight [w] of shape [[1, 1, 1, len(w)]], with the
    broadcasting of TensorFlow: [x] gets leading unit axes up to four axes,
    and the last axes must agree or one of them be one. *)
Definition broadcast_weight (op : F -> F -> F) (x : Tensor F) (w : list F)
  : result (Tensor F) :=
  let s := repeat 1 (4 - length (shape x)) ++ shape x in
  let d := last s 1 in
  let c := length w in
  if d =? c then
    Ok (mkTensor s
          (concat (map (fun row => map2 op row w)
                       (blocks (numel (removelast s)) d (data x)))))
  else if c =? 1 then
    Ok (mkTensor s (map (fun u => op u (nth 0 w zero)) (data x)))
  else if d =? 1 then
    Ok (mkTensor (removelast s ++ [c])
          (flat_map (fun u => map (op u) w) (data x)))
  else Raise InvalidArgumentError.

(** [Normalize.call] *)
Definition Normalize_call (norm_type : option NormKind)
    (weights : NormalizeWeights) (x : Tensor F) : result (Tensor F) :=
  let n_dims := length (shape x) in
  let x := ensure_4d x in
  (x <- normalize_op x norm_type default_eps ;;
   x <- broadcast_weight mul x (scale weights) ;;
   x <- broadcast_weight add x (shift weights) ;;
   inv_ensure_4d x n_dims)%result.

End Normalization.

(** * Lemmas *)

(** ** Running a method step by step *)

Lemma rbind_Ok {A B} (r : result A) (f : A -> result B) (b : B) :
  rbind r f = Ok b <-> exists a, r = Ok a /\ f a = Ok b.
Proof.
  destruct r as [a | e]; simpl; split.
  - intros H. exists a. auto.
  - intros (a' & Ha & Hf). inversion Ha. subst. exact Hf.
  - discriminate.
  - intros (a' & Ha & _). discriminate.
Qed.

Section MethodFacts.

Context {F : Type} {SF : Scalar F}.

Lemma mbind_Ok {A B} (m : Method A) (f : A -> Method B)
    (v v' : Variables F) (b : B) :
  mbind m f v = Ok (b, v') <->
  exists a v1, m v = Ok (a, v1) /\ f a v1 = Ok (b, v').
Proof.
  unfold mbind. destruct (m v) as [[a v1] | e]; split.
  - intros H. exists a, v1. auto.
  - intros (a' & v2 & Hm & Hf). inversion Hm. subst. exact Hf.
  - discriminate.
  - intros (a' & v2 & Hm & _). discriminate.
Qed.

Lemma lift_Ok {A} (r : result A) (v v' : Variables F) (a : A) :
  lift r v = Ok (a, v') <-> r = Ok a /\ v' = v.
Proof.
  unfold lift. destruct r as [a0 | e]; split.
  - intros H. inversion H. auto.
  - intros [Hr Hv]. inversion Hr. subst. reflexivity.
  - discriminate.
  - intros [Hr _]. discriminate.
Qed.

(** A successful [call] is a successful run of each of its stages. *)
Lemma call_Ok (self : Config F) (rng : Random F) (x : Tensor F)
    (training : bool) (vars vars' : Variables F)
    (z : Tensor F) (code : Tensor nat) :
  call self rng x training vars = Ok ((z, code), vars') <->
  exists x_flat e c zq,
    flatten_heads self vars x = Ok x_flat /\
    resolve_centroids self rng training vars x_flat = Ok e /\
    nearest x_flat e = Ok c /\
    quantized_lookup self x e c = Ok zq /\
    z = straight_through x zq /\
    (if training then update_statistics self x_flat c vars = Ok (tt, vars')
     else vars' = vars) /\
    reshape_codes self x c = Ok code.
Proof.
  unfold call. split.
  - intros H.
    apply mbind_Ok in H. destruct H as (v0 & v1 & Hread & H).
    unfold read in Hread. inversion Hread. subst v0 v1. clear Hread.
    apply mbind_Ok in H. destruct H as (x_flat & v1 & Hx & H).
    apply lift_Ok in Hx. destruct Hx as [Hx ->].
    apply mbind_Ok in H. destruct H as (e & v1 & He & H).
    apply lift_Ok in He. destruct He as [He ->].
    apply mbind_Ok in H. destruct H as (c & v1 & Hc & H).
    apply lift_Ok in Hc. destruct Hc as [Hc ->].
    apply mbind_Ok in H. destruct H as (zq & v1 & Hz & H).
    apply lift_Ok in Hz. destruct Hz as [Hz ->].
    apply mbind_Ok in H. destruct H as (u & v1 & Hu & H).
    apply mbind_Ok in H. destruct H as (code' & v2 & Hcode & H).
    apply lift_Ok in Hcode. destruct Hcode as [Hcode ->].
    unfold mret in H. inversion H. subst. clear H.
    exists x_flat, e, c, zq. repeat split; auto.
    destruct training.
    + destruct u. exact Hu.
    + unfold mret in Hu. inversion Hu. reflexivity.
  - intros (x_flat & e & c & zq & Hx & He & Hc & Hz & -> & Hu & Hcode).
    apply mbind_Ok. exists vars, vars. split; [reflexivity |].
    apply mbind_Ok. exists x_flat, vars. split; [apply lift_Ok; auto |].
    apply mbind_Ok. exists e, vars. split; [apply lift_Ok; auto |].
    apply mbind_Ok. exists c, vars. split; [apply lift_Ok; auto |].
    apply mbind_Ok. exists zq, vars. split; [apply lift_Ok; auto |].
    apply mbind_Ok. exists tt, vars'. split.
    + destruct training; [exact Hu | subst; reflexivity].
    + apply mbind_Ok. exists code, vars'. split; [apply lift_Ok; auto |].
      reflexivity.
Qed.

Lemma unquantize_Ok (c : Tensor nat) (vars vars' : Variables F)
    (z : Tensor F) :
  unquantize c vars = Ok (z, vars') <->
  exists rows,
    embedding_lookup (centroid_means (sums vars) (counts vars)) (data c)
      = Ok rows /\
    reshape (removelast (shape c) ++ [depth vars]) (concat rows) = Ok z /\
    vars' = vars.
Proof.
  unfold unquantize. split.
  - intros H.
    apply mbind_Ok in H. destruct H as (v0 & v1 & Hread & H).
    unfold read in Hread. inversion Hread. subst v0 v1. clear Hread.
    apply mbind_Ok in H. destruct H as (rows & v1 & Hrows & H).
    apply lift_Ok in Hrows. destruct Hrows as [Hrows ->].
    apply lift_Ok in H. destruct H as [H ->].
    exists rows. auto.
  - intros (rows & Hrows & Hz & ->).
    apply mbind_Ok. exists vars, vars. split; [reflexivity |].
    apply mbind_Ok. exists rows, vars. split; [apply lift_Ok; auto |].
    apply lift_Ok. auto.
Qed.

(** The update of a training call, written out. *)
Lemma update_statistics_Ok (self : Config F) (x_flat : list (list F))
    (c : list nat) (vars vars' : Variables F) :
  update_statistics self x_flat c vars = Ok (tt, vars') ->
  let oh := one_hot c (k self) in
  let batch_counts := reduce_sum_axis0 (k self) oh in
  let batch_sums :=
    matmul_ta (k self) (depth vars / num_heads self) oh x_flat in
  vars' =
    mkVariables (depth vars)
      (map2 sub (counts vars)
         (map (mul (sub one (gamma self)))
              (map2 sub (counts vars) batch_counts)))
      (map2 (map2 sub) (sums vars)
         (map (map (mul (sub one (gamma self))))
              (map2 (map2 sub) (sums vars) batch_sums))).
Proof.
  unfold update_statistics. intros H. simpl.
  apply mbind_Ok in H. destruct H as (v0 & v1 & Hread & H).
  unfold read in Hread. inversion Hread. subst v0 v1. clear Hread.
  apply mbind_Ok in H. destruct H as (u & v1 & Hc & H).
  unfold assign_sub_counts in Hc.
  destruct (length (counts vars) =? _); [| discriminate].
  inversion Hc. subst u v1. clear Hc.
  apply mbind_Ok in H. destruct H as (v0 & v1 & Hread & H).
  unfold read in Hread. inversion Hread. subst v0 v1. clear Hread.
  unfold assign_sub_sums in H. simpl in H.
  destruct (same_widths _ _); [| discriminate].
  inversion H. reflexivity.
Qed.

End MethodFacts.

(** ** Lists processed pairwise *)

Lemma map2_length {A B C} (f : A -> B -> C) (la : list A) (lb : list B) :
  length (map2 f la lb) = Nat.min (length la) (length lb).
Proof.
  revert lb. induction la as [| a la IH]; intros [| b lb]; simpl; auto.
Qed.

Lemma map2_ext {A B C} (f g : A -> B -> C) (la : list A) (lb : list B) :
  (forall a b, f a b = g a b) -> map2 f la lb = map2 g la lb.
Proof.
  intros H. revert lb.
  induction la as [| a la IH]; intros [| b lb]; simpl; auto.
  rewrite H, IH. reflexivity.
Qed.

Lemma map2_map_r {A B B' C} (f : A -> B -> C) (g : B' -> B)
    (la : list A) (lb : list B') :
  map2 f la (map g lb) = map2 (fun a b => f a (g b)) la lb.
Proof.
  revert lb. induction la as [| a la IH]; intros [| b lb]; simpl; auto.
  rewrite IH. reflexivity.
Qed.

Lemma map2_map_l {A A' B C} (f : A -> B -> C) (g : A' -> A)
    (la : list A') (lb : list B) :
  map2 f (map g la) lb = map2 (fun a b => f (g a) b) la lb.
Proof.
  revert lb. induction la as [| a la IH]; intros [| b lb]; simpl; auto.
  rewrite IH. reflexivity.
Qed.

Lemma map_map2 {A B C D} (g : C -> D) (f : A -> B -> C)
    (la : list A) (lb : list B) :
  map g (map2 f la lb) = map2 (fun a b => g (f a b)) la lb.
Proof.
  revert lb. induction la as [| a la IH]; intros [| b lb]; simpl; auto.
  rewrite IH. reflexivity.
Qed.

(** Feeding a list and a pairwise result over the same list to [map2]. *)
Lemma map2_self_l {A B C D} (f : A -> C -> D) (g : A -> B -> C)
    (la : list A) (lb : list B) :
  map2 f la (map2 g la lb) = map2 (fun a b => f a (g a b)) la lb.
Proof.
  revert lb. induction la as [| a la IH]; intros [| b lb]; simpl; auto.
  rewrite IH. reflexivity.
Qed.

Lemma map2_Forall {A B C} (P : C -> Prop) (f : A -> B -> C)
    (la : list A) (lb : list B) :
  (forall a b, In a la -> In b lb -> P (f a b)) ->
  Forall P (map2 f la lb).
Proof.
  revert lb. induction la as [| a la IH]; intros [| b lb] H; simpl;
    try constructor.
  - apply H; simpl; auto.
  - apply IH. intros a' b' Ha Hb. apply H; simpl; auto.
Qed.

Lemma nth_map2 {A B C} (f : A -> B -> C) (la : list A) (lb : list B)
    (i : nat) (da : A) (db : B) (dc : C) :
  i < length la -> i < length lb ->
  nth i (map2 f la lb) dc = f (nth i la da) (nth i lb db).
Proof.
  revert lb i. induction la as [| a la IH]; intros [| b lb] [| i] Ha Hb;
    simpl in *; try lia; auto.
  apply IH; lia.
Qed.

Lemma nth_map_in_range {A B} (f : A -> B) (l : list A) (i : nat)
    (d : A) (d' : B) :
  i < length l -> nth i (map f l) d' = f (nth i l d).
Proof.
  intros Hi. rewrite nth_indep with (d' := f d) by (rewrite length_map; lia).
  apply map_nth.
Qed.

(** ** Arithmetic of exact rationals *)

Section ExactArithmetic.

Local Open Scope Qc_scope.

Lemma Qc_less_lt (a b : Qc) : Qc_less a b = true <-> a < b.
Proof.
  unfold Qc_less. rewrite Qclt_alt.
  destruct (a ?= b); split; congruence.
Qed.

Lemma Qc_less_irrefl (a : Qc) : Qc_less a a = false.
Proof.
  destruct (Qc_less a a) eqn:E; [| reflexivity].
  apply Qc_less_lt in E. exfalso.
  apply (Qclt_not_eq a a E). reflexivity.
Qed.

Lemma Qc_divide_by_zero (a : Qc) : Qc_divide_no_nan a 0 = 0.
Proof. reflexivity. Qed.

Lemma Qc_of_nat_S (n : nat) : Qc_of_nat (S n) = 1 + Qc_of_nat n.
Proof.
  unfold Qc_of_nat, Qcplus. apply Q2Qc_eq_iff.
  change (this 1) with 1%Q.
  change (this (Q2Qc (inject_Z (Z.of_nat n))))
    with (Qred (inject_Z (Z.of_nat n))).
  rewrite Qred_correct, Nat2Z.inj_succ.
  unfold Z.succ. rewrite inject_Z_plus.
  change (inject_Z 1) with 1%Q. ring.
Qed.

Lemma Qc_of_nat_0 : Qc_of_nat 0 = 0.
Proof. apply Qc_is_canon. reflexivity. Qed.

Lemma ema_assign_sub (g old batch : Qc) :
  old - (1 - g) * (old - batch) = ema g old batch.
Proof. unfold ema. ring. Qed.

Lemma ema_nonneg (g old batch : Qc) :
  0 <= g -> g <= 1 -> 0 <= old -> 0 <= batch -> 0 <= ema g old batch.
Proof.
  intros Hg0 Hg1 Ho Hb. unfold ema.
  assert (H1 : 0 <= g * old).
  { replace 0 with (0 * old) by ring. apply Qcmult_le_compat_r; assumption. }
  assert (H2 : 0 <= (1 - g) * batch).
  { replace 0 with (0 * batch) by ring. apply Qcmult_le_compat_r; auto.
    apply Qcle_minus_iff in Hg1. exact Hg1. }
  replace 0 with (0 + 0) by ring.
  apply Qcplus_le_compat; assumption.
Qed.

End ExactArithmetic.

(** ** Well-formed variables and reachable states *)

Section Invariants.

Context {F : Type} {SF : Scalar F}.

Lemma build_Ok (self : Config F) (input_shapes : list nat)
    (vars : Variables F) :
  build self input_shapes = Ok vars ->
  exists d,
    last_dim input_shapes = Ok d /\
    num_heads self <> 0 /\
    d mod num_heads self = 0 /\
    vars = mkVariables d (repeat zero (k self))
             (repeat (repeat zero (d / num_heads self)) (k self)).
Proof.
  unfold build. intros H.
  apply rbind_Ok in H. destruct H as (d & Hd & H).
  apply rbind_Ok in H. destruct H as (r & Hr & H).
  unfold py_mod in Hr.
  destruct (Nat.eqb_spec (num_heads self) 0) as [E | NE]; [discriminate |].
  inversion Hr. subst r. clear Hr.
  destruct (Nat.eqb_spec (d mod num_heads self) 0) as [E | NE'];
    simpl in H; [| discriminate].
  inversion H. exists d. auto.
Qed.

Lemma build_wf (self : Config F) (input_shapes : list nat)
    (vars : Variables F) :
  build self input_shapes = Ok vars -> wf_vars self vars.
Proof.
  intros H. apply build_Ok in H.
  destruct H as (d & _ & Hh & Hd & ->). unfold wf_vars. simpl.
  repeat split; auto using repeat_length.
  apply Forall_forall. intros row Hrow.
  apply repeat_spec in Hrow. subst row. apply repeat_length.
Qed.

Lemma nth_map_seq {A} (f : nat -> A) (n i : nat) (d : A) :
  i < n -> nth i (map f (seq 0 n)) d = f i.
Proof.
  intros Hi.
  rewrite nth_indep with (d' := f 0)
    by (rewrite length_map, length_seq; exact Hi).
  rewrite map_nth, seq_nth by exact Hi. reflexivity.
Qed.

Lemma mapM_length {A B} (f : A -> result B) (l : list A) (l' : list B) :
  mapM f l = Ok l' -> length l' = length l.
Proof.
  revert l'. induction l as [| a l IH]; simpl; intros l' H.
  - inversion H. reflexivity.
  - apply rbind_Ok in H. destruct H as (b & _ & H).
    apply rbind_Ok in H. destruct H as (bs & Hbs & H).
    inversion H. simpl. f_equal. apply IH. exact Hbs.
Qed.

Lemma distances_length (x_flat e : list (list F)) :
  length (distances x_flat e) = length x_flat.
Proof.
  unfold distances, square_norms, matmul_tb.
  rewrite map2_length, !length_map. apply Nat.min_id.
Qed.

Lemma nearest_length (x_flat e : list (list F)) (c : list nat) :
  nearest x_flat e = Ok c -> length c = length x_flat.
Proof.
  unfold nearest. destruct (length e =? 0); [discriminate |].
  intros H. apply mapM_length in H.
  rewrite H. apply distances_length.
Qed.

End Invariants.

(** ** Batch statistics in exact arithmetic *)

Section BatchStatistics.

Local Open Scope Qc_scope.

Lemma Qc_of_nat_nonneg (n : nat) : 0 <= Qc_of_nat n.
Proof.
  induction n as [| n IH].
  - rewrite Qc_of_nat_0. apply Qcle_refl.
  - rewrite Qc_of_nat_S. replace 0 with (0 + 0) by ring.
    apply Qcplus_le_compat; [| exact IH]. discriminate.
Qed.

Lemma one_hot_counts (n : nat) (c : list nat) :
  reduce_sum_axis0 n (one_hot c n) = assigned_counts n c.
Proof.
  unfold reduce_sum_axis0, assigned_counts. apply map_ext_in.
  intros i Hi. apply in_seq in Hi.
  induction c as [| ci c IH].
  - symmetry. apply Qc_of_nat_0.
  - cbn [one_hot map reduce_sum fold_right count_occ].
    rewrite nth_map_seq by lia.
    unfold reduce_sum, one_hot in IH. rewrite IH.
    destruct (Nat.eq_dec ci i) as [E | NE].
    + subst ci. rewrite Nat.eqb_refl, Qc_of_nat_S. reflexivity.
    + destruct (Nat.eqb_spec i ci) as [E | _]; [congruence |].
      cbn. ring.
Qed.

Lemma one_hot_sums (n w : nat) (c : list nat) (x_flat : list (list Qc)) :
  matmul_ta n w (one_hot c n) x_flat = assigned_sums n w c x_flat.
Proof.
  unfold matmul_ta, assigned_sums. apply map_ext_in.
  intros i Hi. apply in_seq in Hi. apply map_ext.
  intros j. unfold assigned_rows. revert x_flat.
  induction c as [| ci c IH]; intros [| row x_flat]; try reflexivity.
  cbn [one_hot map map2 reduce_sum fold_right combine filter fst snd].
  rewrite nth_map_seq by lia.
  unfold reduce_sum, one_hot in IH. rewrite IH.
  rewrite Nat.eqb_sym.
  destruct (ci =? i)%nat; cbn; ring.
Qed.

Lemma assign_sub_is_ema (g : Qc) (old batch : list Qc) :
  map2 sub old (map (mul (sub one g)) (map2 sub old batch))
  = map2 (ema g) old batch.
Proof.
  rewrite map2_map_r, map2_self_l. apply map2_ext.
  intros a b. apply ema_assign_sub.
Qed.

Lemma assign_sub_rows_is_ema (g : Qc) (old batch : list (list Qc)) :
  map2 (map2 sub) old
       (map (map (mul (sub one g))) (map2 (map2 sub) old batch))
  = map2 (map2 (ema g)) old batch.
Proof.
  rewrite map2_map_r, map2_self_l. apply map2_ext.
  intros a b. apply assign_sub_is_ema.
Qed.

End BatchStatistics.

Lemma demo_vars_wf : wf_vars demo_config demo_vars.
Proof.
  unfold wf_vars. simpl. repeat split; try lia.
  repeat constructor.
Qed.

(** ** Splitting into blocks and regrouping by columns *)

Section BlocksAndColumns.

Context {A : Type}.

Lemma In_firstn (n : nat) (l : list A) (a : A) :
  In a (firstn n l) -> In a l.
Proof.
  intros H. rewrite <- (firstn_skipn n l). apply in_or_app. left. exact H.
Qed.

Lemma In_skipn (n : nat) (l : list A) (a : A) :
  In a (skipn n l) -> In a l.
Proof.
  intros H. rewrite <- (firstn_skipn n l). apply in_or_app. right. exact H.
Qed.

Lemma blocks_length (count size : nat) (l : list A) :
  length (blocks count size l) = count.
Proof. unfold blocks. rewrite length_map, length_seq. reflexivity. Qed.

Lemma blocks_S (count size : nat) (l : list A) :
  blocks (S count) size l
  = firstn size l :: blocks count size (skipn size l).
Proof.
  unfold blocks. simpl. f_equal.
  rewrite <- seq_shift, map_map. apply map_ext.
  intros i. rewrite skipn_skipn. do 2 f_equal. simpl. lia.
Qed.

Lemma blocks_concat (size : nat) (rows : list (list A)) :
  Forall (fun r => length r = size) rows ->
  blocks (length rows) size (concat rows) = rows.
Proof.
  induction 1 as [| r rows Hr _ IH]; [reflexivity |].
  simpl. rewrite blocks_S. subst size.
  rewrite firstn_app, firstn_all, Nat.sub_diag. simpl.
  rewrite app_nil_r. f_equal.
  rewrite skipn_app, skipn_all, Nat.sub_diag. simpl. exact IH.
Qed.

Lemma blocks_widths (count size : nat) (l : list A) :
  count * size <= length l ->
  Forall (fun b => length b = size) (blocks count size l).
Proof.
  revert l. induction count as [| count IH]; intros l Hl.
  - constructor.
  - rewrite blocks_S. simpl in Hl. constructor.
    + rewrite length_firstn. lia.
    + apply IH. rewrite length_skipn. lia.
Qed.

Lemma blocks_In (count size : nat) (l b : list A) (a : A) :
  In b (blocks count size l) -> In a b -> In a l.
Proof.
  unfold blocks. intros Hb Ha. apply in_map_iff in Hb.
  destruct Hb as (i & <- & _).
  apply In_firstn, In_skipn in Ha. exact Ha.
Qed.

Lemma columns_length (n : nat) (gs : list (list A)) :
  length (columns n gs) = n.
Proof. unfold columns. rewrite length_map, length_seq. reflexivity. Qed.

Lemma columns_S (n : nat) (gs : list (list A)) :
  columns (S n) gs
  = flat_map (firstn 1) gs :: columns n (map (skipn 1) gs).
Proof.
  unfold columns. simpl. f_equal.
  rewrite <- seq_shift, map_map. apply map_ext.
  intros i. rewrite !flat_map_concat_map, map_map. f_equal.
  apply map_ext. intros g. destruct g; [destruct i |]; reflexivity.
Qed.

Lemma columns_In (n : nat) (gs : list (list A)) (col : list A) (a : A) :
  In col (columns n gs) -> In a col -> exists g, In g gs /\ In a g.
Proof.
  unfold columns. intros Hcol Ha. apply in_map_iff in Hcol.
  destruct Hcol as (i & <- & _). apply in_flat_map in Ha.
  destruct Ha as (g & Hg & Ha). exists g. split; [exact Hg |].
  apply In_firstn, In_skipn in Ha. exact Ha.
Qed.

(** Every column takes one element from every group. *)
Lemma columns_widths (n : nat) (gs : list (list A)) :
  Forall (fun g => n <= length g) gs ->
  Forall (fun col => length col = length gs) (columns n gs).
Proof.
  intros Hgs. unfold columns. apply Forall_map, Forall_forall.
  intros i Hi. apply in_seq in Hi.
  induction Hgs as [| g gs Hg _ IH]; [reflexivity |].
  cbn [flat_map length]. rewrite length_app, IH, length_firstn, length_skipn.
  lia.
Qed.

Lemma columns_single (l : list A) :
  columns (length l) [l] = map (fun a => [a]) l.
Proof.
  induction l as [| a l IH]; [reflexivity |].
  cbn [length]. rewrite columns_S. cbn [map flat_map firstn skipn app].
  f_equal. exact IH.
Qed.

Lemma columns_pair (l1 l2 : list A) :
  length l1 = length l2 ->
  columns (length l1) [l1; l2] = map2 (fun a b => [a; b]) l1 l2.
Proof.
  revert l2. induction l1 as [| a l1 IH]; intros [| b l2] H;
    try discriminate; [reflexivity |].
  cbn [length]. rewrite columns_S. cbn [map map2 flat_map firstn skipn app].
  f_equal. apply IH. simpl in H. lia.
Qed.

Lemma concat_map_concat (l : list (list (list A))) :
  concat (map (@concat A) l) = concat (concat l).
Proof.
  induction l as [| x l IH]; [reflexivity |].
  simpl. rewrite concat_app, IH. reflexivity.
Qed.

Lemma concat_length_uniform (w : nat) (rows : list (list A)) :
  Forall (fun r => length r = w) rows ->
  length (concat rows) = length rows * w.
Proof.
  induction 1 as [| r rows Hr _ IH]; [reflexivity |].
  simpl. rewrite length_app, IH, Hr. reflexivity.
Qed.

End BlocksAndColumns.

Lemma blocks_map {A B} (f : A -> B) (count size : nat) (l : list A) :
  blocks count size (map f l) = map (map f) (blocks count size l).
Proof.
  unfold blocks. rewrite map_map. apply map_ext.
  intros i. rewrite skipn_map, firstn_map. reflexivity.
Qed.

Lemma columns_map {A B} (f : A -> B) (n : nat) (gs : list (list A)) :
  columns n (map (map f) gs) = map (map f) (columns n gs).
Proof.
  unfold columns. rewrite map_map. apply map_ext.
  intros i. rewrite !flat_map_concat_map, concat_map, !map_map. f_equal.
  apply map_ext. intros g. rewrite skipn_map, firstn_map. reflexivity.
Qed.

Lemma group_rows_map {A B} (f : A -> B) (gs : list (list A)) :
  group_rows (map (map f) gs) = group_rows gs.
Proof. destruct gs; simpl; [reflexivity | apply length_map]. Qed.

(** ** The tensor operations, when they succeed *)

Lemma reshape_Ok {A} (s : list nat) (d : list A) (t : Tensor A) :
  reshape s d = Ok t <-> t = mkTensor s d /\ length d = numel s.
Proof.
  unfold reshape. destruct (Nat.eqb_spec (length d) (numel s)); split.
  - intros H. inversion H. auto.
  - intros [-> _]. reflexivity.
  - discriminate.
  - intros [_ H]. contradiction.
Qed.

Lemma split_axis0_Ok {A} (num : nat) (l : list A) (gs : list (list A)) :
  split_axis0 num l = Ok gs <->
  num <> 0 /\ length l mod num = 0 /\ gs = blocks num (length l / num) l.
Proof.
  unfold split_axis0.
  destruct (Nat.eqb_spec num 0);
    [| destruct (Nat.eqb_spec (length l mod num) 0)]; split.
  - discriminate.
  - intros (H & _). contradiction.
  - intros H. inversion H. auto.
  - intros (_ & _ & ->). reflexivity.
  - discriminate.
  - intros (_ & H & _). contradiction.
Qed.

Lemma embedding_lookup_Ok {A} (e : list (list A)) (c : list nat)
    (z : list (list A)) :
  embedding_lookup e c = Ok z <->
  Forall (fun ci => ci < length e) c /\ z = map (fun ci => nth ci e []) c.
Proof.
  unfold embedding_lookup.
  destruct (forallb (fun ci => ci <? length e) c) eqn:E; split.
  - intros H. inversion H. split; [| reflexivity].
    apply Forall_forall. intros ci Hci.
    rewrite forallb_forall in E. apply Nat.ltb_lt, E, Hci.
  - intros [_ ->]. reflexivity.
  - discriminate.
  - intros [H _]. exfalso.
    assert (E' : forallb (fun ci => ci <? length e) c = true).
    { apply forallb_forall. intros ci Hci. apply Nat.ltb_lt.
      rewrite Forall_forall in H. apply H, Hci. }
    congruence.
Qed.

Lemma reshape_rows_Ok {A} (cols : nat) (t : Tensor A)
    (rows : list (list A)) :
  reshape_rows cols t = Ok rows <->
  cols <> 0 /\ length (data t) mod cols = 0 /\
  rows = blocks (length (data t) / cols) cols (data t).
Proof.
  unfold reshape_rows.
  destruct (Nat.eqb_spec cols 0);
    [| destruct (Nat.eqb_spec (length (data t) mod cols) 0)]; split.
  - discriminate.
  - intros (H & _). contradiction.
  - intros H. inversion H. auto.
  - intros (_ & _ & ->). reflexivity.
  - discriminate.
  - intros (_ & H & _). contradiction.
Qed.

Lemma split_axis1_Ok {A} (num width : nat) (m : list (list A))
    (gs : list (list (list A))) :
  split_axis1 num width m = Ok gs <->
  num <> 0 /\ width mod num = 0 /\
  gs = map (fun i =>
              map (fun r => firstn (width / num)
                              (skipn (i * (width / num)) r)) m)
           (seq 0 num).
Proof.
  unfold split_axis1.
  destruct (Nat.eqb_spec num 0);
    [| destruct (Nat.eqb_spec (width mod num) 0)]; split.
  - discriminate.
  - intros (H & _). contradiction.
  - intros H. inversion H. auto.
  - intros (_ & _ & ->). reflexivity.
  - discriminate.
  - intros (_ & H & _). contradiction.
Qed.

Section LookupOfCodes.

Context {F : Type} {SF : Scalar F}.

(** The quantized tensor before the straight-through step is the table
    lookup of the code tensor that the same call returns. *)
Lemma quantized_lookup_of_codes (self : Config F) (x : Tensor F)
    (e : list (list F)) (c : list nat) (zq : Tensor F) (code : Tensor nat) :
  quantized_lookup self x e c = Ok zq ->
  reshape_codes self x c = Ok code ->
  shape zq = shape x /\
  length (data zq) = numel (shape x) /\
  shape code = removelast (shape x) ++ [num_heads self] /\
  Forall (fun ci => ci < length e) (data code) /\
  data zq = concat (map (fun ci => nth ci e []) (data code)).
Proof.
  unfold quantized_lookup, reshape_codes. intros Hz Hc.
  apply rbind_Ok in Hz. destruct Hz as (rows & Hrows & Hz).
  apply rbind_Ok in Hz. destruct Hz as (zs & Hzs & Hz).
  apply rbind_Ok in Hc. destruct Hc as (cs & Hcs & Hc).
  apply embedding_lookup_Ok in Hrows. destruct Hrows as [Hrange ->].
  apply split_axis0_Ok in Hzs. destruct Hzs as (_ & _ & ->).
  apply split_axis0_Ok in Hcs. destruct Hcs as (_ & _ & ->).
  apply reshape_Ok in Hz. destruct Hz as [-> Hzlen].
  apply reshape_Ok in Hc. destruct Hc as [-> Hclen].
  simpl. repeat split; auto.
  - apply Forall_forall. intros ci Hci.
    apply in_concat in Hci. destruct Hci as (col & Hcol & Hci).
    destruct (columns_In _ _ _ _ Hcol Hci) as (g & Hg & Hcg).
    rewrite Forall_forall in Hrange. apply Hrange.
    eapply blocks_In; eassumption.
  - unfold concat_axis1, stack_axis1.
    rewrite length_map, blocks_map, group_rows_map, columns_map.
    rewrite concat_map_concat, concat_map. reflexivity.
Qed.

End LookupOfCodes.

(** ** Inference followed by [unquantize] *)

Section RoundTrip.

Context {F : Type} {SF : Scalar F}.

Lemma resolve_centroids_inference (self : Config F) (rng : Random F)
    (vars : Variables F) (x_flat : list (list F)) :
  resolve_centroids self rng false vars x_flat
  = Ok (centroid_means (sums vars) (counts vars)).
Proof. reflexivity. Qed.

(** For any scalar arithmetic, [unquantize] of the codes of an inference
    call returns the quantized lookup to which the straight-through step of
    that call was applied. *)
Lemma unquantize_codes_of_inference (self : Config F) (rng : Random F)
    (x : Tensor F) (leading : list nat) (vars vars' : Variables F)
    (z : Tensor F) (code : Tensor nat) :
  shape x = leading ++ [depth vars] ->
  call self rng x false vars = Ok ((z, code), vars') ->
  exists zq,
    unquantize code vars' = Ok (zq, vars') /\
    z = straight_through x zq /\
    shape zq = shape x /\
    length (data zq) = numel (shape x).
Proof.
  intros Hshape H. apply call_Ok in H.
  destruct H as (x_flat & e & c & zq & _ & He & _ & Hz & -> & -> & Hcode).
  rewrite resolve_centroids_inference in He. inversion He. subst e. clear He.
  destruct (quantized_lookup_of_codes _ _ _ _ Hz Hcode)
    as (Hs & Hlen & Hcs & Hrange & Hdata).
  exists zq. repeat split; auto.
  apply unquantize_Ok.
  exists (map (fun ci =>
                 nth ci (centroid_means (sums vars) (counts vars)) [])
              (data code)).
  repeat split.
  - apply embedding_lookup_Ok. auto.
  - apply reshape_Ok. rewrite <- Hdata, Hcs, removelast_last.
    rewrite Hshape, removelast_last, <- Hshape, <- Hs.
    destruct zq as [s d]. simpl in *. rewrite Hs. auto.
Qed.

End RoundTrip.

Lemma Qc_exact_straight_through : exact_straight_through Qc.
Proof. intros a b. cbn. ring. Qed.

Lemma straight_through_exact {F : Type} {SF : Scalar F} (x zq : Tensor F) :
  exact_straight_through F ->
  shape zq = shape x ->
  length (data x) = length (data zq) ->
  straight_through x zq = zq.
Proof.
  intros Hexact.
  destruct x as [sx dx], zq as [sz dz]. unfold straight_through. simpl.
  intros -> Hlen. f_equal.
  revert dz Hlen. induction dx as [| a dx IH]; intros [| b dz] Hlen;
    try discriminate; [reflexivity |].
  cbn [map2]. f_equal.
  - apply Hexact.
  - apply IH. simpl in Hlen. lia.
Qed.

(** On dual numbers it returns the values of the quantized tensor and the
    tangents of the input. *)
Lemma straight_through_dual (x zq : Tensor Dual) :
  length (data x) = length (data zq) ->
  map value (data (straight_through x zq)) = map value (data zq) /\
  map tangent (data (straight_through x zq)) = map tangent (data x).
Proof.
  destruct x as [sx dx], zq as [sz dz]. unfold straight_through. simpl.
  revert dz. induction dx as [| a dx IH]; intros [| b dz] Hlen;
    try discriminate; [split; reflexivity |].
  cbn [map2 map]. destruct (IH dz) as [IHv IHt]; [simpl in Hlen; lia |].
  split; f_equal; auto; cbn; ring.
Qed.


(** ** Shapes of the intermediate results *)

Lemma numel_app (s : list nat) (d : nat) : numel (s ++ [d]) = numel s * d.
Proof.
  induction s as [| a s IH]; simpl.
  - lia.
  - rewrite IH. lia.
Qed.

Lemma group_rows_blocks {A} (count size : nat) (l : list A) :
  count <> 0 -> count * size <= length l ->
  group_rows (blocks count size l) = size.
Proof.
  intros Hc Hl. destruct count as [| count]; [contradiction |].
  rewrite blocks_S. simpl. rewrite length_firstn. simpl in Hl. lia.
Qed.

Lemma update_row_length {A} (i : nat) (v : A) (l : list A) :
  length (update_row i v l) = length l.
Proof.
  revert i. induction l as [| a l IH]; intros [| i]; simpl; auto.
Qed.

Lemma update_row_Forall {A} (P : A -> Prop) (i : nat) (v : A) (l : list A) :
  P v -> Forall P l -> Forall P (update_row i v l).
Proof.
  intros Hv Hl. revert i.
  induction Hl as [| a l Ha Hl IH]; intros [| i]; simpl; constructor; auto.
Qed.

Lemma nth_update_row_same {A} (i : nat) (v d : A) (l : list A) :
  i < length l -> nth i (update_row i v l) d = v.
Proof.
  revert i. induction l as [| a l IH]; intros [| i] H; simpl in *;
    try lia; auto.
  apply IH. lia.
Qed.

Lemma nth_update_row_other {A} (i j : nat) (v d : A) (l : list A) :
  i <> j -> nth j (update_row i v l) d = nth j l d.
Proof.
  revert i j. induction l as [| a l IH]; intros [| i] [| j] H; simpl;
    try congruence; auto.
Qed.

Lemma where_rows_length {A} (cond : list bool) (a b : list (list A)) :
  length cond = length a -> length a = length b ->
  length (where_rows cond a b) = length cond.
Proof.
  revert a b. induction cond as [| c cond IH]; intros [| ra a] [| rb b] Ha Hb;
    simpl in *; try discriminate; auto.
Qed.

Lemma where_rows_Forall {A} (P : list A -> Prop) (cond : list bool)
    (a b : list (list A)) :
  Forall P a -> Forall P b -> Forall P (where_rows cond a b).
Proof.
  intros Ha. revert cond b.
  induction Ha as [| ra a Hra _ IH]; intros [| c cond] b Hb; simpl;
    try constructor.
  destruct Hb as [| rb b Hrb Hb]; constructor.
  - destruct c; assumption.
  - apply IH. exact Hb.
Qed.

Lemma nth_where_rows {A} (cond : list bool) (a b : list (list A)) (i : nat) :
  length cond = length a -> length a = length b ->
  nth i (where_rows cond a b) []
  = if nth i cond false then nth i a [] else nth i b [].
Proof.
  revert a b i.
  induction cond as [| c cond IH]; intros [| ra a] [| rb b] [| i] Ha Hb;
    simpl in *; try discriminate; auto.
Qed.

Lemma scatter_rows_length {A} (ius : list (nat * list A))
    (t : list (list A)) :
  length (scatter_rows ius t) = length t.
Proof.
  unfold scatter_rows.
  revert t. induction ius as [| iu ius IH]; intros t; simpl; auto.
  rewrite IH. apply update_row_length.
Qed.

Lemma scatter_rows_Forall {A} (P : list A -> Prop)
    (ius : list (nat * list A)) (t : list (list A)) :
  Forall P t -> Forall (fun iu => P (snd iu)) ius ->
  Forall P (scatter_rows ius t).
Proof.
  unfold scatter_rows. intros Ht Hius. revert t Ht.
  induction Hius as [| iu ius Hiu _ IH]; intros t Ht; simpl; auto.
  apply IH. apply update_row_Forall; assumption.
Qed.

Lemma tensor_scatter_nd_update_Ok {A} (t : list (list A)) (idx : list nat)
    (updates : list (list A)) :
  length idx = length updates ->
  Forall (fun i => i < length t) idx ->
  tensor_scatter_nd_update t idx updates
  = Ok (scatter_rows (combine idx updates) t).
Proof.
  intros Hlen Hidx. unfold tensor_scatter_nd_update.
  rewrite Hlen, Nat.eqb_refl. simpl.
  assert (E : forallb (fun i => i <? length t) idx = true).
  { apply forallb_forall. intros i Hi. apply Nat.ltb_lt.
    rewrite Forall_forall in Hidx. apply Hidx, Hi. }
  rewrite E. reflexivity.
Qed.

Lemma where_true_In (b : list bool) (i : nat) :
  In i (where_true b) <-> i < length b /\ nth i b false = true.
Proof.
  unfold where_true. rewrite filter_In, in_seq. intuition lia.
Qed.

Lemma Forall_combine_snd {A B} (P : B -> Prop) (la : list A) (lb : list B) :
  Forall P lb -> Forall (fun p => P (snd p)) (combine la lb).
Proof.
  intros H. revert la.
  induction H as [| b lb Hb _ IH]; intros [| a la]; simpl; constructor; auto.
Qed.

Lemma Forall_firstn {A} (P : A -> Prop) (n : nat) (l : list A) :
  Forall P l -> Forall P (firstn n l).
Proof.
  intros H. apply Forall_forall. intros a Ha.
  rewrite Forall_forall in H. apply H. eapply In_firstn. exact Ha.
Qed.

Section StageShapes.

Context {F : Type} {SF : Scalar F}.

Lemma flatten_heads_shape (self : Config F) (vars : Variables F)
    (x : Tensor F) (leading : list nat) :
  wf_vars self vars ->
  0 < depth vars ->
  shape x = leading ++ [depth vars] ->
  wf_tensor x ->
  exists x_flat,
    flatten_heads self vars x = Ok x_flat /\
    length x_flat = num_heads self * numel leading /\
    Forall (fun r => length r = depth vars / num_heads self) x_flat.
Proof.
  intros (Hh & Hdiv & _) Hd Hshape Hwf.
  unfold wf_tensor in Hwf. rewrite Hshape, numel_app in Hwf.
  set (d := depth vars) in *. set (h := num_heads self) in *.
  assert (Hdw : d = h * (d / h)) by (apply Nat.Div0.div_exact; exact Hdiv).
  set (rows := blocks (numel leading) d (data x)).
  assert (Hrows : reshape_rows d x = Ok rows).
  { apply reshape_rows_Ok. repeat split.
    - lia.
    - rewrite Hwf. apply Nat.Div0.mod_mul.
    - rewrite Hwf, Nat.div_mul by lia. reflexivity. }
  assert (Hwidth : Forall (fun r => length r = d) rows).
  { apply blocks_widths. lia. }
  eexists. unfold flatten_heads. fold d h. rewrite Hrows. simpl.
  assert (Hsplit : split_axis1 h d rows
                   = Ok (map (fun i =>
                                map (fun r => firstn (d / h)
                                                (skipn (i * (d / h)) r)) rows)
                             (seq 0 h))).
  { apply split_axis1_Ok. auto. }
  rewrite Hsplit. simpl. split; [reflexivity |]. split.
  - rewrite concat_length_uniform with (w := numel leading).
    + rewrite length_map, length_seq. reflexivity.
    + apply Forall_map, Forall_forall. intros i _.
      rewrite length_map. apply blocks_length.
  - apply Forall_concat, Forall_map, Forall_forall.
    intros i Hi. apply in_seq in Hi.
    apply Forall_map. eapply Forall_impl; [| exact Hwidth].
    intros r Hr. simpl in Hr.
    rewrite length_firstn, length_skipn, Hr.
    assert (i * (d / h) + d / h <= d) by nia. lia.
Qed.

Lemma centroid_means_shape (self : Config F) (vars : Variables F) :
  wf_vars self vars ->
  length (centroid_means (sums vars) (counts vars)) = k self /\
  Forall (fun r => length r = depth vars / num_heads self)
         (centroid_means (sums vars) (counts vars)).
Proof.
  intros (_ & _ & Hc & Hs & Hw). unfold centroid_means. split.
  - rewrite map2_length. lia.
  - apply map2_Forall. intros row ci Hrow _. rewrite length_map.
    rewrite Forall_forall in Hw. apply Hw, Hrow.
Qed.

Lemma keep_mask_length (self : Config F) (vars : Variables F) (n : nat) :
  length (keep_mask self vars n) = length (counts vars).
Proof. unfold keep_mask. apply length_map. Qed.

Lemma resolve_centroids_shape (self : Config F) (rng : Random F)
    (training : bool) (vars : Variables F) (x_flat : list (list F)) :
  wf_vars self vars ->
  (training = true -> wf_random rng) ->
  Forall (fun r => length r = depth vars / num_heads self) x_flat ->
  exists e,
    resolve_centroids self rng training vars x_flat = Ok e /\
    length e = k self /\
    Forall (fun r => length r = depth vars / num_heads self) e.
Proof.
  intros Hwf Hrng Hx.
  destruct (centroid_means_shape Hwf) as [Hml Hmw].
  destruct training.
  - destruct (Hrng eq_refl) as [Hu Hperm].
    destruct (Hu (k self) (depth vars / num_heads self)) as [Hul Huw].
    pose proof Hwf as (_ & _ & Hc & _).
    unfold resolve_centroids.
    set (keep := keep_mask self vars (length x_flat)).
    set (restart_idx := where_true (map negb keep)).
    set (n_replace := Nat.min (length restart_idx) (length x_flat)).
    rewrite tensor_scatter_nd_update_Ok.
    + simpl. eexists. split; [reflexivity |]. split.
      * rewrite where_rows_length; unfold keep.
        -- rewrite keep_mask_length. exact Hc.
        -- rewrite keep_mask_length. lia.
        -- rewrite scatter_rows_length. lia.
      * apply where_rows_Forall; [exact Hmw |].
        apply scatter_rows_Forall; [exact Huw |].
        apply Forall_combine_snd
          with (P := fun r => length r = depth vars / num_heads self).
        apply Forall_firstn.
        apply (Permutation_Forall (Permutation_sym (Hperm x_flat))).
        exact Hx.
    + rewrite !length_firstn.
      rewrite (Permutation_length (Hperm x_flat)). unfold n_replace. lia.
    + apply Forall_firstn, Forall_forall. intros i Hi.
      apply where_true_In in Hi. destruct Hi as [Hi _].
      unfold keep in Hi. rewrite length_map, keep_mask_length in Hi. lia.
  - exists (centroid_means (sums vars) (counts vars)). auto.
Qed.

Lemma argmin_from_lt (best : nat) (vbest : F) (i : nat) (l : list F) :
  best < i -> argmin_from best vbest i l < i + length l.
Proof.
  revert best vbest i. induction l as [| v l IH]; intros best vbest i Hb.
  - simpl. lia.
  - simpl. destruct (less v vbest).
    + specialize (IH i v (S i)). lia.
    + specialize (IH best vbest (S i)). lia.
Qed.

Lemma argmin_rows_Ok (n : nat) (rows : list (list F)) :
  0 < n ->
  Forall (fun r => length r = n) rows ->
  exists c,
    mapM argmin rows = Ok c /\ Forall (fun ci => ci < n) c.
Proof.
  intros Hn. induction 1 as [| r rows Hr _ IH].
  - exists []. split; [reflexivity | constructor].
  - destruct IH as (c & Hc & Hlt).
    destruct r as [| v r]; [simpl in Hr; lia |].
    exists (argmin_from 0 v 1 r :: c). split.
    + simpl. rewrite Hc. reflexivity.
    + constructor; [| exact Hlt].
      pose proof (argmin_from_lt v r (best := 0) (i := 1)) as Hlt'.
      simpl in Hr. lia.
Qed.

Lemma distances_widths (x_flat e : list (list F)) :
  Forall (fun r => length r = length e) (distances x_flat e).
Proof.
  unfold distances. apply map2_Forall. intros xx_n xe_n _ Hxe.
  unfold matmul_tb in Hxe. apply in_map_iff in Hxe.
  destruct Hxe as (ra & <- & _).
  unfold square_norms. rewrite map2_length, !length_map. apply Nat.min_id.
Qed.

Lemma nearest_Ok (x_flat e : list (list F)) :
  0 < length e ->
  exists c,
    nearest x_flat e = Ok c /\
    length c = length x_flat /\
    Forall (fun ci => ci < length e) c.
Proof.
  intros He.
  destruct (argmin_rows_Ok He (distances_widths x_flat e)) as (c & Hc & Hlt).
  assert (Hn : nearest x_flat e = Ok c).
  { unfold nearest. destruct (Nat.eqb_spec (length e) 0); [lia | exact Hc]. }
  exists c. split; [exact Hn |]. split; [| exact Hlt].
  apply nearest_length with (e := e). exact Hn.
Qed.

Lemma split_axis0_blocks {A} (h n : nat) (l : list A) :
  h <> 0 -> length l = h * n ->
  split_axis0 h l = Ok (blocks h n l).
Proof.
  intros Hh Hl. apply split_axis0_Ok. repeat split; [exact Hh | |].
  - rewrite Hl, Nat.mul_comm. apply Nat.Div0.mod_mul.
  - rewrite Hl, Nat.mul_comm, Nat.div_mul by exact Hh. reflexivity.
Qed.

(** Regrouping [h] blocks of [n] entries by columns gives [n] groups of [h]
    entries, all taken from the original list. *)
Lemma columns_of_blocks {A} (P : A -> Prop) (h n : nat) (l : list A) :
  h <> 0 -> length l = h * n -> Forall P l ->
  let cols := columns (group_rows (blocks h n l)) (blocks h n l) in
  length cols = n /\
  Forall (fun col => length col = h /\ Forall P col) cols.
Proof.
  intros Hh Hl HP. cbv zeta.
  rewrite group_rows_blocks by lia. split; [apply columns_length |].
  assert (Hb : Forall (fun g => n <= length g) (blocks h n l)).
  { eapply Forall_impl; [| apply blocks_widths; lia].
    intros g Hg. simpl in Hg. lia. }
  pose proof (columns_widths Hb) as Hw. rewrite blocks_length in Hw.
  apply Forall_forall. intros col Hcol. split.
  - rewrite Forall_forall in Hw. apply Hw, Hcol.
  - apply Forall_forall. intros a Ha.
    destruct (columns_In _ _ _ _ Hcol Ha) as (g & Hg & Hag).
    rewrite Forall_forall in HP. apply HP.
    eapply blocks_In; eassumption.
Qed.

Lemma quantized_lookup_Ok (self : Config F) (vars : Variables F)
    (x : Tensor F) (leading : list nat) (e : list (list F)) (c : list nat) :
  wf_vars self vars ->
  shape x = leading ++ [depth vars] ->
  Forall (fun r => length r = depth vars / num_heads self) e ->
  Forall (fun ci => ci < length e) c ->
  length c = num_heads self * numel leading ->
  exists zq, quantized_lookup self x e c = Ok zq.
Proof.
  intros (Hh & Hdiv & _) Hshape He Hc Hlen.
  set (d := depth vars) in *. set (h := num_heads self) in *.
  assert (Hdw : d = h * (d / h)) by (apply Nat.Div0.div_exact; exact Hdiv).
  set (rows := map (fun ci => nth ci e []) c).
  assert (Hrows : embedding_lookup e c = Ok rows).
  { apply embedding_lookup_Ok. auto. }
  assert (Hw : Forall (fun r => length r = d / h) rows).
  { apply Forall_map. eapply Forall_impl; [| exact Hc].
    intros ci Hci. simpl in Hci. rewrite Forall_forall in He.
    apply He, nth_In, Hci. }
  assert (Hrl : length rows = h * numel leading).
  { unfold rows. rewrite length_map. exact Hlen. }
  unfold quantized_lookup. fold h. rewrite Hrows. simpl.
  rewrite split_axis0_blocks with (n := numel leading) by assumption. simpl.
  destruct (@columns_of_blocks _ (fun r => length r = d / h) h
              (numel leading) rows Hh Hrl Hw) as [Hcl Hcw].
  eexists. apply reshape_Ok. split; [reflexivity |].
  unfold concat_axis1.
  rewrite concat_length_uniform with (w := d).
  - rewrite length_map, Hcl, Hshape, numel_app. reflexivity.
  - apply Forall_map. eapply Forall_impl; [| exact Hcw].
    intros col [Hcol Hrows']. simpl in *.
    rewrite concat_length_uniform with (w := d / h) by exact Hrows'.
    rewrite Hcol. lia.
Qed.

Lemma reshape_codes_Ok (self : Config F) (x : Tensor F)
    (leading : list nat) (d : nat) (c : list nat) :
  num_heads self <> 0 ->
  shape x = leading ++ [d] ->
  length c = num_heads self * numel leading ->
  exists code, reshape_codes self x c = Ok code.
Proof.
  intros Hh Hshape Hlen. unfold reshape_codes.
  rewrite split_axis0_blocks with (n := numel leading) by assumption. simpl.
  destruct (@columns_of_blocks _ (fun _ => True) (num_heads self)
              (numel leading) c Hh Hlen)
    as [Hcl Hcw].
  { apply Forall_forall. auto. }
  eexists. apply reshape_Ok. split; [reflexivity |].
  unfold stack_axis1.
  rewrite concat_length_uniform with (w := num_heads self).
  - rewrite Hcl, Hshape, removelast_last, numel_app. reflexivity.
  - eapply Forall_impl; [| exact Hcw]. intros col [Hcol _]. exact Hcol.
Qed.

Lemma same_widths_Forall2 (a b : list (list F)) :
  Forall2 (fun r r' => length r = length r') a b -> same_widths a b = true.
Proof.
  intros H. unfold same_widths. apply andb_true_intro. split.
  - apply Nat.eqb_eq. eapply Forall2_length. exact H.
  - induction H as [| r r' a b Hr _ IH]; simpl; [reflexivity |].
    rewrite Hr, Nat.eqb_refl. exact IH.
Qed.

Lemma map2_Forall2_l {A B C} (R : A -> C -> Prop) (f : A -> B -> C)
    (la : list A) (lb : list B) :
  length la = length lb ->
  (forall a b, In a la -> In b lb -> R a (f a b)) ->
  Forall2 R la (map2 f la lb).
Proof.
  revert lb. induction la as [| a la IH]; intros [| b lb] Hlen H;
    try discriminate; simpl; constructor.
  - apply H; simpl; auto.
  - apply IH; [simpl in Hlen; lia |].
    intros a' b' Ha Hb. apply H; simpl; auto.
Qed.

Lemma matmul_ta_shape (rows cols : nat) (a b : list (list F)) :
  length (matmul_ta rows cols a b) = rows /\
  Forall (fun r => length r = cols) (matmul_ta rows cols a b).
Proof.
  unfold matmul_ta. split.
  - rewrite length_map, length_seq. reflexivity.
  - apply Forall_map, Forall_forall. intros i _.
    rewrite length_map, length_seq. reflexivity.
Qed.

Lemma update_statistics_succeeds (self : Config F)
    (x_flat : list (list F)) (c : list nat) (vars : Variables F) :
  wf_vars self vars ->
  exists vars',
    update_statistics self x_flat c vars = Ok (tt, vars') /\
    wf_vars self vars'.
Proof.
  intros (Hh & Hdiv & Hc & Hs & Hw).
  set (w := depth vars / num_heads self) in *.
  set (batch_counts := reduce_sum_axis0 (k self) (one_hot c (k self))).
  set (batch_sums := matmul_ta (k self) w (one_hot c (k self)) x_flat).
  assert (Hbc : length batch_counts = k self).
  { unfold batch_counts, reduce_sum_axis0.
    rewrite length_map, length_seq. reflexivity. }
  destruct (matmul_ta_shape (k self) w (one_hot c (k self)) x_flat)
    as [Hbl Hbw]. fold batch_sums in Hbl, Hbw.
  unfold update_statistics, mbind, read, assign_sub_counts. fold w.
  fold batch_counts batch_sums.
  rewrite length_map, map2_length, Hc, Hbc, Nat.min_id, Nat.eqb_refl.
  unfold assign_sub_sums. cbn [sums counts depth].
  rewrite same_widths_Forall2.
  - eexists. split; [reflexivity |].
    unfold wf_vars. cbn [sums counts depth]. fold w.
    repeat split; auto.
    + rewrite !map2_length, length_map, map2_length. lia.
    + rewrite !map2_length, length_map, map2_length. lia.
    + apply map2_Forall. intros row delta Hrow Hdelta.
      apply in_map_iff in Hdelta. destruct Hdelta as (d0 & <- & Hd0).
      rewrite map2_length, length_map.
      rewrite Forall_forall in Hw. rewrite (Hw row Hrow).
      assert (Hd0w : Forall (fun r => length r = w)
                            (map2 (map2 sub) (sums vars) batch_sums)).
      { apply map2_Forall. intros s b Hsr Hbr. rewrite map2_length.
        rewrite Forall_forall in Hbw. rewrite (Hw s Hsr), (Hbw b Hbr).
        apply Nat.min_id. }
      rewrite Forall_forall in Hd0w. rewrite (Hd0w d0 Hd0).
      apply Nat.min_id.
  - rewrite map_map2. apply map2_Forall2_l; [lia |].
    intros s b Hsr Hbr. rewrite length_map, map2_length.
    rewrite Forall_forall in Hw, Hbw. rewrite (Hw s Hsr), (Hbw b Hbr).
    symmetry. apply Nat.min_id.
Qed.

(** A call on a well-formed layer and an input of shape [[..., depth]]
    succeeds, whatever the values of the variables are, and leaves the
    variables well formed. *)
Lemma call_succeeds (self : Config F) (rng : Random F) (x : Tensor F)
    (leading : list nat) (training : bool) (vars : Variables F) :
  wf_vars self vars ->
  0 < k self ->
  0 < depth vars ->
  (training = true -> wf_random rng) ->
  shape x = leading ++ [depth vars] ->
  wf_tensor x ->
  exists z code vars',
    call self rng x training vars = Ok ((z, code), vars') /\
    wf_vars self vars'.
Proof.
  intros Hwf Hk Hd Hrng Hshape Hx.
  destruct (@flatten_heads_shape self vars x leading Hwf Hd Hshape Hx)
    as (x_flat & Hflat & Hxl & Hxw).
  destruct (@resolve_centroids_shape self rng training vars x_flat
              Hwf Hrng Hxw)
    as (e & He & Hel & Hew).
  destruct (@nearest_Ok x_flat e) as (c & Hc & Hcl & Hcr); [lia |].
  destruct (@quantized_lookup_Ok self vars x leading e c)
    as (zq & Hzq); auto; [lia |].
  destruct (@reshape_codes_Ok self x leading (depth vars) c)
    as (code & Hcode); auto; [apply Hwf | lia |].
  destruct training.
  - destruct (@update_statistics_succeeds self x_flat c vars Hwf)
      as (vars' & Hu & Hwf').
    exists (straight_through x zq), code, vars'. split; [| exact Hwf'].
    apply call_Ok. exists x_flat, e, c, zq. repeat split; auto.
  - exists (straight_through x zq), code, vars. split; [| exact Hwf].
    apply call_Ok. exists x_flat, e, c, zq. repeat split; auto.
Qed.

End StageShapes.

(** ** Centroids with a zero count *)

Lemma map2_repeat {A B C} (f : A -> B -> C) (a : A) (b : B) (n : nat) :
  map2 f (repeat a n) (repeat b n) = repeat (f a b) n.
Proof. induction n as [| n IH]; simpl; [| rewrite IH]; reflexivity. Qed.

Lemma map_to_repeat {A B} (f : A -> B) (b : B) (l : list A) :
  Forall (fun a => f a = b) l -> map f l = repeat b (length l).
Proof.
  induction 1 as [| a l Ha _ IH]; [reflexivity |].
  simpl. rewrite Ha, IH. reflexivity.
Qed.

Section ZeroCounts.

Local Open Scope Qc_scope.

(** A centroid whose count is zero is the zero vector, whatever its sum. *)
Lemma zero_count_centroid (self : Config Qc) (vars : Variables Qc)
    (ci : nat) :
  wf_vars self vars ->
  (ci < k self)%nat ->
  nth ci (counts vars) 0 = 0 ->
  nth ci (centroid_means (sums vars) (counts vars)) []
  = repeat 0 (depth vars / num_heads self).
Proof.
  intros (_ & _ & Hc & Hs & Hw) Hci Hzero. unfold centroid_means.
  rewrite nth_map2 with (da := []) (db := 0) by lia.
  rewrite Hzero.
  assert (Hrow : length (nth ci (sums vars) [])
                 = (depth vars / num_heads self)%nat).
  { rewrite Forall_forall in Hw. apply Hw, nth_In. lia. }
  rewrite <- Hrow. apply map_to_repeat.
  apply Forall_forall. intros v _. apply Qc_divide_by_zero.
Qed.

(** [unquantize] on in-range codes succeeds, and on codes whose counts are
    zero it returns zeros. *)
Lemma unquantize_succeeds (self : Config Qc) (vars : Variables Qc)
    (code : Tensor nat) (leading : list nat) :
  wf_vars self vars ->
  shape code = leading ++ [num_heads self] ->
  wf_tensor code ->
  Forall (fun ci => ci < k self)%nat (data code) ->
  exists z,
    unquantize code vars = Ok (z, vars) /\
    shape z = leading ++ [depth vars] /\
    data z = concat (map (fun ci =>
                            nth ci (centroid_means (sums vars) (counts vars))
                                []) (data code)) /\
    length (data z) = (numel leading * depth vars)%nat.
Proof.
  intros Hwf Hshape Hcode Hrange.
  destruct (centroid_means_shape Hwf) as [Hml Hmw].
  pose proof Hwf as (Hh & Hdiv & _).
  set (e := centroid_means (sums vars) (counts vars)) in *.
  assert (Hlen : length (concat (map (fun ci => nth ci e []) (data code)))
                 = (numel leading * depth vars)%nat).
  { rewrite concat_length_uniform
      with (w := (depth vars / num_heads self)%nat).
    - rewrite length_map. unfold wf_tensor in Hcode.
      rewrite Hcode, Hshape, numel_app.
      apply Nat.Div0.div_exact in Hdiv. rewrite Hdiv at 2. lia.
    - apply Forall_map. eapply Forall_impl; [| exact Hrange].
      intros ci Hci. simpl in Hci. rewrite Forall_forall in Hmw.
      apply Hmw, nth_In. lia. }
  eexists. split; [| split; [| split]].
  - apply unquantize_Ok. eexists. split; [| split; [| reflexivity]].
    + apply embedding_lookup_Ok. split; [| reflexivity].
      fold e. rewrite Hml. exact Hrange.
    + apply reshape_Ok. split; [reflexivity |].
      rewrite Hshape, removelast_last, numel_app. exact Hlen.
  - simpl. rewrite Hshape, removelast_last. reflexivity.
  - reflexivity.
  - exact Hlen.
Qed.

Lemma unquantize_zero_counts (self : Config Qc) (vars : Variables Qc)
    (code : Tensor nat) (leading : list nat) :
  wf_vars self vars ->
  shape code = leading ++ [num_heads self] ->
  wf_tensor code ->
  Forall (fun ci => (ci < k self)%nat /\ nth ci (counts vars) 0 = 0)
         (data code) ->
  unquantize code vars
  = Ok (mkTensor (leading ++ [depth vars])
                 (repeat 0 (numel leading * depth vars)),
        vars).
Proof.
  intros Hwf Hshape Hcode Hzero.
  destruct (@unquantize_succeeds self vars code leading Hwf Hshape Hcode)
    as (z & Hz & Hs & Hd & Hl).
  { eapply Forall_impl; [| exact Hzero]. intros ci [Hci _]. exact Hci. }
  rewrite Hz. do 2 f_equal. destruct z as [s d]. simpl in *. subst s.
  f_equal. rewrite <- Hl. apply Forall_eq_repeat.
  rewrite Hd. apply Forall_concat, Forall_map.
  eapply Forall_impl; [| exact Hzero]. intros ci [Hci Hcz]. simpl.
  rewrite (@zero_count_centroid self vars ci Hwf Hci Hcz).
  apply Forall_forall. intros v Hv. apply repeat_spec in Hv. auto.
Qed.

End ZeroCounts.

(** ** A freshly built layer *)

Section FreshLayer.

Local Open Scope Qc_scope.

Lemma argmin_from_constant (best i : nat) (v : Qc) (n : nat) :
  argmin_from best v i (repeat v n) = best.
Proof.
  revert i. induction n as [| n IH]; intros i; [reflexivity |].
  cbn [repeat argmin_from].
  change (less v v) with (Qc_less v v). rewrite Qc_less_irrefl. apply IH.
Qed.

Lemma argmin_constant_rows (n : nat) (rows : list (list Qc)) :
  (0 < n)%nat ->
  Forall (fun row => exists v, row = repeat v n) rows ->
  mapM argmin rows = Ok (repeat 0%nat (length rows)).
Proof.
  intros Hn. induction 1 as [| row rows (v & ->) _ IH]; [reflexivity |].
  destruct n as [| n]; [lia |].
  cbn [mapM repeat argmin length]. rewrite argmin_from_constant, IH.
  reflexivity.
Qed.

(** When all centroids are the same vector, every row is assigned code 0. *)
Lemma nearest_equal_centroids (x_flat : list (list Qc)) (r : list Qc)
    (n : nat) :
  (0 < n)%nat ->
  nearest x_flat (repeat r n) = Ok (repeat 0%nat (length x_flat)).
Proof.
  intros Hn. unfold nearest. rewrite repeat_length.
  destruct (Nat.eqb_spec n 0); [lia |].
  rewrite <- (distances_length x_flat (repeat r n)).
  apply argmin_constant_rows with (n := n); [exact Hn |].
  unfold distances. apply map2_Forall. intros xx_n xe_n _ Hxe.
  unfold matmul_tb in Hxe. apply in_map_iff in Hxe.
  destruct Hxe as (ra & <- & _).
  unfold square_norms. rewrite !map_repeat, map2_repeat.
  eexists. reflexivity.
Qed.

Lemma fresh_centroids (n w : nat) :
  centroid_means (repeat (repeat 0 w) n) (repeat 0 n)
  = repeat (repeat 0 w) n.
Proof.
  unfold centroid_means. rewrite map2_repeat, map_repeat. reflexivity.
Qed.

Lemma fresh_call_zero (self : Config Qc) (rng : Random Qc) (x : Tensor Qc)
    (leading input_shapes : list nat) (vars : Variables Qc) :
  (0 < k self)%nat ->
  build self input_shapes = Ok vars ->
  (0 < depth vars)%nat ->
  shape x = leading ++ [depth vars] ->
  wf_tensor x ->
  call self rng x false vars
  = Ok ((mkTensor (shape x) (repeat 0 (numel (shape x))),
         mkTensor (leading ++ [num_heads self])
                  (repeat 0%nat (numel leading * num_heads self))),
        vars).
Proof.
  intros Hk Hbuild Hd Hshape Hx.
  pose proof (build_wf _ _ Hbuild) as Hwf.
  destruct (@call_succeeds _ _ self rng x leading false vars Hwf Hk Hd)
    as (z & code & vars' & Hcall & _); auto; [discriminate |].
  rewrite Hcall. apply call_Ok in Hcall.
  destruct Hcall as (x_flat & e & c & zq & _ & He & Hc & Hz & -> & -> & Hcode).
  rewrite resolve_centroids_inference in He. inversion He. subst e. clear He.
  destruct (quantized_lookup_of_codes _ _ _ _ Hz Hcode)
    as (Hs & Hlen & Hcs & _ & Hdata).
  apply build_Ok in Hbuild. destruct Hbuild as (d & _ & _ & _ & ->).
  simpl in *. rewrite fresh_centroids in *.
  rewrite nearest_equal_centroids in Hc by exact Hk.
  inversion Hc. subst c. clear Hc.
  (* the codes *)
  assert (Hcode0 : Forall (eq 0%nat) (data code)).
  { unfold reshape_codes in Hcode.
    apply rbind_Ok in Hcode. destruct Hcode as (cs & Hcs' & Hcode).
    apply split_axis0_Ok in Hcs'. destruct Hcs' as (_ & _ & ->).
    apply reshape_Ok in Hcode. destruct Hcode as [-> _]. simpl.
    apply Forall_forall. intros ci Hci.
    apply in_concat in Hci. destruct Hci as (col & Hcol & Hci).
    destruct (columns_In _ _ _ _ Hcol Hci) as (g & Hg & Hcg).
    pose proof (blocks_In _ _ _ _ _ Hg Hcg) as Hin.
    apply repeat_spec in Hin. auto. }
  assert (Hcodelen : length (data code)
                     = (numel leading * num_heads self)%nat).
  { unfold reshape_codes in Hcode.
    apply rbind_Ok in Hcode. destruct Hcode as (cs & _ & Hcode).
    apply reshape_Ok in Hcode. destruct Hcode as [-> Hl]. simpl.
    rewrite Hl, Hshape, removelast_last, numel_app. reflexivity. }
  (* the quantized values *)
  assert (Hzq0 : Forall (eq 0) (data zq)).
  { rewrite Hdata. apply Forall_concat, Forall_map.
    eapply Forall_impl; [| exact Hcode0]. intros ci <-.
    destruct (k self) as [| n]; [lia |]. simpl.
    apply Forall_forall. intros v Hv. apply repeat_spec in Hv. auto. }
  rewrite straight_through_exact
    by (try exact Qc_exact_straight_through; try exact Hs;
        rewrite Hlen; exact Hx).
  do 3 f_equal.
  - destruct zq as [s dz]. simpl in *. subst s. f_equal.
    rewrite <- Hlen. apply Forall_eq_repeat. exact Hzq0.
  - destruct code as [s dc]. simpl in *. subst s.
    rewrite Hshape, removelast_last. f_equal.
    rewrite <- Hcodelen. apply Forall_eq_repeat. exact Hcode0.
Qed.

End FreshLayer.

(** ** Scattering rows into a table *)

Section Scatter.

Context {A : Type}.

Lemma In_fst_combine {B} (la : list nat) (lb : list B) (i : nat) :
  In i (map fst (combine la lb)) -> In i la.
Proof.
  revert lb. induction la as [| a la IH]; intros [| b lb]; simpl; try tauto.
  intros [H | H]; [left; exact H | right; eapply IH; exact H].
Qed.

Lemma scatter_rows_other (ius : list (nat * list A)) (t : list (list A))
    (i : nat) :
  ~ In i (map fst ius) ->
  nth i (scatter_rows ius t) [] = nth i t [].
Proof.
  unfold scatter_rows.
  revert t. induction ius as [| [i0 u0] ius IH]; intros t Hi; simpl in *.
  - reflexivity.
  - rewrite IH by tauto. apply nth_update_row_other. tauto.
Qed.

Lemma scatter_rows_at (idx : list nat) (updates : list (list A))
    (t : list (list A)) (j : nat) :
  NoDup idx ->
  length idx = length updates ->
  j < length idx ->
  Forall (fun i => i < length t) idx ->
  nth (nth j idx 0) (scatter_rows (combine idx updates) t) []
  = nth j updates [].
Proof.
  revert updates t j.
  induction idx as [| i0 idx IH]; intros [| u0 updates] t j Hnd Hlen Hj Hlt;
    simpl in *; try lia.
  inversion Hnd as [| ? ? Hnotin Hnd']. subst.
  inversion Hlt as [| ? ? Hi0 Hlt']. subst.
  destruct j as [| j].
  - change (nth i0 (scatter_rows (combine idx updates)
                                   (update_row i0 u0 t)) [] = u0).
    rewrite scatter_rows_other.
    + apply nth_update_row_same. exact Hi0.
    + intros Hin. apply In_fst_combine in Hin. contradiction.
  - change (nth (nth j idx 0)
                (scatter_rows (combine idx updates) (update_row i0 u0 t)) []
            = nth j updates []).
    apply IH; auto; try lia.
    eapply Forall_impl; [| exact Hlt']. intros i Hi. simpl in Hi.
    rewrite update_row_length. exact Hi.
Qed.

Lemma NoDup_beyond_firstn (l : list nat) (n j : nat) :
  NoDup l -> n <= j < length l -> ~ In (nth j l 0) (firstn n l).
Proof.
  intros Hnd Hj Hin.
  apply In_nth with (d := 0) in Hin. destruct Hin as (i & Hi & Heq).
  rewrite length_firstn in Hi. rewrite nth_firstn in Heq.
  destruct (Nat.ltb_spec i n); [| lia].
  assert (i = j); [| lia].
  apply (proj1 (NoDup_nth l 0) Hnd); auto; lia.
Qed.

End Scatter.

(** ** The centroids of a training call *)

Section TrainingCentroids.

Context {F : Type} {SF : Scalar F}.

Lemma where_true_negb (keep : list bool) :
  where_true (map negb keep)
  = filter (fun i => negb (nth i keep false)) (seq 0 (length keep)).
Proof.
  unfold where_true. rewrite length_map. apply filter_ext_in.
  intros i Hi. apply in_seq in Hi.
  change false with (negb true) at 1. rewrite map_nth. f_equal.
  apply nth_indep. lia.
Qed.

Lemma NoDup_firstn {A} (n : nat) (l : list A) :
  NoDup l -> NoDup (firstn n l).
Proof.
  intros H. rewrite <- (firstn_skipn n l) in H.
  eapply NoDup_app_remove_r. exact H.
Qed.

Lemma training_centroids (self : Config F) (rng : Random F)
    (vars : Variables F) (x_flat : list (list F)) :
  wf_vars self vars ->
  wf_random rng ->
  let n := length x_flat in
  let keep := keep_mask self vars n in
  let restart_idx :=
    filter (fun i => negb (nth i keep false)) (seq 0 (k self)) in
  let n_replace := Nat.min (length restart_idx) n in
  exists e,
    resolve_centroids self rng true vars x_flat = Ok e /\
    length e = k self /\
    (forall i, i < k self -> nth i keep false = true ->
       nth i e [] = map (fun v => divide_no_nan v (nth i (counts vars) zero))
                        (nth i (sums vars) [])) /\
    (forall j, j < n_replace ->
       nth (nth j restart_idx 0) e [] = nth j (shuffle rng x_flat) []) /\
    (forall j, n_replace <= j < length restart_idx ->
       nth (nth j restart_idx 0) e []
       = nth (nth j restart_idx 0)
             (uniform rng (k self) (depth vars / num_heads self)) []).
Proof.
  intros Hwf [Hu Hperm] n keep restart_idx n_replace.
  pose proof Hwf as (_ & _ & Hc & Hs & _).
  destruct (Hu (k self) (depth vars / num_heads self)) as [Hul _].
  assert (Hkl : length keep = k self).
  { unfold keep. rewrite keep_mask_length. exact Hc. }
  assert (Hidx : where_true (map negb keep) = restart_idx).
  { rewrite where_true_negb, Hkl. reflexivity. }
  assert (Hnd : NoDup restart_idx).
  { apply NoDup_filter, seq_NoDup. }
  assert (Hlt : Forall (fun i => i < k self) restart_idx).
  { apply Forall_forall. intros i Hi. apply filter_In in Hi.
    destruct Hi as [Hi _]. apply in_seq in Hi. lia. }
  assert (Hdead : forall j, j < length restart_idx ->
                    nth (nth j restart_idx 0) keep false = false).
  { intros j Hj.
    assert (Hin : In (nth j restart_idx 0) restart_idx) by (apply nth_In, Hj).
    apply filter_In in Hin. destruct Hin as [_ Hin].
    apply negb_true_iff in Hin. exact Hin. }
  assert (Hsl : length (shuffle rng x_flat) = n).
  { apply Permutation_length, Hperm. }
  unfold resolve_centroids. fold n. fold keep. rewrite Hidx. fold n_replace.
  set (idx := firstn n_replace restart_idx).
  set (upd := firstn n_replace (shuffle rng x_flat)).
  set (means := centroid_means (sums vars) (counts vars)).
  assert (Hil : length idx = n_replace).
  { unfold idx. rewrite length_firstn. unfold n_replace. lia. }
  assert (Hupl : length upd = n_replace).
  { unfold upd. rewrite length_firstn, Hsl. unfold n_replace. lia. }
  assert (Hidx_lt : Forall (fun i => i < length
             (uniform rng (k self) (depth vars / num_heads self))) idx).
  { rewrite Hul. apply Forall_firstn. exact Hlt. }
  rewrite tensor_scatter_nd_update_Ok by (auto; lia).
  cbn [rbind].
  set (e_restart := scatter_rows (combine idx upd) _).
  assert (Hml : length means = k self).
  { unfold means, centroid_means. rewrite map2_length. lia. }
  assert (Hrl : length e_restart = k self).
  { unfold e_restart. rewrite scatter_rows_length. exact Hul. }
  assert (Hnth : forall i,
             nth i (where_rows keep means e_restart) []
             = if nth i keep false then nth i means [] else nth i e_restart []).
  { intros i. apply nth_where_rows; lia. }
  eexists. split; [reflexivity |]. split; [| split; [| split]].
  - rewrite where_rows_length; lia.
  - intros i Hi Hkeep. rewrite Hnth, Hkeep. unfold means, centroid_means.
    rewrite nth_map2 with (da := []) (db := zero) by lia. reflexivity.
  - intros j Hj. rewrite Hnth, Hdead by (unfold n_replace in Hj; lia).
    assert (Hj' : nth j restart_idx 0 = nth j idx 0).
    { unfold idx. rewrite nth_firstn.
      destruct (Nat.ltb_spec j n_replace); [reflexivity | lia]. }
    rewrite Hj'. unfold e_restart.
    rewrite scatter_rows_at; auto; try lia.
    + unfold upd. rewrite nth_firstn.
      destruct (Nat.ltb_spec j n_replace); [reflexivity | lia].
    + apply NoDup_firstn. exact Hnd.
  - intros j Hj. rewrite Hnth, Hdead by lia. unfold e_restart.
    apply scatter_rows_other. intros Hin.
    apply In_fst_combine in Hin.
    apply (NoDup_beyond_firstn Hnd Hj). exact Hin.
Qed.

End TrainingCentroids.

Lemma demo_random_wf : wf_random demo_random.
Proof.
  split.
  - intros rows cols. simpl. split; [apply repeat_length |].
    apply Forall_forall. intros r Hr. apply repeat_spec in Hr.
    subst r. apply repeat_length.
  - intros m. simpl. apply Permutation_sym, Permutation_rev.
Qed.

(** ** Rows are assigned one by one *)

Lemma map2_map_same {A B C D} (h : B -> C -> D) (g1 : A -> B) (g2 : A -> C)
    (l : list A) :
  map2 h (map g1 l) (map g2 l) = map (fun a => h (g1 a) (g2 a)) l.
Proof. induction l as [| a l IH]; simpl; [| rewrite IH]; reflexivity. Qed.

Lemma map2_app {A B C} (f : A -> B -> C) (la la' : list A)
    (lb lb' : list B) :
  length la = length lb ->
  map2 f (la ++ la') (lb ++ lb') = map2 f la lb ++ map2 f la' lb'.
Proof.
  revert lb. induction la as [| a la IH]; intros [| b lb] H;
    try discriminate; [reflexivity |].
  simpl. rewrite IH by (simpl in H; lia). reflexivity.
Qed.

Lemma mapM_app {A B} (f : A -> result B) (l1 l2 : list A) (c : list B) :
  mapM f (l1 ++ l2) = Ok c <->
  exists c1 c2, mapM f l1 = Ok c1 /\ mapM f l2 = Ok c2 /\ c = c1 ++ c2.
Proof.
  revert c. induction l1 as [| a l1 IH]; intros c; simpl.
  - split.
    + intros H. exists [], c. auto.
    + intros (c1 & c2 & H1 & H2 & ->). inversion H1. exact H2.
  - split.
    + intros H. apply rbind_Ok in H. destruct H as (b & Hb & H).
      apply rbind_Ok in H. destruct H as (bs & Hbs & H).
      inversion H. subst c. clear H.
      apply IH in Hbs. destruct Hbs as (c1 & c2 & H1 & H2 & ->).
      exists (b :: c1), c2. rewrite Hb, H1. simpl. auto.
    + intros (c1 & c2 & H1 & H2 & ->).
      apply rbind_Ok in H1. destruct H1 as (b & Hb & H1).
      apply rbind_Ok in H1. destruct H1 as (bs & Hbs & H1).
      inversion H1. subst c1. clear H1.
      rewrite Hb. simpl.
      assert (H : mapM f (l1 ++ l2) = Ok (bs ++ c2)).
      { apply IH. exists bs, c2. auto. }
      rewrite H. reflexivity.
Qed.

Lemma mapM_Forall2 {A B} (f : A -> result B) (l : list A) (c : list B) :
  mapM f l = Ok c -> Forall2 (fun a b => f a = Ok b) l c.
Proof.
  revert c. induction l as [| a l IH]; intros c H; simpl in H.
  - inversion H. constructor.
  - apply rbind_Ok in H. destruct H as (b & Hb & H).
    apply rbind_Ok in H. destruct H as (bs & Hbs & H).
    inversion H. constructor; auto.
Qed.

Section RowWise.

Context {F : Type} {SF : Scalar F}.

Lemma distances_rowwise (x_flat e : list (list F)) :
  distances x_flat e = map (row_distances e) x_flat.
Proof.
  unfold distances, matmul_tb, square_norms. cbv zeta.
  rewrite map2_map_same. reflexivity.
Qed.

Lemma nearest_app (a b e : list (list F)) (c : list nat) :
  nearest (a ++ b) e = Ok c <->
  exists ca cb, nearest a e = Ok ca /\ nearest b e = Ok cb /\ c = ca ++ cb.
Proof.
  unfold nearest. destruct (length e =? 0).
  - split; [discriminate |]. intros (ca & cb & H & _). discriminate.
  - rewrite !distances_rowwise, map_app. apply mapM_app.
Qed.

Lemma nearest_range (x_flat e : list (list F)) (c : list nat) :
  nearest x_flat e = Ok c -> Forall (fun ci => ci < length e) c.
Proof.
  unfold nearest. destruct (length e =? 0); [discriminate |].
  intros H. apply mapM_Forall2 in H.
  pose proof (distances_widths x_flat e) as Hw.
  induction H as [| r ci rows c Hr _ IH]; constructor.
  - inversion Hw as [| ? ? Hlen _]. subst.
    destruct r as [| v r]; [discriminate |].
    simpl in Hr. inversion Hr. subst ci.
    pose proof (argmin_from_lt v r (best := 0) (i := 1)) as Hlt.
    simpl in Hlen. lia.
  - apply IH. inversion Hw. assumption.
Qed.

End RowWise.

(** ** A layer with a single head *)

Lemma split_axis0_one {A} (l : list A) : split_axis0 1 l = Ok [l].
Proof.
  apply split_axis0_Ok.
  split; [discriminate | split; [apply Nat.mod_1_r |]].
  rewrite Nat.div_1_r. unfold blocks. simpl. rewrite firstn_all. reflexivity.
Qed.

Lemma concat_map_singleton {A} (l : list A) :
  concat (map (fun a => [a]) l) = l.
Proof. induction l as [| a l IH]; simpl; [| rewrite IH]; reflexivity. Qed.

Lemma map_concat_singleton {A} (l : list (list A)) :
  map (@concat A) (map (fun a => [a]) l) = l.
Proof.
  induction l as [| a l IH]; simpl; [| rewrite IH, app_nil_r]; reflexivity.
Qed.

Lemma map_firstn_all {A} (w : nat) (rows : list (list A)) :
  Forall (fun r => length r = w) rows ->
  map (fun r => firstn w (skipn 0 r)) rows = rows.
Proof.
  induction 1 as [| r rows Hr _ IH]; [reflexivity |].
  cbn [map]. rewrite IH. f_equal. cbn [skipn]. rewrite <- Hr.
  apply firstn_all.
Qed.

Section SingleHead.

Context {F : Type} {SF : Scalar F}.

Lemma flatten_single_head (self : Config F) (vars : Variables F)
    (rows : list (list F)) (leading : list nat) :
  num_heads self = 1 ->
  0 < depth vars ->
  Forall (fun r => length r = depth vars) rows ->
  flatten_heads self vars
    (mkTensor (leading ++ [depth vars]) (concat rows)) = Ok rows.
Proof.
  intros Hh Hd Hw. unfold flatten_heads. rewrite Hh.
  assert (Hlen : length (concat rows) = length rows * depth vars).
  { apply concat_length_uniform. exact Hw. }
  assert (Hrows : reshape_rows (depth vars)
                    (mkTensor (leading ++ [depth vars]) (concat rows))
                  = Ok rows).
  { apply reshape_rows_Ok. simpl. split; [| split].
    - lia.
    - rewrite Hlen. apply Nat.Div0.mod_mul.
    - rewrite Hlen, Nat.div_mul by lia. symmetry.
      apply blocks_concat. exact Hw. }
  rewrite Hrows. cbn [rbind].
  assert (Hsplit : split_axis1 1 (depth vars) rows = Ok [rows]).
  { apply split_axis1_Ok.
    split; [discriminate | split; [apply Nat.mod_1_r |]].
    rewrite Nat.div_1_r. simpl. rewrite map_firstn_all by exact Hw.
    reflexivity. }
  rewrite Hsplit. cbn [rbind concat]. rewrite app_nil_r. reflexivity.
Qed.

(** An inference call of a single-head layer, in closed form. *)
Lemma call_single_head (self : Config F) (rng : Random F)
    (vars : Variables F) (rows : list (list F)) (leading : list nat)
    (c : list nat) :
  num_heads self = 1 ->
  wf_vars self vars ->
  0 < depth vars ->
  length rows = numel leading ->
  Forall (fun r => length r = depth vars) rows ->
  nearest rows (centroid_means (sums vars) (counts vars)) = Ok c ->
  let x := mkTensor (leading ++ [depth vars]) (concat rows) in
  let e := centroid_means (sums vars) (counts vars) in
  call self rng x false vars
  = Ok ((straight_through x
           (mkTensor (shape x) (concat (map (fun ci => nth ci e []) c))),
         mkTensor (leading ++ [1]) c),
        vars).
Proof.
  intros Hh Hwf Hd Hn Hw Hc. cbv zeta.
  set (e := centroid_means (sums vars) (counts vars)) in *.
  destruct (centroid_means_shape Hwf) as [_ Hew]. fold e in Hew.
  rewrite Hh, Nat.div_1_r in Hew.
  pose proof (nearest_range _ _ Hc) as Hrange.
  pose proof (nearest_length _ _ Hc) as Hcl.
  apply call_Ok.
  exists rows, e, c,
    (mkTensor (leading ++ [depth vars])
              (concat (map (fun ci => nth ci e []) c))).
  split; [apply flatten_single_head; assumption |].
  split; [reflexivity |]. split; [exact Hc |].
  split; [| split; [reflexivity | split; [reflexivity |]]].
  - unfold quantized_lookup. rewrite Hh.
    assert (Hrows : embedding_lookup e c
                    = Ok (map (fun ci => nth ci e []) c)).
    { apply embedding_lookup_Ok. auto. }
    rewrite Hrows. cbn [rbind]. rewrite split_axis0_one. cbn [rbind].
    unfold concat_axis1. cbn [group_rows].
    rewrite columns_single, map_concat_singleton.
    apply reshape_Ok. split; [reflexivity |]. simpl.
    rewrite numel_app.
    rewrite concat_length_uniform with (w := depth vars).
    + rewrite length_map. lia.
    + apply Forall_map. eapply Forall_impl; [| exact Hrange].
      intros ci Hci. simpl in Hci. rewrite Forall_forall in Hew.
      apply Hew, nth_In, Hci.
  - unfold reshape_codes. rewrite Hh, split_axis0_one. cbn [rbind].
    unfold stack_axis1. cbn [group_rows].
    rewrite columns_single, concat_map_singleton. cbn [shape].
    rewrite removelast_last.
    apply reshape_Ok. split; [reflexivity |].
    rewrite numel_app. lia.
Qed.

End SingleHead.

(** ** Slices of the last axis *)

Section Slices.

Context {A B C : Type}.

Lemma blocks_two (n : nat) (a b : list A) :
  length a = n -> length b = n -> blocks 2 n (a ++ b) = [a; b].
Proof.
  intros Ha Hb. rewrite !blocks_S. subst n.
  rewrite firstn_app, firstn_all, Nat.sub_diag, skipn_app, skipn_all,
    Nat.sub_diag. cbn [firstn skipn app]. rewrite app_nil_r.
  rewrite <- Hb, firstn_all. reflexivity.
Qed.

Lemma firstn_map2 (f : A -> B -> C) (n : nat) (la : list A) (lb : list B) :
  firstn n (map2 f la lb) = map2 f (firstn n la) (firstn n lb).
Proof.
  revert la lb. induction n as [| n IH]; intros [| a la] [| b lb]; simpl;
    try reflexivity.
  rewrite IH. reflexivity.
Qed.

Lemma skipn_map2 (f : A -> B -> C) (n : nat) (la : list A) (lb : list B) :
  skipn n (map2 f la lb) = map2 f (skipn n la) (skipn n lb).
Proof.
  revert la lb. induction n as [| n IH]; intros [| a la] [| b lb]; simpl;
    try reflexivity.
  - destruct (skipn n la); reflexivity.
  - apply IH.
Qed.

Lemma slice_row_map2 (f : A -> B -> C) (lo len : nat)
    (la : list A) (lb : list B) :
  slice_row lo len (map2 f la lb)
  = map2 f (slice_row lo len la) (slice_row lo len lb).
Proof. unfold slice_row. rewrite skipn_map2, firstn_map2. reflexivity. Qed.

Lemma blocks_map2 (f : A -> B -> C) (count size : nat)
    (la : list A) (lb : list B) :
  blocks count size (map2 f la lb)
  = map2 (map2 f) (blocks count size la) (blocks count size lb).
Proof.
  unfold blocks. rewrite map2_map_same. apply map_ext.
  intros i. rewrite skipn_map2, firstn_map2. reflexivity.
Qed.

Lemma concat_map2 (f : A -> B -> C) (ra : list (list A))
    (rb : list (list B)) :
  Forall2 (fun a b => length a = length b) ra rb ->
  concat (map2 (map2 f) ra rb) = map2 f (concat ra) (concat rb).
Proof.
  induction 1 as [| a b ra rb Hab _ IH]; [reflexivity |].
  simpl. rewrite IH, map2_app by exact Hab. reflexivity.
Qed.

End Slices.

Lemma Forall2_same_width {A B} (w : nat) (ra : list (list A))
    (rb : list (list B)) :
  length ra = length rb ->
  Forall (fun r => length r = w) ra ->
  Forall (fun r => length r = w) rb ->
  Forall2 (fun a b => length a = length b) ra rb.
Proof.
  revert rb. induction ra as [| a ra IH]; intros [| b rb] Hlen Ha Hb;
    try discriminate; constructor.
  - inversion Ha. inversion Hb. congruence.
  - apply IH; [simpl in Hlen; lia | |].
    + inversion Ha. assumption.
    + inversion Hb. assumption.
Qed.

(** The two halves of rows glued from two tables. *)
Lemma slice_glued_left {A} (w : nat) (za zb : list (list A)) :
  length za = length zb ->
  Forall (fun r => length r = w) za ->
  map (slice_row 0 w) (map2 (fun a b => a ++ b) za zb) = za.
Proof.
  revert zb. induction za as [| a za IH]; intros [| b zb] Hlen Hw;
    try discriminate; [reflexivity |].
  inversion Hw as [| ? ? Ha Hw']. subst.
  cbn [map2 map]. rewrite IH by (auto; simpl in Hlen; lia). f_equal.
  unfold slice_row. cbn [skipn].
  rewrite firstn_app, firstn_all, Nat.sub_diag. cbn [firstn].
  apply app_nil_r.
Qed.

Lemma slice_glued_right {A} (w : nat) (za zb : list (list A)) :
  length za = length zb ->
  Forall (fun r => length r = w) za ->
  Forall (fun r => length r = w) zb ->
  map (slice_row w w) (map2 (fun a b => a ++ b) za zb) = zb.
Proof.
  revert zb. induction za as [| a za IH]; intros [| b zb] Hlen Hwa Hwb;
    try discriminate; [reflexivity |].
  inversion Hwa as [| ? ? Ha Hwa']. inversion Hwb as [| ? ? Hb Hwb']. subst.
  cbn [map2 map]. rewrite IH by (auto; simpl in Hlen; lia). f_equal.
  unfold slice_row.
  rewrite skipn_app, skipn_all, Nat.sub_diag. cbn [skipn app].
  rewrite <- Hb. apply firstn_all.
Qed.

Lemma slice_pairs_left {A} (ca cb : list A) :
  length ca = length cb ->
  concat (map (slice_row 0 1) (map2 (fun a b => [a; b]) ca cb)) = ca.
Proof.
  revert cb. induction ca as [| a ca IH]; intros [| b cb] Hlen;
    try discriminate; [reflexivity |].
  cbn [map2 map concat]. rewrite IH by (simpl in Hlen; lia). reflexivity.
Qed.

Lemma slice_pairs_right {A} (ca cb : list A) :
  length ca = length cb ->
  concat (map (slice_row 1 1) (map2 (fun a b => [a; b]) ca cb)) = cb.
Proof.
  revert cb. induction ca as [| a ca IH]; intros [| b cb] Hlen;
    try discriminate; [reflexivity |].
  cbn [map2 map concat]. rewrite IH by (simpl in Hlen; lia). reflexivity.
Qed.

(** ** A layer with two heads *)

Section TwoHeads.

Context {F : Type} {SF : Scalar F}.

Lemma flatten_two_heads (self : Config F) (vars : Variables F)
    (x : Tensor F) (leading : list nat) (x_flat : list (list F)) :
  num_heads self = 2 ->
  wf_vars self vars ->
  0 < depth vars ->
  shape x = leading ++ [depth vars] ->
  wf_tensor x ->
  flatten_heads self vars x = Ok x_flat ->
  let w := depth vars / 2 in
  let rows := blocks (numel leading) (depth vars) (data x) in
  x_flat = map (slice_row 0 w) rows ++ map (slice_row w w) rows /\
  length rows = numel leading /\
  Forall (fun r => length r = depth vars) rows /\
  depth vars = w + w.
Proof.
  intros Hh (_ & Hdiv & _) Hd Hshape Hx Hflat. cbv zeta.
  rewrite Hh in Hdiv.
  unfold wf_tensor in Hx. rewrite Hshape, numel_app in Hx.
  assert (Hdw : depth vars = 2 * (depth vars / 2))
    by (apply Nat.Div0.div_exact; exact Hdiv).
  unfold flatten_heads in Hflat. rewrite Hh in Hflat.
  apply rbind_Ok in Hflat. destruct Hflat as (rows & Hrows & Hflat).
  apply rbind_Ok in Hflat. destruct Hflat as (gs & Hgs & Hflat).
  apply reshape_rows_Ok in Hrows. destruct Hrows as (_ & _ & ->).
  apply split_axis1_Ok in Hgs. destruct Hgs as (_ & _ & ->).
  injection Hflat as <-.
  rewrite Hx, Nat.div_mul by lia.
  split; [| split; [| split]].
  - cbn [seq map concat]. rewrite app_nil_r.
    f_equal; apply map_ext; intros r; unfold slice_row;
      try rewrite Nat.add_0_r; reflexivity.
  - apply blocks_length.
  - apply blocks_widths. lia.
  - lia.
Qed.

(** An inference call of a two-head layer, in closed form. *)
Lemma call_two_heads (self : Config F) (rng : Random F)
    (vars vars' : Variables F) (x : Tensor F) (leading : list nat)
    (z : Tensor F) (code : Tensor nat) :
  num_heads self = 2 ->
  wf_vars self vars ->
  0 < depth vars ->
  shape x = leading ++ [depth vars] ->
  wf_tensor x ->
  call self rng x false vars = Ok ((z, code), vars') ->
  let w := depth vars / 2 in
  let rows := blocks (numel leading) (depth vars) (data x) in
  let e := centroid_means (sums vars) (counts vars) in
  exists ca cb,
    nearest (map (slice_row 0 w) rows) e = Ok ca /\
    nearest (map (slice_row w w) rows) e = Ok cb /\
    z = straight_through x
          (mkTensor (shape x)
             (concat (map2 (fun a b => a ++ b)
                           (map (fun ci => nth ci e []) ca)
                           (map (fun ci => nth ci e []) cb)))) /\
    code = mkTensor (leading ++ [2]) (concat (map2 (fun a b => [a; b]) ca cb))
    /\ vars' = vars.
Proof.
  intros Hh Hwf Hd Hshape Hx Hcall. cbv zeta.
  apply call_Ok in Hcall.
  destruct Hcall as (x_flat & e & c & zq & Hflat & He & Hc & Hz & -> & ->
                     & Hcode).
  rewrite resolve_centroids_inference in He. inversion He. subst e. clear He.
  destruct (@flatten_two_heads self vars x leading x_flat
              Hh Hwf Hd Hshape Hx Hflat) as (-> & Hrl & _ & _).
  set (rows := blocks (numel leading) (depth vars) (data x)) in *.
  set (e := centroid_means (sums vars) (counts vars)) in *.
  apply nearest_app in Hc. destruct Hc as (ca & cb & Hca & Hcb & ->).
  pose proof (nearest_length _ _ Hca) as Hcal.
  pose proof (nearest_length _ _ Hcb) as Hcbl.
  rewrite length_map in Hcal, Hcbl.
  exists ca, cb. split; [exact Hca |]. split; [exact Hcb |].
  split; [| split; [| reflexivity]].
  - f_equal. unfold quantized_lookup in Hz. rewrite Hh in Hz.
    apply rbind_Ok in Hz. destruct Hz as (zrows & Hzrows & Hz).
    apply rbind_Ok in Hz. destruct Hz as (zs & Hzs & Hz).
    apply embedding_lookup_Ok in Hzrows. destruct Hzrows as [_ ->].
    apply split_axis0_Ok in Hzs. destruct Hzs as (_ & _ & ->).
    apply reshape_Ok in Hz. destruct Hz as [-> _]. f_equal.
    rewrite length_map, length_app, Hcal, Hcbl, Hrl.
    replace (numel leading + numel leading) with (numel leading * 2) by lia.
    rewrite Nat.div_mul by lia. rewrite map_app.
    rewrite blocks_two by (rewrite length_map; lia).
    unfold concat_axis1. cbn [group_rows].
    rewrite columns_pair by (rewrite !length_map; lia).
    rewrite map_map2. f_equal. apply map2_ext.
    intros a b. simpl. rewrite app_nil_r. reflexivity.
  - unfold reshape_codes in Hcode. rewrite Hh in Hcode.
    apply rbind_Ok in Hcode. destruct Hcode as (cs & Hcs & Hcode).
    apply split_axis0_Ok in Hcs. destruct Hcs as (_ & _ & ->).
    apply reshape_Ok in Hcode. destruct Hcode as [-> _].
    rewrite Hshape, removelast_last. f_equal.
    rewrite length_app, Hcal, Hcbl, Hrl.
    replace (numel leading + numel leading) with (numel leading * 2) by lia.
    rewrite Nat.div_mul by lia.
    rewrite blocks_two by lia.
    unfold stack_axis1. cbn [group_rows].
    rewrite columns_pair by lia. reflexivity.
Qed.

End TwoHeads.

(** ** Slices of the results of a call *)

Lemma slice_row_width {A} (lo len d : nat) (rows : list (list A)) :
  Forall (fun r => length r = d) rows ->
  Forall (fun r => length r = Nat.min len (d - lo))
         (map (slice_row lo len) rows).
Proof.
  intros H. apply Forall_map. eapply Forall_impl; [| exact H].
  intros r Hr. simpl in Hr. unfold slice_row.
  rewrite length_firstn, length_skipn, Hr. reflexivity.
Qed.

Lemma slice_last_straight_through {F : Type} {SF : Scalar F}
    (x : Tensor F) (leading : list nat) (d lo len : nat)
    (zrows : list (list F)) :
  shape x = leading ++ [d] ->
  length (data x) = numel leading * d ->
  length zrows = numel leading ->
  Forall (fun r => length r = d) zrows ->
  slice_last lo len (straight_through x (mkTensor (shape x) (concat zrows)))
  = straight_through (slice_last lo len x)
      (mkTensor (shape (slice_last lo len x))
                (concat (map (slice_row lo len) zrows))).
Proof.
  intros Hshape Hx Hn Hw. unfold slice_last, straight_through.
  cbn [shape data]. rewrite Hshape, removelast_last, last_last. f_equal.
  rewrite blocks_map2. rewrite <- Hn at 2. rewrite blocks_concat by exact Hw.
  set (rows := blocks (numel leading) d (data x)).
  rewrite map_map2.
  rewrite map2_ext
    with (g := fun r z =>
                 map2 (fun xv zv => add xv (stop_gradient (sub zv xv)))
                      (slice_row lo len r) (slice_row lo len z))
    by (intros r z; apply slice_row_map2).
  rewrite <- map2_map_r
    with (f := fun r z =>
                 map2 (fun xv zv => add xv (stop_gradient (sub zv xv)))
                      (slice_row lo len r) z)
         (g := slice_row lo len).
  rewrite <- map2_map_l
    with (f := map2 (fun xv zv => add xv (stop_gradient (sub zv xv))))
         (g := slice_row lo len).
  apply concat_map2.
  apply Forall2_same_width with (w := Nat.min len (d - lo)).
  - rewrite !length_map. unfold rows. rewrite blocks_length. lia.
  - apply slice_row_width. apply blocks_widths. lia.
  - apply slice_row_width. exact Hw.
Qed.

Lemma slice_last_codes (leading : list nat) (ca cb : list nat) :
  length ca = numel leading ->
  length cb = numel leading ->
  let code :=
    mkTensor (leading ++ [2]) (concat (map2 (fun a b => [a; b]) ca cb)) in
  slice_last 0 1 code = mkTensor (leading ++ [1]) ca /\
  slice_last 1 1 code = mkTensor (leading ++ [1]) cb.
Proof.
  intros Ha Hb. cbv zeta. unfold slice_last. cbn [shape data].
  rewrite removelast_last, last_last.
  assert (Hpairs : blocks (numel leading) 2
                     (concat (map2 (fun a b => [a; b]) ca cb))
                   = map2 (fun a b => [a; b]) ca cb).
  { rewrite <- Ha at 1.
    replace (length ca)
      with (length (map2 (fun a b => [a; b]) ca cb))
      by (rewrite map2_length; lia).
    apply blocks_concat. apply map2_Forall. reflexivity. }
  rewrite Hpairs. split; f_equal.
  - apply slice_pairs_left. lia.
  - apply slice_pairs_right. lia.
Qed.

(** ** The nearest centroid in exact arithmetic *)

Lemma Forall2_nth_both {A B} (R : A -> B -> Prop) (la : list A) (lb : list B)
    (n : nat) (da : A) (db : B) :
  Forall2 R la lb -> n < length la -> R (nth n la da) (nth n lb db).
Proof.
  intros H. revert n. induction H as [| a b la lb Hab _ IH]; intros n Hn.
  - simpl in Hn. lia.
  - destruct n as [| n]; simpl; [exact Hab |]. apply IH. simpl in Hn. lia.
Qed.

Section NearestCentroid.

Local Open Scope Qc_scope.

Lemma Qc_of_nat_2 : Qc_of_nat 2 = 1 + 1.
Proof.
  rewrite !Qc_of_nat_S, Qc_of_nat_0. ring.
Qed.

(** The expanded form of the distance is the squared distance itself. *)
Lemma expanded_distance (xr er : list Qc) :
  length xr = length er ->
  reduce_sum (map (fun v => mul v v) xr)
    - Qc_of_nat 2 * reduce_sum (map2 mul xr er)
    + reduce_sum (map (fun v => mul v v) er)
  = sq_dist xr er.
Proof.
  rewrite Qc_of_nat_2. unfold sq_dist, reduce_sum.
  revert er. induction xr as [| u xr IH]; intros [| v er] Hlen;
    simpl in *; try discriminate.
  - ring.
  - rewrite <- (IH er) by lia. ring.
Qed.

Lemma row_distances_sq_dist (w : nat) (e : list (list Qc)) (xr : list Qc) :
  length xr = w ->
  Forall (fun r => length r = w) e ->
  row_distances e xr = map (sq_dist xr) e.
Proof.
  intros Hx He. unfold row_distances, square_norms.
  rewrite map2_map_same. apply map_ext_in. intros er Her.
  rewrite Forall_forall in He. specialize (He er Her).
  simpl. apply expanded_distance. lia.
Qed.

Lemma argmin_from_spec (l pre : list Qc) (best : nat) (vbest : Qc) :
  (best < length pre)%nat ->
  nth best pre 0 = vbest ->
  (forall p, (p < length pre)%nat -> vbest <= nth p pre 0) ->
  (forall p, (p < best)%nat -> vbest < nth p pre 0) ->
  let j := argmin_from best vbest (length pre) l in
  (j < length (pre ++ l))%nat /\
  (forall p, (p < length (pre ++ l))%nat ->
     nth j (pre ++ l) 0 <= nth p (pre ++ l) 0) /\
  (forall p, (p < j)%nat -> nth j (pre ++ l) 0 < nth p (pre ++ l) 0).
Proof.
  revert pre best vbest.
  induction l as [| v l IH]; intros pre best vbest Hb Hv Hle Hlt; cbv zeta.
  - simpl. rewrite app_nil_r. rewrite Hv. auto.
  - cbn [argmin_from].
    replace (pre ++ v :: l) with ((pre ++ [v]) ++ l)
      by (rewrite <- app_assoc; reflexivity).
    replace (S (length pre)) with (length (pre ++ [v]))
      by (rewrite length_app; simpl; lia).
    assert (Hnew : nth (length pre) (pre ++ [v]) 0 = v).
    { rewrite app_nth2 by lia. rewrite Nat.sub_diag. reflexivity. }
    destruct (less v vbest) eqn:Hcmp.
    + apply Qc_less_lt in Hcmp.
      apply IH.
      * rewrite length_app. simpl. lia.
      * exact Hnew.
      * intros p Hp. rewrite length_app in Hp. simpl in Hp.
        destruct (Nat.eq_dec p (length pre)) as [-> | Hne].
        -- rewrite Hnew. apply Qcle_refl.
        -- rewrite app_nth1 by lia.
           apply Qclt_le_weak. eapply Qclt_le_trans; [exact Hcmp |].
           apply Hle. lia.
      * intros p Hp. rewrite app_nth1 by lia.
        eapply Qclt_le_trans; [exact Hcmp |]. apply Hle. exact Hp.
    + assert (Hge : vbest <= v).
      { apply Qcnot_lt_le. intros Hc. apply Qc_less_lt in Hc.
        simpl in Hcmp. congruence. }
      apply IH.
      * rewrite length_app. simpl. lia.
      * rewrite app_nth1 by lia. exact Hv.
      * intros p Hp. rewrite length_app in Hp. simpl in Hp.
        destruct (Nat.eq_dec p (length pre)) as [-> | Hne].
        -- rewrite Hnew. exact Hge.
        -- rewrite app_nth1 by lia. apply Hle. lia.
      * intros p Hp. rewrite app_nth1 by lia. apply Hlt. exact Hp.
Qed.

(** [argmin] returns the first position that holds the least value. *)
Lemma argmin_spec (l : list Qc) (j : nat) :
  argmin l = Ok j ->
  (j < length l)%nat /\
  (forall p, (p < length l)%nat -> nth j l 0 <= nth p l 0) /\
  (forall p, (p < j)%nat -> nth j l 0 < nth p l 0).
Proof.
  destruct l as [| v l]; [discriminate |].
  intros H. inversion H as [Hj]. clear H.
  apply (@argmin_from_spec l [v] 0%nat v).
  - simpl. lia.
  - reflexivity.
  - intros p Hp. simpl in Hp. assert (p = 0)%nat as -> by lia.
    apply Qcle_refl.
  - intros p Hp. lia.
Qed.

End NearestCentroid.

(** The codes of a batch of sub-vectors, one by one. *)
Lemma nearest_spec (w : nat) (x_flat e : list (list Qc)) (c : list nat) :
  Forall (fun r => length r = w) x_flat ->
  Forall (fun r => length r = w) e ->
  nearest x_flat e = Ok c ->
  length c = length x_flat /\
  forall n, n < length x_flat ->
    let xn := nth n x_flat [] in
    let cn := nth n c 0 in
    cn < length e /\
    (forall i, i < length e ->
       (sq_dist xn (nth cn e []) <= sq_dist xn (nth i e []))%Qc) /\
    (forall i, i < cn ->
       (sq_dist xn (nth cn e []) < sq_dist xn (nth i e []))%Qc).
Proof.
  intros Hx He Hn.
  split; [eapply nearest_length; exact Hn |].
  intros n Hlt. cbv zeta.
  unfold nearest in Hn.
  destruct (length e =? 0) eqn:Hk; [discriminate |].
  rewrite distances_rowwise in Hn.
  apply mapM_Forall2 in Hn.
  apply (@Forall2_nth_both _ _ _ _ _ n (row_distances e []) 0) in Hn;
    [| rewrite length_map; exact Hlt].
  rewrite (@nth_map_in_range _ _ (row_distances e) x_flat n [] _ Hlt) in Hn.
  assert (Hxn : length (nth n x_flat []) = w).
  { rewrite Forall_forall in Hx. apply Hx. apply nth_In. exact Hlt. }
  rewrite (@row_distances_sq_dist w e _ Hxn He) in Hn.
  apply argmin_spec in Hn. rewrite length_map in Hn.
  destruct Hn as (Hc & Hmin & Hfirst).
  split; [exact Hc |].
  split.
  - intros i Hi. specialize (Hmin i Hi).
    rewrite (@nth_map_in_range _ _ (sq_dist (nth n x_flat [])) e _ [] 0%Qc Hc)
      in Hmin.
    rewrite (@nth_map_in_range _ _ (sq_dist (nth n x_flat [])) e _ [] 0%Qc Hi)
      in Hmin.
    exact Hmin.
  - intros i Hi. specialize (Hfirst i Hi).
    rewrite (@nth_map_in_range _ _ (sq_dist (nth n x_flat [])) e _ [] 0%Qc Hc)
      in Hfirst.
    rewrite (@nth_map_in_range _ _ (sq_dist (nth n x_flat [])) e i [] 0%Qc)
      in Hfirst by lia.
    exact Hfirst.
Qed.

(** ** The values of dual numbers *)

(** Comparisons of dual numbers look at the values only, so the codes of
    dual sub-vectors are the codes of their values. *)

Lemma value_reduce_sum (l : list Dual) :
  value (reduce_sum l) = reduce_sum (map value l).
Proof.
  unfold reduce_sum. induction l as [| a l IH]; [reflexivity |].
  cbn [fold_right map]. rewrite <- IH. reflexivity.
Qed.

Lemma row_distances_value (e : list (list Dual)) (xr : list Dual) :
  map value (row_distances e xr)
  = row_distances (map (map value) e) (map value xr).
Proof.
  unfold row_distances, square_norms.
  rewrite !map_map, !map2_map_same, map_map.
  apply map_ext. intros er.
  transitivity
    (value (reduce_sum (map (fun v => mul v v) xr))
     - Qc_of_nat 2 * value (reduce_sum (map2 mul xr er))
     + value (reduce_sum (map (fun v => mul v v) er)))%Qc;
    [reflexivity |].
  rewrite !value_reduce_sum, !map_map, map_map2, map2_map_l, map2_map_r.
  reflexivity.
Qed.

Lemma argmin_from_value (l : list Dual) (best i : nat) (vbest : Dual) :
  argmin_from best vbest i l
  = argmin_from best (value vbest) i (map value l).
Proof.
  revert best i vbest. induction l as [| v l IH]; intros best i vbest;
    [reflexivity |].
  cbn [argmin_from map].
  change (less v vbest) with (less (value v) (value vbest)).
  destruct (less (value v) (value vbest)); apply IH.
Qed.

Lemma argmin_value (l : list Dual) : argmin l = argmin (map value l).
Proof.
  destruct l as [| v l]; [reflexivity |].
  cbn [argmin map]. rewrite argmin_from_value. reflexivity.
Qed.

Lemma nearest_value (x_flat e : list (list Dual)) :
  nearest x_flat e = nearest (map (map value) x_flat) (map (map value) e).
Proof.
  unfold nearest. rewrite length_map.
  destruct (length e =? 0); [reflexivity |].
  rewrite !distances_rowwise.
  induction x_flat as [| xr x_flat IH]; [reflexivity |].
  cbn [map mapM].
  rewrite argmin_value, row_distances_value, IH. reflexivity.
Qed.

Lemma demo_dual_vars_wf : wf_vars demo_dual_config demo_dual_vars.
Proof.
  unfold wf_vars. simpl. repeat split; try lia.
  repeat constructor.
Qed.

Lemma demo_dual_random_wf : wf_random demo_dual_random.
Proof.
  split.
  - intros rows cols. simpl. split; [apply repeat_length |].
    apply Forall_forall. intros r Hr. apply repeat_spec in Hr.
    subst r. apply repeat_length.
  - intros m. simpl. apply Permutation_sym, Permutation_rev.
Qed.

(** * Properties of the quantizer *)

(** ** Restarting dead centroids *)

(** C1: in a training call on [n] flattened sub-vectors ([n] is the number
    of input vectors times the number of heads), centroid [i] is kept iff
    [counts[i] * k > restart_threshold * n]; a kept centroid is
    [sums[i] / counts[i]] with the safe division; the dead centroids, in
    increasing index order, take the first rows of the shuffled batch, and
    those beyond the batch size take their row of the uniform draw.  With
    [k = 4], [counts = [10, 0, 0, 10]], threshold [1/10] and two
    sub-vectors, centroids 1 and 2 are dead and take the two shuffled rows,
    centroids 0 and 3 are [sums / counts]. *)
Theorem training_centroids_restart (self : Config Qc) (rng : Random Qc)
    (vars : Variables Qc) (x : Tensor Qc) (leading : list nat) :
  wf_vars self vars ->
  wf_random rng ->
  0 < depth vars ->
  shape x = leading ++ [depth vars] ->
  wf_tensor x ->
  (exists x_flat e,
      flatten_heads self vars x = Ok x_flat /\
      resolve_centroids self rng true vars x_flat = Ok e /\
      length e = k self /\
      let n := length x_flat in
      let keep i :=
        Qc_less (restart_threshold self * Qc_of_nat n)%Qc
                (nth i (counts vars) 0%Qc * Qc_of_nat (k self))%Qc in
      let restart_idx := filter (fun i => negb (keep i)) (seq 0 (k self)) in
      let n_replace := Nat.min (length restart_idx) n in
      n = numel leading * num_heads self /\
      keep_mask self vars n = map keep (seq 0 (k self)) /\
      (forall i, i < k self ->
         (keep i = true <->
          (nth i (counts vars) 0 * Qc_of_nat (k self)
           > restart_threshold self * Qc_of_nat n)%Qc)) /\
      (forall i, i < k self -> keep i = true ->
         nth i e []
         = map (fun s => Qc_divide_no_nan s (nth i (counts vars) 0%Qc))
               (nth i (sums vars) [])) /\
      (forall j, j < n_replace ->
         nth (nth j restart_idx 0) e [] = nth j (shuffle rng x_flat) []) /\
      (forall j, n_replace <= j < length restart_idx ->
         nth (nth j restart_idx 0) e []
         = nth (nth j restart_idx 0)
               (uniform rng (k self) (depth vars / num_heads self)) []))
  /\ (forall (g w : Qc) (h d : nat) (s0 s1 s2 s3 r0 r1 : list Qc),
        let self4 := mkConfig 4 g (Q2Qc (1 # 10)) h w in
        let vars4 :=
          mkVariables d [Q2Qc 10; 0%Qc; 0%Qc; Q2Qc 10] [s0; s1; s2; s3] in
        keep_mask self4 vars4 2 = [true; false; false; true] /\
        exists p0 p1,
          shuffle rng [r0; r1] = [p0; p1] /\
          Permutation [p0; p1] [r0; r1] /\
          resolve_centroids self4 rng true vars4 [r0; r1]
          = Ok [map (fun v => v / Q2Qc 10)%Qc s0; p0; p1;
                map (fun v => v / Q2Qc 10)%Qc s3]).
Proof.
  intros Hwf Hrng Hd Hshape Hx. split.
  - destruct (@flatten_heads_shape _ self vars x leading Hwf Hd Hshape Hx)
      as (x_flat & Hflat & Hxl & _).
    destruct (@training_centroids _ _ self rng vars x_flat Hwf Hrng)
      as (e & He & Hel & Hkeep & Hbatch & Hrand).
    pose proof Hwf as (_ & _ & Hc & _).
    exists x_flat, e.
    split; [exact Hflat |]. split; [exact He |]. split; [exact Hel |].
    cbv zeta.
    assert (Hmask : forall i, i < k self ->
              nth i (keep_mask self vars (length x_flat)) false
              = Qc_less (restart_threshold self * Qc_of_nat (length x_flat))%Qc
                        (nth i (counts vars) 0%Qc * Qc_of_nat (k self))%Qc).
    { intros i Hi. unfold keep_mask.
      rewrite nth_map_in_range with (d := 0%Qc) by lia. reflexivity. }
    assert (Hidx : filter (fun i => negb (nth i (keep_mask self vars
                                                   (length x_flat)) false))
                          (seq 0 (k self))
                   = filter (fun i => negb
                        (Qc_less (restart_threshold self
                                  * Qc_of_nat (length x_flat))%Qc
                                 (nth i (counts vars) 0%Qc
                                  * Qc_of_nat (k self))%Qc))
                        (seq 0 (k self))).
    { apply filter_ext_in. intros i Hi. apply in_seq in Hi.
      rewrite Hmask by lia. reflexivity. }
    cbv zeta in Hbatch, Hrand. rewrite Hidx in Hbatch, Hrand.
    split; [lia |]. split; [| split; [| split; [| split]]].
    + apply nth_ext with (d := false) (d' := false).
      * rewrite keep_mask_length, length_map, length_seq. exact Hc.
      * intros i Hi. rewrite keep_mask_length, Hc in Hi.
        rewrite Hmask by exact Hi. symmetry.
        apply (nth_map_seq (fun i =>
                 Qc_less (restart_threshold self
                          * Qc_of_nat (length x_flat))%Qc
                         (nth i (counts vars) 0%Qc
                          * Qc_of_nat (k self))%Qc)).
        exact Hi.
    + intros i Hi. apply Qc_less_lt.
    + intros i Hi Hk. apply Hkeep; [exact Hi |].
      rewrite Hmask by exact Hi. exact Hk.
    + exact Hbatch.
    + exact Hrand.
  - intros g w h d s0 s1 s2 s3 r0 r1. cbv zeta.
    split; [vm_compute; reflexivity |].
    destruct Hrng as [Hu Hperm].
    pose proof (Hperm [r0; r1]) as Hp.
    pose proof (Permutation_length Hp) as Hpl.
    destruct (Hu 4 (d / h)) as [Hul _].
    unfold resolve_centroids.
    cbn [k depth num_heads counts sums restart_threshold].
    destruct (shuffle rng [r0; r1]) as [| p0 [| p1 [| ? ?]]];
      try discriminate.
    destruct (uniform rng 4 (d / h)) as [| u0 [| u1 [| u2 [| u3 [| ? ?]]]]];
      try discriminate.
    exists p0, p1. split; [reflexivity |]. split; [exact Hp |].
    vm_compute. reflexivity.
Qed.

Lemma training_centroids_restart_witness :
  exists x_flat e,
    flatten_heads demo_config demo_vars demo_x = Ok x_flat /\
    resolve_centroids demo_config demo_random true demo_vars x_flat = Ok e /\
    length e = 3.
Proof.
  destruct (@training_centroids_restart demo_config demo_random demo_vars
              demo_x [2] demo_vars_wf demo_random_wf)
    as [(x_flat & e & Hflat & He & Hl & _) _].
  - simpl. lia.
  - reflexivity.
  - reflexivity.
  - exists x_flat, e. auto.
Defined.

(** ** The moving-average update *)

(** C2: in exact arithmetic a training call replaces [counts] by
    [gamma * counts + (1 - gamma) * batch_counts] and [sums] by
    [gamma * sums + (1 - gamma) * batch_sums], entry by entry, where
    [batch_counts] counts the flattened sub-vectors assigned to each centroid
    and [batch_sums] adds them up; the depth is untouched, so this is all
    that the call changes.  The code computes
    [counts - (1 - gamma) * (counts - batch_counts)], which is that number
    where nothing is rounded. *)
Theorem training_call_applies_ema (self : Config Qc) (rng : Random Qc)
    (x : Tensor Qc) (vars vars' : Variables Qc)
    (z : Tensor Qc) (code : Tensor nat) :
  wf_vars self vars ->
  call self rng x true vars = Ok ((z, code), vars') ->
  exists x_flat e c,
    flatten_heads self vars x = Ok x_flat /\
    resolve_centroids self rng true vars x_flat = Ok e /\
    nearest x_flat e = Ok c /\
    length c = length x_flat /\
    reshape_codes self x c = Ok code /\
    let batch_counts := assigned_counts (k self) c in
    let batch_sums :=
      assigned_sums (k self) (depth vars / num_heads self) c x_flat in
    vars' = mkVariables (depth vars)
              (map2 (ema (gamma self)) (counts vars) batch_counts)
              (map2 (map2 (ema (gamma self))) (sums vars) batch_sums)
    /\ length batch_counts = k self
    /\ length (counts vars') = k self
    /\ length (sums vars') = k self.
Proof.
  intros Hwf H. apply call_Ok in H.
  destruct H as (x_flat & e & c & zq & Hx & He & Hc & _ & _ & Hu & Hcode).
  exists x_flat, e, c.
  apply update_statistics_Ok in Hu. simpl in Hu.
  rewrite assign_sub_is_ema, assign_sub_rows_is_ema in Hu.
  rewrite one_hot_counts, one_hot_sums in Hu.
  destruct Hwf as (_ & _ & Hcounts & Hsums & _).
  split; [exact Hx |]. split; [exact He |]. split; [exact Hc |].
  split; [apply (nearest_length _ _ Hc) |]. split; [exact Hcode |].
  cbv zeta. split; [exact Hu |].
  assert (Hbc : length (assigned_counts (k self) c) = k self).
  { unfold assigned_counts. rewrite length_map, length_seq. reflexivity. }
  split; [exact Hbc |].
  subst vars'. simpl. rewrite !map2_length, Hbc. unfold assigned_sums.
  rewrite length_map, length_seq. lia.
Qed.

Lemma training_call_applies_ema_witness :
  match call demo_config demo_random demo_x true demo_vars with
  | Ok ((z, code), vars') =>
      exists c,
        length c = 4 /\
        counts vars' =
          map2 (ema (gamma demo_config)) (counts demo_vars)
               (assigned_counts 3 c)
  | Raise _ => False
  end.
Proof.
  destruct (call demo_config demo_random demo_x true demo_vars)
    as [[[z code] vars'] | err] eqn:E.
  - destruct (@training_call_applies_ema demo_config demo_random demo_x
                demo_vars vars' z code demo_vars_wf E)
      as (x_flat & e & c & Hx & _ & _ & Hlen & _ & Hv & _).
    exists c. split.
    + rewrite Hlen. vm_compute in Hx. inversion Hx. reflexivity.
    + rewrite Hv. reflexivity.
  - vm_compute in E. discriminate.
Defined.

(** In single precision the equation fails.  With a count of 7, a batch of
    two sub-vectors assigned to the one centroid and the decay next to 0.99,
    the call stores [7 - (1 - gamma) * (7 - 2)], rounded to
    14575206 * 2^-21, while [gamma * 7 + (1 - gamma) * 2] evaluated in single
    precision is 14575207 * 2^-21; the exact value of either expression lies
    half way between the two and is no single-precision number at all. *)
Lemma ema_rounds_in_float32 :
  match @call _ float32_scalar float32_config float32_random
              float32_training_x true float32_training_vars with
  | Ok ((_, code), vars') =>
      let g := gamma float32_config in
      let old := counts float32_training_vars in
      data code = [0; 0] /\
      counts vars' = [S754_finite false 14575206 (-21)] /\
      map2 (float32_ema g) old [float32_of_nat 2]
      = [S754_finite false 14575207 (-21)] /\
      counts vars' <> map2 (float32_ema g) old [float32_of_nat 2] /\
      map float32_value (counts vars')
      <> map2 (ema (float32_value g)) (map float32_value old)
              (assigned_counts 1 (data code))
  | Raise _ => False
  end.
Proof.
  vm_compute. repeat split; discriminate.
Qed.

(** ** The straight-through estimator *)

(** C3: the tensor returned by a call is [x + stop_gradient(zq - x)], where
    [zq] is the lookup [e[code]] of the codes in the shape of [x].  In exact
    arithmetic its values are those of [zq]; its derivative along any
    direction of the input is the derivative of [x] itself.  For an input
    of shape [[..., depth]] the code of every sub-vector is, in exact
    arithmetic, the index of a centroid at the least squared distance from
    it, the lowest such index. *)
Theorem straight_through_identity (self : Config Dual) (rng : Random Dual)
    (x : Tensor Dual) (leading : list nat) (training : bool)
    (vars vars' : Variables Dual) (z : Tensor Dual) (code : Tensor nat) :
  wf_tensor x ->
  call self rng x training vars = Ok ((z, code), vars') ->
  exists x_flat e c,
    flatten_heads self vars x = Ok x_flat /\
    resolve_centroids self rng training vars x_flat = Ok e /\
    nearest x_flat e = Ok c /\
    reshape_codes self x c = Ok code /\
    (let zq :=
       mkTensor (shape x)
                (concat (map (fun ci => nth ci e []) (data code))) in
     z = straight_through x zq /\
     shape z = shape x /\
     map value (data z) = map value (data zq) /\
     map tangent (data z) = map tangent (data x)) /\
    (wf_vars self vars ->
     (training = true -> wf_random rng) ->
     0 < depth vars ->
     shape x = leading ++ [depth vars] ->
     forall n, n < length x_flat ->
       let xn := map value (nth n x_flat []) in
       let centroid := fun i => map value (nth i e []) in
       let cn := nth n c 0 in
       cn < length e /\
       (forall i, i < length e ->
          (sq_dist xn (centroid cn) <= sq_dist xn (centroid i))%Qc) /\
       (forall i, i < cn ->
          (sq_dist xn (centroid cn) < sq_dist xn (centroid i))%Qc)).
Proof.
  intros Hwf H. apply call_Ok in H.
  destruct H as (x_flat & e & c & zq & Hx & He & Hc & Hz & -> & _ & Hcode).
  exists x_flat, e, c.
  split; [exact Hx |]. split; [exact He |]. split; [exact Hc |].
  split; [exact Hcode |].
  split.
  - destruct (quantized_lookup_of_codes _ _ _ _ Hz Hcode)
      as (Hs & Hlen & _ & _ & Hdata).
    cbv zeta.
    replace (mkTensor (shape x)
               (concat (map (fun ci => nth ci e []) (data code))))
      with zq
      by (destruct zq as [s d]; simpl in Hs, Hdata; subst s d; reflexivity).
    split; [reflexivity |]. split; [reflexivity |].
    apply straight_through_dual. rewrite Hlen. exact Hwf.
  - intros Hvars Hrng Hd Hshape n Hn. cbv zeta.
    destruct (@flatten_heads_shape _ self vars x leading Hvars Hd Hshape Hwf)
      as (x_flat' & Hx' & _ & Hxw).
    rewrite Hx in Hx'. inversion Hx'. subst x_flat'. clear Hx'.
    destruct (@resolve_centroids_shape _ _ self rng training vars x_flat
                Hvars Hrng Hxw) as (e' & He' & _ & Hew).
    rewrite He in He'. inversion He'. subst e'. clear He'.
    rewrite nearest_value in Hc.
    assert (Hxw' : Forall (fun r => length r = depth vars / num_heads self)
                          (map (map value) x_flat)).
    { rewrite Forall_map. eapply Forall_impl; [| exact Hxw].
      intros r Hr. rewrite length_map. exact Hr. }
    assert (Hew' : Forall (fun r => length r = depth vars / num_heads self)
                          (map (map value) e)).
    { rewrite Forall_map. eapply Forall_impl; [| exact Hew].
      intros r Hr. rewrite length_map. exact Hr. }
    destruct (@nearest_spec _ _ _ c Hxw' Hew' Hc) as (_ & Hmin).
    rewrite length_map in Hmin. specialize (Hmin n Hn). cbv zeta in Hmin.
    rewrite length_map in Hmin.
    change (@nil Qc) with (map value []) in Hmin.
    rewrite !map_nth in Hmin.
    destruct Hmin as (Hcn & Hle & Hlt).
    split; [exact Hcn |]. split.
    + intros i Hi. specialize (Hle i Hi). rewrite map_nth in Hle. exact Hle.
    + intros i Hi. specialize (Hlt i Hi). rewrite map_nth in Hlt. exact Hlt.
Qed.

Lemma straight_through_identity_witness :
  match call demo_dual_config demo_dual_random demo_dual_x true
             demo_dual_vars with
  | Ok ((z, code), _) =>
      map tangent (data z) = map tangent (data demo_dual_x) /\
      exists x_flat e c,
        nearest x_flat e = Ok c /\
        forall n, n < length x_flat -> nth n c 0 < length e
  | Raise _ => False
  end.
Proof.
  destruct (call demo_dual_config demo_dual_random demo_dual_x true
                 demo_dual_vars)
    as [[[z code] vars'] | err] eqn:E.
  - destruct (@straight_through_identity demo_dual_config demo_dual_random
                demo_dual_x [2] true demo_dual_vars vars' z code)
      as (x_flat & e & c & _ & _ & Hn & _ & (_ & _ & _ & Ht) & Hnear).
    + reflexivity.
    + exact E.
    + split; [exact Ht |]. exists x_flat, e, c. split; [exact Hn |].
      intros n Hlt.
      assert (Hd : 0 < depth demo_dual_vars) by (simpl; lia).
      destruct (Hnear demo_dual_vars_wf (fun _ => demo_dual_random_wf)
                      Hd eq_refl n Hlt) as [Hcn _].
      exact Hcn.
  - vm_compute in E. discriminate.
Defined.

(** In single precision the sum [x + (zq - x)] is rounded twice and need
    not be [zq]: with the centroid 0.1 and the input 0.7 the call returns
    13421776 * 2^-27, three units in the last place above the centroid
    13421773 * 2^-27 that [unquantize] gives for the code. *)
Lemma straight_through_rounds_in_float32 :
  match @call _ float32_scalar float32_config float32_random
              float32_inference_x false float32_inference_vars with
  | Ok ((z, code), vars') =>
      match @unquantize _ float32_scalar code vars' with
      | Ok (zq, _) =>
          data code = [0] /\
          data zq = [S754_finite false 13421773 (-27)] /\
          data z = [S754_finite false 13421776 (-27)] /\
          data z <> data zq
      | Raise _ => False
      end
  | Raise _ => False
  end.
Proof.
  vm_compute. repeat split. discriminate.
Qed.

(** ** Round trip through the codes *)

(** C4: for an input of shape [[..., depth]], [unquantize] applied to the
    codes of an inference call returns the quantized lookup of that call
    (the tensor [zq] to which the straight-through step was applied, heads
    reassembled into the shape of the input), in any arithmetic; where the
    straight-through step is exact, this is the tensor [z] that the call
    returned. *)
Theorem unquantize_inverts_inference {F : Type} {SF : Scalar F}
    (self : Config F) (rng : Random F)
    (x : Tensor F) (leading : list nat) (vars vars' : Variables F)
    (z : Tensor F) (code : Tensor nat) :
  shape x = leading ++ [depth vars] ->
  wf_tensor x ->
  call self rng x false vars = Ok ((z, code), vars') ->
  exists zq,
    z = straight_through x zq /\
    unquantize code vars' = Ok (zq, vars') /\
    shape zq = leading ++ [depth vars] /\
    (exact_straight_through F -> unquantize code vars' = Ok (z, vars')).
Proof.
  intros Hshape Hwf H.
  destruct (@unquantize_codes_of_inference _ _ self rng x leading vars vars'
              z code Hshape H)
    as (zq & Hunq & Hz & Hs & Hlen).
  exists zq. repeat split; auto.
  - congruence.
  - intros Hexact. rewrite Hz, straight_through_exact; auto.
    rewrite Hlen. exact Hwf.
Qed.

Lemma unquantize_inverts_inference_witness :
  match call demo_config demo_random demo_x false demo_vars with
  | Ok ((z, code), vars') => unquantize code vars' = Ok (z, vars')
  | Raise _ => False
  end.
Proof.
  destruct (call demo_config demo_random demo_x false demo_vars)
    as [[[z code] vars'] | err] eqn:E.
  - destruct (@unquantize_inverts_inference _ _ demo_config demo_random
                demo_x [2] demo_vars vars' z code)
      as (zq & _ & _ & _ & Hexact).
    + reflexivity.
    + reflexivity.
    + exact E.
    + apply Hexact. exact Qc_exact_straight_through.
  - vm_compute in E. discriminate.
Defined.

(** ** Independent heads *)

(** C5: with two heads, an inference call on an input of shape
    [[..., depth]] gives, on each half of the feature axis, the quantized
    values and the codes of an inference call of a single-head layer with
    the same [counts] and [sums] on that half of the input. *)
Theorem heads_quantized_independently {F : Type} {SF : Scalar F}
    (self : Config F) (rng : Random F) (vars vars' : Variables F)
    (x : Tensor F) (leading : list nat) (z : Tensor F) (code : Tensor nat) :
  num_heads self = 2 ->
  wf_vars self vars ->
  0 < depth vars ->
  shape x = leading ++ [depth vars] ->
  wf_tensor x ->
  call self rng x false vars = Ok ((z, code), vars') ->
  let w := depth vars / 2 in
  let single :=
    mkConfig (k self) (gamma self) (restart_threshold self) 1
             (commitment_loss_weight self) in
  let half := mkVariables w (counts vars) (sums vars) in
  call single rng (slice_last 0 w x) false half
  = Ok ((slice_last 0 w z, slice_last 0 1 code), half)
  /\ call single rng (slice_last w w x) false half
     = Ok ((slice_last w w z, slice_last 1 1 code), half).
Proof.
  intros Hh Hwf Hd Hshape Hx Hcall. cbv zeta.
  destruct (@call_two_heads _ _ self rng vars vars' x leading z code
              Hh Hwf Hd Hshape Hx Hcall)
    as (ca & cb & Hca & Hcb & -> & -> & ->).
  set (w := depth vars / 2) in *.
  set (rows := blocks (numel leading) (depth vars) (data x)) in *.
  set (e := centroid_means (sums vars) (counts vars)) in *.
  set (single := mkConfig (k self) (gamma self) (restart_threshold self) 1
                          (commitment_loss_weight self)).
  set (half := mkVariables w (counts vars) (sums vars)).
  pose proof Hwf as (_ & Hdiv & Hcl & Hsl & Hsw).
  rewrite Hh in Hdiv, Hsw. fold w in Hsw.
  assert (Hdw : depth vars = w + w).
  { apply Nat.Div0.div_exact in Hdiv. fold w in Hdiv. lia. }
  unfold wf_tensor in Hx. rewrite Hshape, numel_app in Hx.
  assert (Hrl : length rows = numel leading) by apply blocks_length.
  assert (Hrw : Forall (fun r => length r = depth vars) rows).
  { apply blocks_widths. lia. }
  assert (Hwf1 : wf_vars single half).
  { unfold wf_vars. cbn [num_heads depth counts sums k single half].
    rewrite Nat.div_1_r. repeat split; auto; try apply Nat.mod_1_r. }
  assert (Hew : Forall (fun r => length r = w) e).
  { destruct (centroid_means_shape Hwf) as [_ H].
    rewrite Hh in H. exact H. }
  pose proof (nearest_length _ _ Hca) as Hcal.
  pose proof (nearest_length _ _ Hcb) as Hcbl.
  rewrite length_map, Hrl in Hcal, Hcbl.
  assert (Hlook : forall c, Forall (fun ci => ci < length e) c ->
            Forall (fun r => length r = w) (map (fun ci => nth ci e []) c)).
  { intros c Hc. apply Forall_map. eapply Forall_impl; [| exact Hc].
    intros ci Hci. simpl in Hci. rewrite Forall_forall in Hew.
    apply Hew, nth_In, Hci. }
  pose proof (Hlook ca (nearest_range _ _ Hca)) as Hza.
  pose proof (Hlook cb (nearest_range _ _ Hcb)) as Hzb.
  set (za := map (fun ci => nth ci e []) ca) in *.
  set (zb := map (fun ci => nth ci e []) cb) in *.
  assert (Hzl : length za = length zb).
  { unfold za, zb. rewrite !length_map. lia. }
  assert (Hzw : Forall (fun r => length r = depth vars)
                       (map2 (fun a b => a ++ b) za zb)).
  { apply map2_Forall. intros a b Ha Hb. rewrite length_app.
    rewrite Forall_forall in Hza, Hzb. rewrite (Hza a Ha), (Hzb b Hb).
    lia. }
  assert (Hzn : length (map2 (fun a b => a ++ b) za zb) = numel leading).
  { rewrite map2_length. unfold za, zb. rewrite !length_map. lia. }
  destruct (@slice_last_codes leading ca cb Hcal Hcbl) as [Hc0 Hc1].
  rewrite Hc0, Hc1.
  rewrite !(@slice_last_straight_through _ _ x leading (depth vars))
    by assumption.
  rewrite slice_glued_left by assumption.
  rewrite slice_glued_right by assumption.
  assert (Hslice : forall lo,
            slice_last lo w x
            = mkTensor (leading ++ [depth half])
                       (concat (map (slice_row lo w) rows))).
  { intros lo. unfold slice_last.
    rewrite Hshape, removelast_last, last_last. reflexivity. }
  rewrite !Hslice.
  assert (Hwd : 0 < depth half) by (cbn [depth half]; lia).
  split.
  - apply (@call_single_head _ _ single rng half
             (map (slice_row 0 w) rows) leading ca eq_refl Hwf1 Hwd).
    + rewrite length_map. exact Hrl.
    + eapply Forall_impl; [| apply (slice_row_width 0 w Hrw)].
      intros r Hr. simpl in Hr. cbn [depth half]. lia.
    + exact Hca.
  - apply (@call_single_head _ _ single rng half
             (map (slice_row w w) rows) leading cb eq_refl Hwf1 Hwd).
    + rewrite length_map. exact Hrl.
    + eapply Forall_impl; [| apply (slice_row_width w w Hrw)].
      intros r Hr. simpl in Hr. cbn [depth half]. lia.
    + exact Hcb.
Qed.

Lemma heads_quantized_independently_witness :
  match call demo_config demo_random demo_x false demo_vars with
  | Ok ((z, code), _) =>
      call (mkConfig 3 (gamma demo_config) (restart_threshold demo_config) 1
                     (commitment_loss_weight demo_config))
           demo_random (slice_last 2 2 demo_x) false
           (mkVariables 2 (counts demo_vars) (sums demo_vars))
      = Ok ((slice_last 2 2 z, slice_last 1 1 code),
            mkVariables 2 (counts demo_vars) (sums demo_vars))
  | Raise _ => False
  end.
Proof.
  destruct (call demo_config demo_random demo_x false demo_vars)
    as [[[z code] vars'] | err] eqn:E.
  - apply (@heads_quantized_independently _ _ demo_config demo_random
             demo_vars vars' demo_x [2] z code).
    + reflexivity.
    + exact demo_vars_wf.
    + simpl. lia.
    + reflexivity.
    + reflexivity.
    + exact E.
  - vm_compute in E. discriminate.
Defined.

(** ** Safe division *)

(** C6: division by a zero count is zero, in exact arithmetic and in single
    precision, where the result is positive zero even for a numerator that
    is not a number or infinite.  [unquantize] of codes whose counts are
    zero is the all-zero tensor of width [depth], whatever the sums are;
    [unquantize] of any codes below [k] returns a tensor; and a call,
    training or not, on a well-formed layer returns, whatever the counts
    are, so a zero count raises no error. *)
Theorem division_by_zero_count_is_zero (self : Config Qc)
    (vars : Variables Qc) (code : Tensor nat) (code_leading : list nat)
    (rng : Random Qc) (x : Tensor Qc) (leading : list nat) (training : bool) :
  wf_vars self vars ->
  (forall a : Qc, divide_no_nan a zero = zero)
  /\ (forall (a : spec_float) (s : bool),
        float32_divide_no_nan a (S754_zero s) = S754_zero false)
  /\ (shape code = code_leading ++ [num_heads self] ->
      wf_tensor code ->
      Forall (fun ci => ci < k self /\ nth ci (counts vars) zero = zero)
             (data code) ->
      unquantize code vars
      = Ok (mkTensor (code_leading ++ [depth vars])
                     (repeat zero (numel code_leading * depth vars)),
            vars))
  /\ (shape code = code_leading ++ [num_heads self] ->
      wf_tensor code ->
      Forall (fun ci => ci < k self) (data code) ->
      exists z, unquantize code vars = Ok (z, vars))
  /\ (0 < k self ->
      0 < depth vars ->
      (training = true -> wf_random rng) ->
      shape x = leading ++ [depth vars] ->
      wf_tensor x ->
      exists z c vars', call self rng x training vars = Ok ((z, c), vars')).
Proof.
  intros Hwf. split; [| split; [| split; [| split]]].
  - intros a. apply Qc_divide_by_zero.
  - intros a [|]; reflexivity.
  - intros Hshape Hcode Hzero.
    apply (@unquantize_zero_counts self vars code code_leading
             Hwf Hshape Hcode Hzero).
  - intros Hshape Hcode Hrange.
    destruct (@unquantize_succeeds self vars code code_leading
                Hwf Hshape Hcode Hrange) as (z & Hz & _).
    exists z. exact Hz.
  - intros Hk Hd Hrng Hshape Hx.
    destruct (@call_succeeds _ _ self rng x leading training vars
                Hwf Hk Hd Hrng Hshape Hx) as (z & c & vars' & Hcall & _).
    exists z, c, vars'. exact Hcall.
Qed.

Lemma division_by_zero_count_is_zero_witness :
  unquantize (mkTensor [2] [2; 2]) demo_vars
  = Ok (mkTensor [4] (repeat 0%Qc 4), demo_vars).
Proof.
  apply (@division_by_zero_count_is_zero demo_config demo_vars
           (mkTensor [2] [2; 2]) [] demo_random demo_x [2] false
           demo_vars_wf).
  - reflexivity.
  - reflexivity.
  - repeat constructor.
Defined.

(** ** Initialisation *)

(** C7: with a positive number of heads, [build] raises its configuration
    error exactly when the observed depth is not a multiple of the number of
    heads; otherwise it succeeds and creates [counts] of shape [[k]] and
    [sums] of shape [[k, depth / num_heads]], both filled with zeros. *)
Theorem build_checks_divisibility {F : Type} {SF : Scalar F}
    (self : Config F) (leading : list nat) (d : nat) :
  num_heads self <> 0 ->
  (build self (leading ++ [d]) = Raise ValueError
   <-> d mod num_heads self <> 0)
  /\ (d mod num_heads self = 0 ->
      exists vars,
        build self (leading ++ [d]) = Ok vars /\
        depth vars = d /\
        counts vars = repeat zero (k self) /\
        length (counts vars) = k self /\
        sums vars = repeat (repeat zero (d / num_heads self)) (k self) /\
        length (sums vars) = k self /\
        Forall (fun row => length row = d / num_heads self) (sums vars)).
Proof.
  intros Hh. unfold build, last_dim, py_mod.
  rewrite rev_app_distr. simpl.
  destruct (Nat.eqb_spec (num_heads self) 0) as [E | _]; [contradiction |].
  simpl. destruct (Nat.eqb_spec (d mod num_heads self) 0) as [E | NE]; simpl.
  - split.
    + split; [discriminate | intros H; contradiction].
    + intros _. eexists. split; [reflexivity |]. simpl.
      repeat split; try apply repeat_length.
      apply Forall_forall. intros row Hrow.
      apply repeat_spec in Hrow. subst row. apply repeat_length.
  - split.
    + split; auto.
    + intros H. contradiction.
Qed.

Lemma build_checks_divisibility_witness :
  (build demo_config ([3] ++ [5]) = Raise ValueError <-> 5 mod 2 <> 0)
  /\ (build demo_config ([2] ++ [4])
      = Ok (mkVariables 4 (repeat 0%Qc 3) (repeat (repeat 0%Qc 2) 3))).
Proof.
  split.
  - apply (@build_checks_divisibility _ _ demo_config [3] 5).
    simpl. lia.
  - destruct (@build_checks_divisibility _ _ demo_config [2] 4)
      as (_ & Hok).
    + simpl. lia.
    + destruct Hok as (vars & Hb & _); [reflexivity |].
      rewrite Hb. vm_compute in Hb. inversion Hb. reflexivity.
Defined.

(** ** Frame conditions *)

(** C8: an inference call leaves the variables exactly as they were, and so
    does [unquantize], whatever the input. *)
Theorem only_training_mutates {F : Type} {SF : Scalar F}
    (self : Config F) (rng : Random F) (x : Tensor F) (c : Tensor nat)
    (vars : Variables F) :
  match call self rng x false vars with
  | Ok (_, vars') => vars' = vars
  | Raise _ => True
  end
  /\ match unquantize c vars with
     | Ok (_, vars') => vars' = vars
     | Raise _ => True
     end.
Proof.
  split.
  - destruct (call self rng x false vars) as [[[z code] vars'] | e] eqn:H;
      [| exact I].
    apply call_Ok in H.
    destruct H as (x_flat & e & c0 & zq & _ & _ & _ & _ & _ & Hu & _).
    exact Hu.
  - destruct (unquantize c vars) as [[z vars'] | e] eqn:H; [| exact I].
    apply unquantize_Ok in H. destruct H as (rows & _ & _ & Hv). exact Hv.
Qed.

(** ** Non-negative counts *)

(** C9: with [gamma] between zero and one, non-negative counts are an
    invariant: [build] creates zero counts, every call, training or not,
    takes non-negative counts to non-negative counts, and so every state the
    layer reaches by calls and [unquantize] has non-negative counts. *)
Theorem counts_nonnegative (self : Config Qc) :
  (0 <= gamma self)%Qc ->
  (gamma self <= 1)%Qc ->
  (forall input_shapes vars,
      build self input_shapes = Ok vars ->
      Forall (fun c => (0 <= c)%Qc) (counts vars))
  /\ (forall rng x training vars vars' r,
        Forall (fun c => (0 <= c)%Qc) (counts vars) ->
        call self rng x training vars = Ok (r, vars') ->
        Forall (fun c => (0 <= c)%Qc) (counts vars'))
  /\ (forall vars,
        reachable self vars ->
        Forall (fun c => (0 <= c)%Qc) (counts vars)).
Proof.
  intros Hg0 Hg1.
  assert (Hbuild : forall input_shapes vars,
            build self input_shapes = Ok vars ->
            Forall (fun c => (0 <= c)%Qc) (counts vars)).
  { intros input_shapes vars Hb.
    apply build_Ok in Hb. destruct Hb as (d & _ & _ & _ & ->).
    simpl. apply Forall_forall. intros c Hc.
    apply repeat_spec in Hc. subst c. apply Qcle_refl. }
  assert (Hstep : forall rng x training vars vars' r,
            Forall (fun c => (0 <= c)%Qc) (counts vars) ->
            call self rng x training vars = Ok (r, vars') ->
            Forall (fun c => (0 <= c)%Qc) (counts vars')).
  { intros rng x training vars vars' [z code] Hpos Hcall.
    apply call_Ok in Hcall.
    destruct Hcall as (x_flat & e & c & zq & _ & _ & _ & _ & _ & Hu & _).
    destruct training; [| subst vars'; exact Hpos].
    apply update_statistics_Ok in Hu. simpl in Hu.
    rewrite assign_sub_is_ema, one_hot_counts in Hu.
    subst vars'. simpl. apply map2_Forall.
    intros old batch Hold Hbatch.
    apply ema_nonneg; auto.
    - rewrite Forall_forall in Hpos. apply Hpos. exact Hold.
    - unfold assigned_counts in Hbatch. apply in_map_iff in Hbatch.
      destruct Hbatch as (i & <- & _). apply Qc_of_nat_nonneg. }
  split; [exact Hbuild |]. split; [exact Hstep |].
  intros vars Hreach.
  induction Hreach as [input_shapes vars Hb
                      | rng x training vars vars' r _ IH Hcall
                      | c vars vars' z _ IH Hunq].
  - eapply Hbuild. exact Hb.
  - eapply Hstep; [exact IH | exact Hcall].
  - apply unquantize_Ok in Hunq. destruct Hunq as (rows & _ & _ & ->).
    exact IH.
Qed.

Lemma counts_nonnegative_witness :
  match build demo_config [2; 4] with
  | Ok vars =>
      match call demo_config demo_random demo_x true vars with
      | Ok (_, vars') => Forall (fun c => (0 <= c)%Qc) (counts vars')
      | Raise _ => False
      end
  | Raise _ => False
  end.
Proof.
  destruct (build demo_config [2; 4]) as [vars | err] eqn:B;
    [| vm_compute in B; discriminate].
  destruct (call demo_config demo_random demo_x true vars)
    as [[r vars'] | err] eqn:E.
  - destruct (@counts_nonnegative demo_config) as (_ & _ & Hreach).
    + discriminate.
    + discriminate.
    + apply Hreach.
      eapply reach_call; [eapply reach_build; exact B | exact E].
  - vm_compute in B. inversion B. subst vars.
    vm_compute in E. discriminate.
Defined.

(** ** The first inference call *)

(** C10: on a layer that has just been built, with at least one centroid
    and a positive depth, an inference call on an input of shape
    [[..., depth]] returns the all-zero code tensor and the all-zero
    quantized tensor and leaves the variables as built; this also holds for
    the call that builds the layer. *)
Theorem fresh_layer_quantizes_to_zero (self : Config Qc) (rng : Random Qc)
    (x : Tensor Qc) (leading input_shapes : list nat)
    (vars : Variables Qc) :
  0 < k self ->
  build self input_shapes = Ok vars ->
  0 < depth vars ->
  shape x = leading ++ [depth vars] ->
  wf_tensor x ->
  let zeros := mkTensor (shape x) (repeat 0%Qc (numel (shape x))) in
  let codes := mkTensor (leading ++ [num_heads self])
                        (repeat 0 (numel leading * num_heads self)) in
  call self rng x false vars = Ok ((zeros, codes), vars)
  /\ (input_shapes = shape x ->
      layer_call self None rng x false = Ok ((zeros, codes), vars)).
Proof.
  intros Hk Hbuild Hd Hshape Hx. cbv zeta.
  pose proof (@fresh_call_zero self rng x leading input_shapes vars
                Hk Hbuild Hd Hshape Hx) as Hcall.
  split; [exact Hcall |].
  intros ->. unfold layer_call. rewrite Hbuild. simpl. exact Hcall.
Qed.

Lemma fresh_layer_quantizes_to_zero_witness :
  layer_call demo_config None demo_random demo_x false
  = Ok ((mkTensor [2; 4] (repeat 0%Qc 8), mkTensor [2; 2] (repeat 0 4)),
        mkVariables 4 (repeat 0%Qc 3) (repeat (repeat 0%Qc 2) 3)).
Proof.
  apply (@fresh_layer_quantizes_to_zero demo_config demo_random demo_x
           [2] [2; 4] (mkVariables 4 (repeat 0%Qc 3)
                                   (repeat (repeat 0%Qc 2) 3))).
  - simpl. lia.
  - reflexivity.
  - simpl. lia.
  - reflexivity.
  - reflexivity.
  - reflexivity.
Defined.

(** * Further properties of the quantizer *)

Lemma where_rows_length_le {A} (cond : list bool) (a b : list (list A)) :
  length (where_rows cond a b) <= length cond.
Proof.
  revert a b. induction cond as [| c cond IH]; intros [| ra a] [| rb b];
    simpl; try lia.
  specialize (IH a b). lia.
Qed.

Lemma resolve_centroids_length_le {F : Type} {SF : Scalar F}
    (self : Config F) (rng : Random F) (training : bool)
    (vars : Variables F) (x_flat e : list (list F)) :
  resolve_centroids self rng training vars x_flat = Ok e ->
  length e <= length (counts vars).
Proof.
  unfold resolve_centroids. destruct training.
  - intros H. apply rbind_Ok in H. destruct H as (e_restart & _ & H).
    inversion H. subst e. clear H.
    etransitivity; [apply where_rows_length_le |].
    rewrite keep_mask_length. lia.
  - intros H. inversion H. subst e. unfold centroid_means.
    rewrite map2_length. lia.
Qed.

(** ** Codes and shapes *)

(** X1: whatever the mode, a call that returns gives a quantized tensor of
    the shape of its input and one code per head and leading position, and
    every code is an index into the codebook, below [k]. *)
Theorem call_returns_valid_codes {F : Type} {SF : Scalar F}
    (self : Config F) (rng : Random F) (x : Tensor F) (training : bool)
    (vars vars' : Variables F) (z : Tensor F) (code : Tensor nat) :
  wf_vars self vars ->
  wf_tensor x ->
  call self rng x training vars = Ok ((z, code), vars') ->
  shape z = shape x /\
  wf_tensor z /\
  shape code = removelast (shape x) ++ [num_heads self] /\
  wf_tensor code /\
  Forall (fun ci => ci < k self) (data code).
Proof.
  intros Hwf Hx Hcall.
  apply call_Ok in Hcall.
  destruct Hcall as (x_flat & e & c & zq & _ & He & _ & Hz & -> & _ & Hcode).
  pose proof (quantized_lookup_of_codes _ _ _ _ Hz Hcode)
    as (Hsh & Hlen & Hcsh & Hrange & _).
  apply resolve_centroids_length_le in He.
  destruct Hwf as (_ & _ & Hcounts & _).
  split; [reflexivity |].
  split.
  { unfold wf_tensor, straight_through. simpl.
    rewrite map2_length, Hlen. unfold wf_tensor in Hx. lia. }
  split; [exact Hcsh |].
  split.
  { unfold reshape_codes in Hcode. apply rbind_Ok in Hcode.
    destruct Hcode as (c_split & _ & Hr). apply reshape_Ok in Hr.
    destruct Hr as [-> Hl]. exact Hl. }
  eapply Forall_impl; [| exact Hrange].
  simpl. intros ci Hci. lia.
Qed.

Lemma call_returns_valid_codes_witness :
  match call demo_config demo_random demo_x true demo_vars with
  | Ok ((z, code), _) =>
      shape z = [2; 4] /\ Forall (fun ci => ci < 3) (data code)
  | Raise _ => False
  end.
Proof.
  destruct (call demo_config demo_random demo_x true demo_vars)
    as [[[z code] vars'] | err] eqn:E.
  - destruct (@call_returns_valid_codes _ _ demo_config demo_random demo_x
                true demo_vars vars' z code demo_vars_wf eq_refl E)
      as (Hz & _ & _ & _ & Hc).
    split; [exact Hz | exact Hc].
  - vm_compute in E. discriminate.
Defined.

(** ** The nearest centroid *)

(** X2: in exact arithmetic the code a call gives a sub-vector is the index
    of a centroid at the least squared Euclidean distance from it, and among
    the centroids at that distance the one with the lowest index.  The
    centroids are those of the call: the means at inference, the means with
    the dead ones restarted in training. *)
Theorem call_assigns_nearest_centroid (self : Config Qc) (rng : Random Qc)
    (x : Tensor Qc) (leading : list nat) (training : bool)
    (vars vars' : Variables Qc) (z : Tensor Qc) (code : Tensor nat) :
  wf_vars self vars ->
  (training = true -> wf_random rng) ->
  0 < depth vars ->
  shape x = leading ++ [depth vars] ->
  wf_tensor x ->
  call self rng x training vars = Ok ((z, code), vars') ->
  exists x_flat e c,
    flatten_heads self vars x = Ok x_flat /\
    resolve_centroids self rng training vars x_flat = Ok e /\
    nearest x_flat e = Ok c /\
    reshape_codes self x c = Ok code /\
    length c = length x_flat /\
    forall n, n < length x_flat ->
      let xn := nth n x_flat [] in
      let cn := nth n c 0 in
      cn < length e /\
      (forall i, i < length e ->
         (sq_dist xn (nth cn e []) <= sq_dist xn (nth i e []))%Qc) /\
      (forall i, i < cn ->
         (sq_dist xn (nth cn e []) < sq_dist xn (nth i e []))%Qc).
Proof.
  intros Hwf Hrng Hd Hshape Hx Hcall.
  apply call_Ok in Hcall.
  destruct Hcall as (x_flat & e & c & zq & Hf & He & Hn & _ & _ & _ & Hcode).
  exists x_flat, e, c.
  destruct (@flatten_heads_shape _ self vars x leading Hwf Hd Hshape Hx)
    as (x_flat' & Hf' & _ & Hxw).
  rewrite Hf in Hf'. inversion Hf'. subst x_flat'. clear Hf'.
  destruct (@resolve_centroids_shape _ _ self rng training vars x_flat
              Hwf Hrng Hxw) as (e' & He' & _ & Hew).
  rewrite He in He'. inversion He'. subst e'. clear He'.
  destruct (@nearest_spec _ x_flat e c Hxw Hew Hn) as (Hlen & Hmin).
  repeat (split; [assumption |]). exact Hmin.
Qed.

Lemma call_assigns_nearest_centroid_witness :
  match call demo_config demo_random demo_x true demo_vars with
  | Ok ((z, code), _) =>
      exists x_flat e c,
        flatten_heads demo_config demo_vars demo_x = Ok x_flat /\
        resolve_centroids demo_config demo_random true demo_vars x_flat
          = Ok e /\
        nearest x_flat e = Ok c /\
        length c = length x_flat
  | Raise _ => False
  end.
Proof.
  destruct (call demo_config demo_random demo_x true demo_vars)
    as [[[z code] vars'] | err] eqn:E.
  - destruct (@call_assigns_nearest_centroid demo_config demo_random demo_x
                [2] true demo_vars vars' z code demo_vars_wf
                (fun _ => demo_random_wf))
      as (x_flat & e & c & Hf & He & Hn & _ & Hlen & _).
    + simpl. lia.
    + reflexivity.
    + reflexivity.
    + exact E.
    + exists x_flat, e, c. auto.
  - vm_compute in E. discriminate.
Defined.

(** ** The mass of the codebook *)

Lemma reshape_codes_length {F : Type} (self : Config F) (x : Tensor F)
    (c : list nat) (code : Tensor nat) :
  reshape_codes self x c = Ok code -> length (data code) = length c.
Proof.
  unfold reshape_codes. intros H.
  apply rbind_Ok in H. destruct H as (cs & Hcs & Hr).
  apply split_axis0_Ok in Hcs. destruct Hcs as (Hh & Hmod & ->).
  apply reshape_Ok in Hr. destruct Hr as [-> _]. simpl.
  unfold stack_axis1.
  assert (Hlen : length c = num_heads self * (length c / num_heads self)).
  { apply Nat.Div0.div_exact. exact Hmod. }
  destruct (@columns_of_blocks _ (fun _ => True) (num_heads self)
              (length c / num_heads self) c Hh Hlen) as (Hn & Hcols).
  { apply Forall_forall. auto. }
  rewrite (@concat_length_uniform _ (num_heads self)).
  - rewrite Hn. lia.
  - eapply Forall_impl; [| exact Hcols]. simpl. intros col [Hc _]. exact Hc.
Qed.

Section Mass.

Local Open Scope Qc_scope.

Lemma reduce_sum_plus {A} (f g : A -> Qc) (l : list A) :
  reduce_sum (map (fun a => f a + g a) l)
  = reduce_sum (map f l) + reduce_sum (map g l).
Proof.
  unfold reduce_sum. induction l as [| a l IH]; cbn [map fold_right].
  - simpl. ring.
  - rewrite IH. simpl. ring.
Qed.

Lemma reduce_sum_zero {A} (l : list A) :
  reduce_sum (map (fun _ => 0) l) = 0.
Proof.
  unfold reduce_sum. induction l as [| a l IH]; cbn [map fold_right].
  - reflexivity.
  - rewrite IH. simpl. ring.
Qed.

(** A sum over an index range that holds a single non-zero term. *)
Lemma reduce_sum_indicator (v : Qc) (a s n : nat) :
  reduce_sum (map (fun i => if a =? i then v else 0) (seq s n))
  = if (s <=? a)%nat && (a <? s + n)%nat then v else 0.
Proof.
  unfold reduce_sum. revert s.
  induction n as [| n IH]; intros s; cbn [seq map fold_right].
  - destruct (s <=? a)%nat eqn:H1; destruct (a <? s + 0)%nat eqn:H2;
      simpl; try reflexivity.
    apply Nat.leb_le in H1. apply Nat.ltb_lt in H2. lia.
  - rewrite IH. clear IH.
    destruct (Nat.eqb_spec a s);
      destruct (Nat.leb_spec (S s) a);
      destruct (Nat.ltb_spec a (S s + n));
      destruct (Nat.leb_spec s a);
      destruct (Nat.ltb_spec a (s + S n));
      cbn [andb]; try lia; simpl; ring.
Qed.

Lemma reduce_sum_ema (g : Qc) (old batch : list Qc) :
  length old = length batch ->
  reduce_sum (map2 (ema g) old batch)
  = ema g (reduce_sum old) (reduce_sum batch).
Proof.
  unfold reduce_sum, ema. revert batch.
  induction old as [| a old IH]; intros [| b batch] Hlen;
    simpl in *; try discriminate.
  - ring.
  - rewrite (IH batch) by lia. ring.
Qed.

(** Every code below [n] is counted once. *)
Lemma assigned_counts_total (n : nat) (c : list nat) :
  Forall (fun ci => ci < n)%nat c ->
  reduce_sum (assigned_counts n c) = Qc_of_nat (length c).
Proof.
  unfold assigned_counts. intros Hc.
  induction Hc as [| a c Ha _ IH].
  - simpl. rewrite reduce_sum_zero. reflexivity.
  - rewrite (map_ext _
               (fun i => (if a =? i then 1 else 0)
                         + Qc_of_nat (count_occ Nat.eq_dec c i))).
    + rewrite reduce_sum_plus, IH, reduce_sum_indicator.
      replace ((0 <=? a)%nat && (a <? 0 + n)%nat) with true.
      * simpl length. rewrite Qc_of_nat_S. reflexivity.
      * symmetry. apply andb_true_iff. split.
        -- apply Nat.leb_le. lia.
        -- apply Nat.ltb_lt. lia.
    + intros i. simpl count_occ.
      destruct (Nat.eq_dec a i) as [-> | Hne].
      * rewrite Nat.eqb_refl, Qc_of_nat_S. reflexivity.
      * apply Nat.eqb_neq in Hne. rewrite Hne. ring.
Qed.

(** Column sums of a table. *)
Lemma reduce_sum_axis0_ema (g : Qc) (w : nat) (old batch : list (list Qc)) :
  length old = length batch ->
  Forall (fun r => length r = w) old ->
  Forall (fun r => length r = w) batch ->
  reduce_sum_axis0 w (map2 (map2 (ema g)) old batch)
  = map2 (ema g) (reduce_sum_axis0 w old) (reduce_sum_axis0 w batch).
Proof.
  intros Hlen Hold Hbatch. unfold reduce_sum_axis0.
  rewrite map2_map_same. apply map_ext_in. intros j Hj.
  apply in_seq in Hj.
  rewrite <- reduce_sum_ema by (rewrite !length_map; exact Hlen).
  f_equal. clear Hlen. revert batch Hbatch.
  induction Hold as [| ro old Hro _ IH]; intros batch Hbatch.
  - reflexivity.
  - destruct Hbatch as [| rb batch Hrb Hbatch]; [reflexivity |].
    cbn [map2 map]. rewrite (IH batch Hbatch). f_equal.
    apply (@nth_map2 _ _ _ (ema g) ro rb j 0 0 0); simpl in *; lia.
Qed.

End Mass.

Section MassOfSums.

Local Open Scope Qc_scope.

Lemma assigned_rows_cons (i a : nat) (c : list nat) (r : list Qc)
    (x_flat : list (list Qc)) :
  assigned_rows i (a :: c) (r :: x_flat)
  = if a =? i then r :: assigned_rows i c x_flat
    else assigned_rows i c x_flat.
Proof.
  unfold assigned_rows. simpl. destruct (a =? i); reflexivity.
Qed.

(** Every sub-vector with a code below [n] is summed once. *)
Lemma assigned_sums_total (n w : nat) (c : list nat)
    (x_flat : list (list Qc)) :
  Forall (fun ci => ci < n)%nat c ->
  length c = length x_flat ->
  reduce_sum_axis0 w (assigned_sums n w c x_flat) = reduce_sum_axis0 w x_flat.
Proof.
  intros Hc Hlen. unfold reduce_sum_axis0, assigned_sums.
  apply map_ext_in. intros j Hj. apply in_seq in Hj.
  rewrite map_map.
  rewrite (map_ext _
             (fun i => fold_right Qcplus 0
                         (map (fun row => nth j row 0)
                              (assigned_rows i c x_flat)))).
  2:{ intros i.
      apply (@nth_map_seq _
               (fun j0 => fold_right Qcplus 0
                            (map (fun row => nth j0 row 0)
                                 (assigned_rows i c x_flat)))).
      lia. }
  revert x_flat Hlen. induction Hc as [| a c Ha _ IH]; intros x_flat Hlen.
  - destruct x_flat; [| discriminate].
    unfold assigned_rows. simpl combine. cbn [filter map fold_right].
    apply reduce_sum_zero.
  - destruct x_flat as [| r x_flat]; [discriminate |].
    rewrite (map_ext _
               (fun i => (if a =? i then nth j r 0 else 0)
                         + fold_right Qcplus 0
                             (map (fun row => nth j row 0)
                                  (assigned_rows i c x_flat)))).
    + rewrite reduce_sum_plus, reduce_sum_indicator.
      rewrite (IH x_flat) by (simpl in Hlen; lia).
      replace ((0 <=? a)%nat && (a <? 0 + n)%nat) with true.
      * reflexivity.
      * symmetry. apply andb_true_iff. split.
        -- apply Nat.leb_le. lia.
        -- apply Nat.ltb_lt. lia.
    + intros i. rewrite assigned_rows_cons.
      destruct (a =? i); simpl; ring.
Qed.

End MassOfSums.

(** X3: a training call neither loses nor double counts a sub-vector: in
    exact arithmetic the total of [counts] moves to the moving average of
    its old value and the number of sub-vectors of the batch (one per code
    returned), and the column totals of [sums] move to the moving average
    of their old values and the column totals of the batch. *)
Theorem training_conserves_mass (self : Config Qc) (rng : Random Qc)
    (x : Tensor Qc) (vars vars' : Variables Qc)
    (z : Tensor Qc) (code : Tensor nat) :
  wf_vars self vars ->
  call self rng x true vars = Ok ((z, code), vars') ->
  exists x_flat,
    flatten_heads self vars x = Ok x_flat /\
    length x_flat = length (data code) /\
    reduce_sum (counts vars')
    = ema (gamma self) (reduce_sum (counts vars))
          (Qc_of_nat (length (data code))) /\
    let w := depth vars / num_heads self in
    reduce_sum_axis0 w (sums vars')
    = map2 (ema (gamma self)) (reduce_sum_axis0 w (sums vars))
           (reduce_sum_axis0 w x_flat).
Proof.
  intros Hwf Hcall.
  apply call_Ok in Hcall.
  destruct Hcall as (x_flat & e & c & zq & Hf & He & Hn & _ & _ & Hu & Hcode).
  exists x_flat. split; [exact Hf |].
  pose proof (nearest_length _ _ Hn) as Hclen.
  pose proof (reshape_codes_length _ _ _ Hcode) as Hdata.
  assert (Hrange : Forall (fun ci => ci < k self) c).
  { eapply Forall_impl; [| exact (@nearest_range _ _ _ _ _ Hn)].
    simpl. intros ci Hci.
    apply resolve_centroids_length_le in He.
    destruct Hwf as (_ & _ & Hcounts & _). lia. }
  split; [lia |].
  apply update_statistics_Ok in Hu. cbv zeta in Hu.
  rewrite assign_sub_is_ema, assign_sub_rows_is_ema in Hu.
  rewrite one_hot_counts, one_hot_sums in Hu.
  subst vars'. cbn [counts sums].
  destruct Hwf as (_ & _ & Hcounts & Hsums & Hrows).
  split.
  - rewrite reduce_sum_ema.
    + rewrite (assigned_counts_total Hrange). rewrite Hdata. reflexivity.
    + unfold assigned_counts. rewrite length_map, length_seq. exact Hcounts.
  - cbv zeta.
    rewrite (@reduce_sum_axis0_ema _ (depth vars / num_heads self)).
    + rewrite (@assigned_sums_total (k self) _ c x_flat Hrange Hclen).
      reflexivity.
    + unfold assigned_sums. rewrite length_map, length_seq. exact Hsums.
    + exact Hrows.
    + unfold assigned_sums. apply Forall_forall. intros r Hr.
      apply in_map_iff in Hr. destruct Hr as (i & <- & _).
      rewrite length_map, length_seq. reflexivity.
Qed.

Lemma training_conserves_mass_witness :
  match call demo_config demo_random demo_x true demo_vars with
  | Ok ((z, code), vars') =>
      reduce_sum (counts vars')
      = ema (gamma demo_config) (reduce_sum (counts demo_vars))
            (Qc_of_nat (length (data code)))
  | Raise _ => False
  end.
Proof.
  destruct (call demo_config demo_random demo_x true demo_vars)
    as [[[z code] vars'] | err] eqn:E.
  - destruct (@training_conserves_mass demo_config demo_random demo_x
                demo_vars vars' z code demo_vars_wf E)
      as (x_flat & _ & _ & Hc & _).
    exact Hc.
  - vm_compute in E. discriminate.
Defined.

(** ** The shapes of the variables *)

(** X4: the shapes that [build] gives the variables are an invariant of the
    layer: a call, training or not, keeps the depth and takes variables of
    shapes [[k]] and [[k, depth / num_heads]] to variables of the same
    shapes, and so every state reached from [build] by calls and
    [unquantize] has them. *)
Theorem shapes_are_invariant {F : Type} {SF : Scalar F} (self : Config F) :
  (forall rng x training vars vars' r,
      wf_vars self vars ->
      call self rng x training vars = Ok (r, vars') ->
      wf_vars self vars' /\ depth vars' = depth vars)
  /\ (forall vars, reachable self vars -> wf_vars self vars).
Proof.
  assert (Hstep : forall rng x training vars vars' r,
            wf_vars self vars ->
            call self rng x training vars = Ok (r, vars') ->
            wf_vars self vars' /\ depth vars' = depth vars).
  { intros rng x training vars vars' [z code] Hwf Hcall.
    apply call_Ok in Hcall.
    destruct Hcall as (x_flat & e & c & zq & _ & _ & _ & _ & _ & Hu & _).
    destruct training; [| subst vars'; auto].
    destruct (@update_statistics_succeeds _ _ self x_flat c vars Hwf)
      as (vars'' & Hu' & Hwf').
    rewrite Hu in Hu'. inversion Hu'. subst vars''. clear Hu'.
    split; [exact Hwf' |].
    apply update_statistics_Ok in Hu. cbv zeta in Hu. subst vars'.
    reflexivity. }
  split; [exact Hstep |].
  intros vars Hreach.
  induction Hreach as [input_shapes vars Hb
                      | rng x training vars vars' r _ IH Hcall
                      | c vars vars' z _ IH Hunq].
  - eapply build_wf. exact Hb.
  - eapply Hstep; [exact IH | exact Hcall].
  - apply unquantize_Ok in Hunq. destruct Hunq as (rows & _ & _ & ->).
    exact IH.
Qed.

Lemma shapes_are_invariant_witness :
  match call demo_config demo_random demo_x true demo_vars with
  | Ok (_, vars') => wf_vars demo_config vars' /\ depth vars' = 4
  | Raise _ => False
  end.
Proof.
  destruct (call demo_config demo_random demo_x true demo_vars)
    as [[r vars'] | err] eqn:E.
  - exact (proj1 (@shapes_are_invariant _ _ demo_config)
                 demo_random demo_x true demo_vars vars' r demo_vars_wf E).
  - vm_compute in E. discriminate.
Defined.

(** ** Quantizing twice *)

Section HeadsRoundTrip.

Context {A : Type}.

Lemma concat_blocks (count size : nat) (l : list A) :
  length l = count * size -> concat (blocks count size l) = l.
Proof.
  revert l. induction count as [| count IH]; intros l Hl.
  - simpl in Hl. apply length_zero_iff_nil in Hl. subst l. reflexivity.
  - rewrite blocks_S. cbn [concat]. rewrite IH.
    + apply firstn_skipn.
    + rewrite length_skipn. simpl in Hl. lia.
Qed.

Lemma map_nth_all (l : list A) (d : A) :
  map (fun n => nth n l d) (seq 0 (length l)) = l.
Proof.
  induction l as [| a l IH]; [reflexivity |].
  cbn [length seq map nth]. f_equal.
  rewrite <- seq_shift, map_map. exact IH.
Qed.

(** Piece [i] of a row glued from pieces of one width. *)
Lemma slice_concat_uniform (w : nat) (pieces : list (list A)) (i : nat) :
  Forall (fun p => length p = w) pieces ->
  i < length pieces ->
  firstn w (skipn (i * w) (concat pieces)) = nth i pieces [].
Proof.
  intros Hw. revert i. induction Hw as [| p pieces Hp _ IH]; intros i Hi.
  - simpl in Hi. lia.
  - destruct i as [| i]; cbn [concat nth].
    + cbn [Nat.mul skipn]. rewrite firstn_app, Hp, Nat.sub_diag.
      cbn [firstn]. rewrite app_nil_r. rewrite <- Hp. apply firstn_all.
    + replace (S i * w) with (length p + i * w) by (simpl; lia).
      rewrite skipn_app, skipn_all2 by lia.
      replace (length p + i * w - length p) with (i * w) by lia.
      cbn [app]. apply IH. simpl in Hi. lia.
Qed.

(** The columns of groups of one length, entry by entry. *)
Lemma columns_by_position (n : nat) (gs : list (list A)) (d : A) :
  Forall (fun g => length g = n) gs ->
  columns n gs = map (fun i => map (fun g => nth i g d) gs) (seq 0 n).
Proof.
  intros Hg. unfold columns. apply map_ext_in. intros i Hi.
  apply in_seq in Hi.
  induction Hg as [| g gs Hlen _ IH]; [reflexivity |].
  cbn [flat_map map]. rewrite IH. clear IH.
  replace (firstn 1 (skipn i g)) with [nth i g d]; [reflexivity |].
  assert (Hig : i < length g) by lia. clear - Hig.
  revert i Hig. induction g as [| a g IH]; intros i Hig.
  - simpl in Hig. lia.
  - destruct i as [| i]; [reflexivity |].
    cbn [skipn nth]. apply IH. simpl in Hig. lia.
Qed.

End HeadsRoundTrip.

(** Gluing the heads of every position and cutting the rows into heads
    again gives back the groups. *)
Lemma columns_slice {A} (h n w : nat) (gs : list (list (list A))) (i : nat) :
  length gs = h ->
  Forall (fun g => length g = n /\ Forall (fun r => length r = w) g) gs ->
  i < h ->
  map (fun col => firstn w (skipn (i * w) (concat col))) (columns n gs)
  = nth i gs [].
Proof.
  intros Hh Hgs Hi.
  rewrite (@columns_by_position _ n gs []).
  2:{ eapply Forall_impl; [| exact Hgs]. simpl. intros g [Hg _]. exact Hg. }
  rewrite map_map.
  assert (Hin : In (nth i gs []) gs) by (apply nth_In; lia).
  rewrite Forall_forall in Hgs.
  destruct (Hgs _ Hin) as [Hlen _].
  transitivity (map (fun p => nth p (nth i gs []) []) (seq 0 n));
    [| rewrite <- Hlen; apply map_nth_all].
  apply map_ext_in. intros p Hp. apply in_seq in Hp.
  rewrite (@slice_concat_uniform _ w).
  - apply (@nth_map_in_range _ _ (fun g => nth p g []) gs i [] []). lia.
  - apply Forall_forall. intros r Hr. apply in_map_iff in Hr.
    destruct Hr as (g & <- & Hg).
    destruct (Hgs _ Hg) as [Hgl Hgw]. rewrite Forall_forall in Hgw.
    apply Hgw. apply nth_In. lia.
  - rewrite length_map. lia.
Qed.

Section FlattenOfGlued.

Context {F : Type} {SF : Scalar F}.

(** Flattening undoes the reassembly of the heads. *)
Lemma flatten_of_glued (self : Config F) (vars : Variables F)
    (s : list nat) (n : nat) (rows : list (list F)) :
  wf_vars self vars ->
  0 < depth vars ->
  length rows = num_heads self * n ->
  Forall (fun r => length r = depth vars / num_heads self) rows ->
  flatten_heads self vars
    (mkTensor s (concat (concat_axis1 (blocks (num_heads self) n rows))))
  = Ok rows.
Proof.
  intros (Hh & Hmod & _) Hd Hlen Hw.
  set (h := num_heads self) in *. set (d := depth vars) in *.
  set (w := d / h) in *.
  assert (Hdw : d = h * w) by (apply Nat.Div0.div_exact; exact Hmod).
  set (gs := blocks h n rows).
  assert (Hgs : Forall (fun g => length g = n /\
                                 Forall (fun r => length r = w) g) gs).
  { apply Forall_forall. intros g Hg. split.
    - pose proof (@blocks_widths _ h n rows) as Hb.
      rewrite Forall_forall in Hb. apply Hb; [lia | exact Hg].
    - apply Forall_forall. intros r Hr.
      rewrite Forall_forall in Hw. apply Hw.
      eapply blocks_In; eassumption. }
  assert (Hgl : length gs = h) by apply blocks_length.
  unfold concat_axis1. fold gs.
  replace (group_rows gs) with n
    by (symmetry; apply group_rows_blocks; [exact Hh | lia]).
  destruct (@columns_of_blocks _ (fun r => length r = w) h n rows Hh Hlen Hw)
    as (Hcl & Hcols).
  fold gs in Hcl, Hcols.
  replace (group_rows gs) with n in Hcl, Hcols
    by (symmetry; apply group_rows_blocks; [exact Hh | lia]).
  set (cols := columns n gs) in *.
  assert (HR : Forall (fun r => length r = d) (map (@concat F) cols)).
  { apply Forall_forall. intros r Hr. apply in_map_iff in Hr.
    destruct Hr as (col & <- & Hcol).
    rewrite Forall_forall in Hcols. destruct (Hcols _ Hcol) as [Hch Hcw].
    rewrite (concat_length_uniform Hcw). rewrite Hch. lia. }
  unfold flatten_heads, reshape_rows. cbn [data].
  fold d h.
  replace (d =? 0) with false by (symmetry; apply Nat.eqb_neq; lia).
  rewrite (concat_length_uniform HR), length_map, Hcl.
  rewrite Nat.Div0.mod_mul. cbn [Nat.eqb].
  rewrite Nat.div_mul by lia.
  replace (blocks n d (concat (map (@concat F) cols)))
    with (map (@concat F) cols).
  2:{ pose proof (blocks_concat HR) as Hb.
      rewrite length_map, Hcl in Hb. symmetry. exact Hb. }
  cbn [rbind]. unfold split_axis1.
  replace (h =? 0) with false by (symmetry; apply Nat.eqb_neq; exact Hh).
  replace (d mod h =? 0) with true by (symmetry; apply Nat.eqb_eq; exact Hmod).
  cbn [rbind]. f_equal. fold w.
  rewrite <- (concat_blocks h n rows Hlen). fold gs. f_equal.
  transitivity (map (fun i => nth i gs []) (seq 0 h));
    [| rewrite <- Hgl; apply map_nth_all].
  apply map_ext_in. intros i Hi. apply in_seq in Hi.
  rewrite map_map.
  apply (@columns_slice _ h n w gs i Hgl Hgs). lia.
Qed.

End FlattenOfGlued.

Section DistanceZero.

Local Open Scope Qc_scope.

Lemma Qc_square_nonneg (a : Qc) : 0 <= a * a.
Proof.
  destruct (Qclt_le_dec a 0) as [Hneg | Hpos].
  - replace (a * a) with ((- a) * (- a)) by ring.
    assert (H : 0 <= - a).
    { apply Qclt_le_weak in Hneg. apply Qcopp_le_compat in Hneg.
      replace (- 0) with 0 in Hneg by ring. exact Hneg. }
    replace 0 with (0 * - a) by ring.
    apply Qcmult_le_compat_r; exact H.
  - replace 0 with (0 * a) by ring.
    apply Qcmult_le_compat_r; exact Hpos.
Qed.

Lemma sq_dist_nonneg (a b : list Qc) : 0 <= sq_dist a b.
Proof.
  unfold sq_dist. revert b.
  induction a as [| u a IH]; intros [| v b]; cbn [map2 fold_right];
    try apply Qcle_refl.
  replace 0 with (0 + 0) by ring.
  apply Qcplus_le_compat; [apply Qc_square_nonneg | apply IH].
Qed.

Lemma sq_dist_same (a : list Qc) : sq_dist a a = 0.
Proof.
  unfold sq_dist. induction a as [| u a IH]; cbn [map2 fold_right].
  - reflexivity.
  - rewrite IH. ring.
Qed.

Lemma Qc_sum_zero (p q : Qc) : 0 <= p -> 0 <= q -> p + q = 0 -> p = 0.
Proof.
  intros Hp Hq H. apply Qcle_antisym; [| exact Hp].
  rewrite <- H. replace p with (p + 0) at 1 by ring.
  apply Qcplus_le_compat; [apply Qcle_refl | exact Hq].
Qed.

(** Vectors at distance zero are equal. *)
Lemma sq_dist_zero (a b : list Qc) :
  length a = length b -> sq_dist a b = 0 -> a = b.
Proof.
  revert b. induction a as [| u a IH]; intros [| v b] Hlen H;
    try discriminate; [reflexivity |].
  unfold sq_dist in H. cbn [map2 fold_right] in H.
  fold (sq_dist a b) in H.
  assert (Hhead : (u - v) * (u - v) = 0).
  { eapply Qc_sum_zero; [apply Qc_square_nonneg | apply sq_dist_nonneg |].
    exact H. }
  assert (Htail : sq_dist a b = 0).
  { rewrite Hhead in H. rewrite <- H. ring. }
  f_equal.
  - assert (Huv : u - v = 0).
    { destruct (Qcmult_integral _ _ Hhead); assumption. }
    replace u with ((u - v) + v) by ring. rewrite Huv. ring.
  - apply IH; [simpl in Hlen; lia | exact Htail].
Qed.

End DistanceZero.

(** X5: quantizing at inference is idempotent on values: in exact
    arithmetic, an inference call on the quantized tensor of an inference
    call returns that tensor again.  Every sub-vector of the quantized
    tensor is a centroid, and the nearest centroid of a centroid is at
    distance zero from it. *)
Theorem inference_is_idempotent (self : Config Qc) (rng rng' : Random Qc)
    (x : Tensor Qc) (leading : list nat) (vars vars' : Variables Qc)
    (z : Tensor Qc) (code : Tensor nat) :
  wf_vars self vars ->
  0 < depth vars ->
  shape x = leading ++ [depth vars] ->
  wf_tensor x ->
  call self rng x false vars = Ok ((z, code), vars') ->
  exists code',
    call self rng' z false vars' = Ok ((z, code'), vars') /\
    shape code' = shape code.
Proof.
  intros Hwf Hd Hshape Hx Hcall.
  apply call_Ok in Hcall.
  destruct Hcall as (x_flat & e & c & zq & Hf & He & Hn & Hz & -> & -> & Hcode).
  destruct (@flatten_heads_shape _ self vars x leading Hwf Hd Hshape Hx)
    as (x_flat' & Hf' & Hxlen & Hxw).
  rewrite Hf in Hf'. inversion Hf'. subst x_flat'. clear Hf'.
  rewrite resolve_centroids_inference in He. inversion He as [He'].
  destruct (centroid_means_shape Hwf) as (Hek & Hew).
  rewrite He' in Hek, Hew.
  pose proof (nearest_length _ _ Hn) as Hclen.
  pose proof (@nearest_range _ _ _ _ _ Hn) as Hcrange.
  assert (Hk : 0 < length e).
  { unfold nearest in Hn. destruct (length e =? 0) eqn:Hz0; [discriminate |].
    apply Nat.eqb_neq in Hz0. lia. }
  (* the quantized tensor, sub-vector by sub-vector *)
  set (h := num_heads self) in *. set (w := depth vars / h) in *.
  set (rows := map (fun ci => nth ci e []) c).
  assert (Hrlen : length rows = h * numel leading).
  { unfold rows. rewrite length_map. lia. }
  assert (Hrw : Forall (fun r => length r = w) rows).
  { unfold rows. apply Forall_forall. intros r Hr. apply in_map_iff in Hr.
    destruct Hr as (ci & <- & Hci).
    rewrite Forall_forall in Hew, Hcrange. apply Hew. apply nth_In.
    apply Hcrange. exact Hci. }
  destruct Hwf as (Hh & Hmod & Hwf').
  assert (Hzq : zq = mkTensor (shape x)
                  (concat (concat_axis1 (blocks h (numel leading) rows)))
                /\ length (data zq) = numel (shape x)).
  { unfold quantized_lookup in Hz.
    apply rbind_Ok in Hz. destruct Hz as (rows' & Hrows & Hz).
    apply rbind_Ok in Hz. destruct Hz as (zs & Hzs & Hz).
    apply embedding_lookup_Ok in Hrows. destruct Hrows as [_ ->].
    fold rows in Hzs. fold h in Hzs.
    rewrite (@split_axis0_blocks _ h (numel leading) rows Hh Hrlen) in Hzs.
    inversion Hzs. subst zs. clear Hzs.
    apply reshape_Ok in Hz. destruct Hz as [-> Hlen].
    split; [reflexivity | exact Hlen]. }
  destruct Hzq as [Hzq Hzlen].
  assert (Hst : straight_through x zq = zq).
  { apply straight_through_exact.
    - exact Qc_exact_straight_through.
    - rewrite Hzq. reflexivity.
    - unfold wf_tensor in Hx. lia. }
  rewrite Hst.
  (* the second call *)
  destruct (@nearest_Ok _ _ rows e Hk) as (c' & Hn' & Hclen' & Hcrange').
  destruct (@nearest_spec w rows e c' Hrw Hew Hn') as (_ & Hmin).
  assert (Hrows' : map (fun ci => nth ci e []) c' = rows).
  { apply (@nth_ext _ _ _ [] []).
    - rewrite length_map. exact Hclen'.
    - intros n Hlt. rewrite length_map in Hlt.
      rewrite (@nth_map_in_range _ _ (fun ci => nth ci e []) c' n 0 [] Hlt).
      assert (Hn_rows : n < length rows) by lia.
      destruct (Hmin n Hn_rows) as (Hcn & Hle & _).
      assert (Hn_c : n < length c) by (unfold rows in Hn_rows;
                                       rewrite length_map in Hn_rows; lia).
      assert (Hrn : nth n rows [] = nth (nth n c 0) e []).
      { unfold rows.
        apply (@nth_map_in_range _ _ (fun ci => nth ci e []) c n 0 [] Hn_c). }
      assert (Hcn_range : nth n c 0 < length e).
      { rewrite Forall_forall in Hcrange. apply Hcrange.
        apply nth_In. exact Hn_c. }
      specialize (Hle (nth n c 0) Hcn_range).
      rewrite <- Hrn in Hle. rewrite sq_dist_same in Hle.
      symmetry. apply sq_dist_zero.
      + rewrite Forall_forall in Hrw, Hew.
        rewrite (Hrw (nth n rows [])) by (apply nth_In; exact Hn_rows).
        rewrite (Hew (nth (nth n c' 0) e [])) by (apply nth_In; exact Hcn).
        reflexivity.
      + apply Qcle_antisym; [exact Hle | apply sq_dist_nonneg]. }
  assert (Hwf : wf_vars self vars) by (split; [exact Hh | split; assumption]).
  assert (Hzshape : shape zq = leading ++ [depth vars]).
  { rewrite Hzq. exact Hshape. }
  destruct (@reshape_codes_Ok _ self zq leading (depth vars) c' Hh Hzshape)
    as (code' & Hcode'); [lia |].
  exists code'. split.
  - apply call_Ok. exists rows, e, c', zq.
    split.
    { rewrite Hzq. apply flatten_of_glued; assumption. }
    split; [rewrite resolve_centroids_inference, He'; reflexivity |].
    split; [exact Hn' |].
    split.
    { unfold quantized_lookup.
      replace (embedding_lookup e c') with (Ok rows).
      2:{ symmetry. apply embedding_lookup_Ok. split; [exact Hcrange' |].
          symmetry. exact Hrows'. }
      cbn [rbind]. fold h.
      rewrite (@split_axis0_blocks _ h (numel leading) rows Hh Hrlen).
      cbn [rbind]. apply reshape_Ok. split.
      - rewrite Hzq. reflexivity.
      - rewrite Hzq in Hzlen. cbn [data shape] in Hzlen.
        rewrite Hzq. cbn [shape]. exact Hzlen. }
    split.
    { symmetry. apply straight_through_exact.
      - exact Qc_exact_straight_through.
      - reflexivity.
      - reflexivity. }
    split; [reflexivity | exact Hcode'].
  - unfold reshape_codes in Hcode, Hcode'.
    apply rbind_Ok in Hcode. destruct Hcode as (cs & _ & Hr).
    apply rbind_Ok in Hcode'. destruct Hcode' as (cs' & _ & Hr').
    apply reshape_Ok in Hr. destruct Hr as [-> _].
    apply reshape_Ok in Hr'. destruct Hr' as [-> _].
    cbn [shape]. rewrite Hzq. reflexivity.
Qed.

Lemma inference_is_idempotent_witness :
  match call demo_config demo_random demo_x false demo_vars with
  | Ok ((z, code), vars') =>
      exists code',
        call demo_config demo_random z false vars' = Ok ((z, code'), vars')
        /\ shape code' = shape code
  | Raise _ => False
  end.
Proof.
  destruct (call demo_config demo_random demo_x false demo_vars)
    as [[[z code] vars'] | err] eqn:E.
  - apply (@inference_is_idempotent demo_config demo_random demo_random
             demo_x [2] demo_vars vars' z code demo_vars_wf).
    + simpl. lia.
    + reflexivity.
    + reflexivity.
    + exact E.
  - vm_compute in E. discriminate.
Defined.

(** ** An empty batch *)

Lemma map2_constant_r {A B C} (f : A -> B -> C) (b : B) (l : list A)
    (lb : list B) :
  length lb = length l ->
  Forall (fun v => v = b) lb ->
  map2 f l lb = map (fun a => f a b) l.
Proof.
  revert lb. induction l as [| a l IH]; intros [| v lb] Hlen Hb;
    try discriminate; [reflexivity |].
  inversion Hb as [| ? ? Hv Hb']. subst.
  cbn [map2 map]. f_equal. apply IH; [simpl in Hlen; lia | exact Hb'].
Qed.

Lemma ema_zero_batch (g old : Qc) : ema g old 0%Qc = (g * old)%Qc.
Proof.
  unfold ema. ring.
Qed.

Lemma ema_zero_rows (g : Qc) (old batch : list (list Qc)) :
  length batch = length old ->
  Forall2 (fun r b => length b = length r /\ Forall (fun v => v = 0%Qc) b)
          old batch ->
  map2 (map2 (ema g)) old batch = map (map (Qcmult g)) old.
Proof.
  intros _ H. induction H as [| r b old batch [Hlen Hb] _ IH].
  - reflexivity.
  - cbn [map2 map]. rewrite IH. f_equal.
    rewrite (@map2_constant_r _ _ _ (ema g) 0%Qc r b Hlen Hb).
    apply map_ext. intros a. apply ema_zero_batch.
Qed.

(** X6: a training call on an empty batch (an input with no leading
    position) returns empty tensors and, in exact arithmetic, multiplies
    every count and every sum by [gamma]: with nothing assigned the batch
    statistics are zero. *)
Theorem training_on_empty_batch (self : Config Qc) (rng : Random Qc)
    (x : Tensor Qc) (leading : list nat) (vars : Variables Qc) :
  wf_vars self vars ->
  wf_random rng ->
  0 < k self ->
  0 < depth vars ->
  shape x = leading ++ [depth vars] ->
  numel leading = 0 ->
  wf_tensor x ->
  call self rng x true vars
  = Ok ((mkTensor (shape x) [], mkTensor (leading ++ [num_heads self]) []),
        mkVariables (depth vars)
          (map (Qcmult (gamma self)) (counts vars))
          (map (map (Qcmult (gamma self))) (sums vars))).
Proof.
  intros Hwf Hrng Hk Hd Hshape Hempty Hx.
  destruct (@call_succeeds _ _ self rng x leading true vars Hwf Hk Hd
              (fun _ => Hrng) Hshape Hx) as (z & code & vars' & Hcall & _).
  rewrite Hcall. f_equal.
  apply call_Ok in Hcall.
  destruct Hcall as (x_flat & e & c & zq & Hf & He & Hn & Hz & -> & Hu & Hcode).
  destruct (@flatten_heads_shape _ self vars x leading Hwf Hd Hshape Hx)
    as (x_flat' & Hf' & Hxlen & _).
  rewrite Hf in Hf'. inversion Hf'. subst x_flat'. clear Hf'.
  rewrite Hempty, Nat.mul_0_r in Hxlen.
  apply length_zero_iff_nil in Hxlen. subst x_flat.
  pose proof (nearest_length _ _ Hn) as Hclen. simpl in Hclen.
  apply length_zero_iff_nil in Hclen. subst c.
  pose proof (quantized_lookup_of_codes _ _ _ _ Hz Hcode)
    as (Hzsh & Hzlen & Hcsh & _ & _).
  pose proof (reshape_codes_length _ _ _ Hcode) as Hdata. simpl in Hdata.
  apply length_zero_iff_nil in Hdata.
  rewrite Hshape, numel_app, Hempty in Hzlen. simpl in Hzlen.
  apply length_zero_iff_nil in Hzlen.
  apply update_statistics_Ok in Hu. cbv zeta in Hu.
  rewrite assign_sub_is_ema, assign_sub_rows_is_ema in Hu.
  rewrite one_hot_counts, one_hot_sums in Hu.
  destruct Hwf as (_ & _ & Hcounts & Hsums & Hrows).
  f_equal; [f_equal |].
  - unfold straight_through. rewrite Hzlen.
    destruct (data x); reflexivity.
  - destruct code as [cs cd]. simpl in *. subst. rewrite Hshape.
    rewrite removelast_last. reflexivity.
  - subst vars'. f_equal.
    + rewrite (@map2_constant_r _ _ _ (ema (gamma self)) 0%Qc).
      * apply map_ext. intros a. apply ema_zero_batch.
      * unfold assigned_counts. rewrite length_map, length_seq. lia.
      * unfold assigned_counts. apply Forall_forall. intros v Hv.
        apply in_map_iff in Hv. destruct Hv as (i & <- & _).
        simpl. apply Qc_of_nat_0.
    + apply ema_zero_rows.
      * unfold assigned_sums. rewrite length_map, length_seq. lia.
      * unfold assigned_sums. rewrite <- Hsums.
        clear Hsums Hcounts. induction Hrows as [| r rows Hr _ IH].
        -- constructor.
        -- cbn [length seq map]. constructor.
           ++ split.
              ** rewrite length_map, length_seq. symmetry. exact Hr.
              ** apply Forall_forall. intros v Hv.
                 apply in_map_iff in Hv. destruct Hv as (j & <- & _).
                 reflexivity.
           ++ rewrite <- seq_shift, map_map. exact IH.
Qed.

Lemma training_on_empty_batch_witness :
  call demo_config demo_random (mkTensor [0; 4] []) true demo_vars
  = Ok ((mkTensor [0; 4] [], mkTensor [0; 2] []),
        mkVariables 4
          (map (Qcmult (gamma demo_config)) (counts demo_vars))
          (map (map (Qcmult (gamma demo_config))) (sums demo_vars))).
Proof.
  apply (@training_on_empty_batch demo_config demo_random
           (mkTensor [0; 4] []) [0] demo_vars demo_vars_wf demo_random_wf).
  - simpl. lia.
  - simpl. lia.
  - reflexivity.
  - reflexivity.
  - reflexivity.
Defined.

(** * Properties of the other utilities *)

(** ** Adding and removing the height and width axes *)

Lemma concat_firstn_blocks {A} (count size : nat) (l : list A) :
  length l = count * size ->
  concat (map (firstn size) (blocks count size l)) = l.
Proof.
  intros Hl.
  rewrite <- (concat_blocks count size l Hl) at 2. f_equal.
  rewrite <- (map_id (blocks count size l)) at 2.
  apply map_ext_in. intros b Hb.
  pose proof (@blocks_widths _ count size l) as Hw.
  rewrite Forall_forall in Hw. rewrite <- (Hw ltac:(lia) b Hb) at 1.
  apply firstn_all.
Qed.

(** X7: [ensure_4d] keeps the elements of a tensor and inserts unit axes
    only, so that a tensor of two or three axes gets four; and
    [inv_ensure_4d], given the number of axes of the original, is its
    inverse on every tensor. *)
Theorem inv_ensure_4d_inverts_ensure_4d {A : Type} (x : Tensor A) :
  wf_tensor x ->
  data (ensure_4d x) = data x /\
  wf_tensor (ensure_4d x) /\
  (2 <= length (shape x) <= 4 -> length (shape (ensure_4d x)) = 4) /\
  inv_ensure_4d (ensure_4d x) (length (shape x)) = Ok x.
Proof.
  destruct x as [s d]. unfold wf_tensor, ensure_4d, inv_ensure_4d.
  cbn [shape data]. intros Hx.
  destruct s as [| a [| b [| c [| e s]]]]; cbn [length Nat.eqb shape data].
  - split; [reflexivity |]. split; [exact Hx |].
    split; [lia | reflexivity].
  - split; [reflexivity |]. split; [exact Hx |].
    split; [lia | reflexivity].
  - split; [reflexivity |]. split; [simpl in *; lia |].
    split; [reflexivity |].
    unfold index_0_0. cbn [shape data Nat.eqb orb].
    rewrite Nat.mul_1_l. rewrite concat_firstn_blocks; [reflexivity |].
    exact Hx.
  - split; [reflexivity |]. split; [simpl in *; lia |].
    split; [reflexivity |].
    unfold index_0. cbn [shape data Nat.eqb].
    rewrite Nat.mul_1_l. rewrite concat_firstn_blocks; [reflexivity |].
    simpl in *. lia.
  - split; [reflexivity |]. split; [exact Hx |].
    split; [simpl; lia | reflexivity].
Qed.

Lemma inv_ensure_4d_inverts_ensure_4d_witness :
  inv_ensure_4d (ensure_4d (mkTensor [2; 3] [1; 2; 3; 4; 5; 6])) 2
  = Ok (mkTensor [2; 3] [1; 2; 3; 4; 5; 6]).
Proof.
  apply (@inv_ensure_4d_inverts_ensure_4d nat
           (mkTensor [2; 3] [1; 2; 3; 4; 5; 6]) eq_refl).
Defined.

(** ** Splitting a tensor into a dictionary *)

Section Dictionaries.

Context {V : Type}.

Lemma dict_set_fresh (key : String.string) (v : V) (d : Dict V) :
  ~ In key (map fst d) -> dict_set key v d = d ++ [(key, v)].
Proof.
  induction d as [| [key' v'] d IH]; intros Hfresh; [reflexivity |].
  cbn [dict_set]. destruct (String.eqb key key') eqn:Heq.
  - apply String.eqb_eq in Heq. subst key'.
    exfalso. apply Hfresh. left. reflexivity.
  - cbn [app]. f_equal. apply IH. intros Hin. apply Hfresh.
    right. exact Hin.
Qed.

(** Pairs with distinct keys make the dictionary that lists them. *)
Lemma dict_distinct_keys (pairs : list (String.string * V)) :
  NoDup (map fst pairs) -> dict pairs = pairs.
Proof.
  unfold dict.
  assert (H : forall acc,
             NoDup (map fst (acc ++ pairs)) ->
             fold_left (fun d kv => dict_set (fst kv) (snd kv) d) pairs acc
             = acc ++ pairs).
  { induction pairs as [| [key v] pairs IH]; intros acc Hnd.
    - rewrite app_nil_r. reflexivity.
    - cbn [fold_left fst snd]. rewrite dict_set_fresh.
      + rewrite IH; rewrite <- app_assoc; [reflexivity | exact Hnd].
      + rewrite map_app in Hnd. cbn [map fst] in Hnd.
        apply NoDup_remove_2 in Hnd. intros Hin. apply Hnd.
        apply in_or_app. left. exact Hin. }
  intros Hnd. apply (H []). exact Hnd.
Qed.

Lemma dict_get_combine (keys : list String.string) (vals : list V)
    (i : nat) (dk : String.string) (dv : V) :
  NoDup keys -> length keys = length vals -> i < length keys ->
  dict_get (nth i keys dk) (combine keys vals) = Some (nth i vals dv).
Proof.
  revert vals i. induction keys as [| key keys IH];
    intros [| v vals] i Hnd Hlen Hi; simpl in Hlen, Hi; try lia.
  inversion Hnd as [| ? ? Hnotin Hnd']. subst.
  destruct i as [| i]; cbn [nth combine dict_get].
  - rewrite String.eqb_refl. reflexivity.
  - destruct (String.eqb (nth i keys dk) key) eqn:Heq.
    + apply String.eqb_eq in Heq. exfalso. apply Hnotin.
      rewrite <- Heq. apply nth_In. lia.
    + apply IH; [exact Hnd' | lia | lia].
Qed.

End Dictionaries.

Lemma map_fst_combine_same {A B} (la : list A) (lb : list B) :
  length la = length lb -> map fst (combine la lb) = la.
Proof.
  revert lb. induction la as [| a la IH]; intros [| b lb] Hlen;
    simpl in *; try lia; [reflexivity |].
  f_equal. apply IH. lia.
Qed.

Lemma map_snd_combine_same {A B} (la : list A) (lb : list B) :
  length la = length lb -> map snd (combine la lb) = lb.
Proof.
  revert lb. induction la as [| a la IH]; intros [| b lb] Hlen;
    simpl in *; try lia; [reflexivity |].
  f_equal. apply IH. lia.
Qed.

Section Pieces.

Context {A : Type}.

Lemma split_offsets_length (lo : nat) (sizes : list nat) :
  length (split_offsets lo sizes) = length sizes.
Proof.
  revert lo. induction sizes as [| s sizes IH]; intros lo; simpl; auto.
Qed.

Lemma split_offsets_sizes (lo : nat) (sizes : list nat) :
  map snd (split_offsets lo sizes) = sizes.
Proof.
  revert lo. induction sizes as [| s sizes IH]; intros lo; [reflexivity |].
  cbn [split_offsets map snd]. f_equal. apply IH.
Qed.

Lemma nth_split_offsets (lo : nat) (sizes : list nat) (i : nat) :
  i < length sizes ->
  nth i (split_offsets lo sizes) (0, 0)
  = (lo + fold_right Nat.add 0 (firstn i sizes), nth i sizes 0).
Proof.
  revert lo i. induction sizes as [| s sizes IH]; intros lo i Hi;
    simpl in Hi; [lia |].
  destruct i as [| i]; cbn [split_offsets nth firstn fold_right].
  - rewrite Nat.add_0_r. reflexivity.
  - rewrite IH by lia. f_equal. lia.
Qed.

Lemma split_offsets_bounds (lo : nat) (sizes : list nat) :
  Forall (fun p => fst p + snd p <= lo + fold_right Nat.add 0 sizes)
         (split_offsets lo sizes).
Proof.
  revert lo. induction sizes as [| s sizes IH]; intros lo;
    cbn [split_offsets fold_right]; constructor.
  - simpl. lia.
  - eapply Forall_impl; [| apply IH]. simpl. intros p Hp. lia.
Qed.

Lemma firstn_plus (a b : nat) (l : list A) :
  firstn (a + b) l = firstn a l ++ firstn b (skipn a l).
Proof.
  revert l. induction a as [| a IH]; intros l; [reflexivity |].
  destruct l as [| x l]; cbn [Nat.add firstn skipn app].
  - rewrite firstn_nil. reflexivity.
  - f_equal. apply IH.
Qed.

Lemma skipn_plus (a b : nat) (l : list A) :
  skipn (a + b) l = skipn b (skipn a l).
Proof.
  revert l. induction a as [| a IH]; intros l; [reflexivity |].
  destruct l as [| x l]; cbn [Nat.add skipn].
  - rewrite skipn_nil. reflexivity.
  - apply IH.
Qed.

(** The pieces of a row, one after the other, are the stretch of the row
    that the sizes cover. *)
Lemma slices_cover (r : list A) (lo : nat) (sizes : list nat) :
  concat (map (fun p => slice_row (fst p) (snd p) r) (split_offsets lo sizes))
  = firstn (fold_right Nat.add 0 sizes) (skipn lo r).
Proof.
  revert lo. induction sizes as [| s sizes IH]; intros lo;
    cbn [split_offsets map concat fold_right fst snd]; [reflexivity |].
  rewrite IH, firstn_plus, skipn_plus. reflexivity.
Qed.

End Pieces.

Lemma tensor_ext {A} (a b : Tensor A) :
  shape a = shape b -> data a = data b -> a = b.
Proof.
  destruct a, b. simpl. intros -> ->. reflexivity.
Qed.

(** X8: [split_to_dict] on a tensor whose last axis has the width [n_out]
    that [OutputSplitsLayer] gives its dense layer, with distinct labels:
    the call succeeds, the dictionary lists the labels in the order of the
    splits, each label holds the slice of the tensor that starts where the
    sizes before it end, and the values concatenated along the last axis
    are the tensor again. *)
Theorem split_to_dict_partitions {A : Type} (t : Tensor A)
    (leading : list nat) (splits : list (String.string * nat)) :
  splits <> [] ->
  NoDup (output_keys splits) ->
  shape t = leading ++ [n_out splits] ->
  wf_tensor t ->
  exists d,
    split_to_dict t splits = Ok d /\
    map fst d = output_keys splits /\
    (forall i, i < length splits ->
       dict_get (fst (nth i splits (String.EmptyString, 0))) d
       = Some (slice_last (n_out (firstn i splits))
                          (snd (nth i splits (String.EmptyString, 0))) t)) /\
    concat_last (map snd d) = t.
Proof.
  intros Hne Hnd Hshape Hwf.
  unfold output_keys in *.
  set (labels := map fst splits) in *.
  set (sizes := map snd splits).
  set (offs := split_offsets 0 sizes).
  set (tensors := map (fun p => slice_last (fst p) (snd p) t) offs).
  assert (Hlen : length labels = length tensors).
  { unfold labels, tensors, offs, sizes.
    rewrite !length_map, split_offsets_length, length_map. reflexivity. }
  assert (Hsplit : split_last sizes t = Ok tensors).
  { unfold split_last. fold offs. fold tensors.
    destruct sizes as [| s sizes'] eqn:Hs.
    - destruct splits; [congruence | discriminate].
    - destruct (shape t) as [| a sh] eqn:Hsh.
      + symmetry in Hshape. apply app_eq_nil in Hshape.
        destruct Hshape as [_ Hshape]. discriminate.
      + rewrite Hshape, last_last. unfold n_out. fold sizes. rewrite Hs.
        rewrite Nat.eqb_refl. reflexivity. }
  exists (combine labels tensors).
  split.
  { unfold split_to_dict. fold sizes labels. rewrite Hsplit. cbn [rbind].
    rewrite dict_distinct_keys; [reflexivity |].
    rewrite map_fst_combine_same by exact Hlen. exact Hnd. }
  split; [apply map_fst_combine_same; exact Hlen |].
  split.
  { intros i Hi.
    assert (Hil : i < length labels).
    { unfold labels. rewrite length_map. exact Hi. }
    rewrite <- (map_nth fst splits (String.EmptyString, 0) i).
    fold labels. cbn [fst].
    rewrite (@dict_get_combine _ labels tensors i String.EmptyString
               (slice_last 0 0 t) Hnd Hlen Hil).
    f_equal. unfold tensors.
    rewrite (@nth_map_in_range _ _
               (fun p => slice_last (fst p) (snd p) t) offs i (0, 0)).
    2:{ unfold offs, sizes. rewrite split_offsets_length, length_map.
        exact Hi. }
    unfold offs. rewrite nth_split_offsets.
    2:{ unfold sizes. rewrite length_map. exact Hi. }
    cbn [fst snd]. unfold n_out, sizes. rewrite firstn_map.
    rewrite <- (map_nth snd splits (String.EmptyString, 0) i).
    reflexivity. }
  rewrite map_snd_combine_same by exact Hlen.
  (* the rows of the tensor and of its pieces *)
  set (n := numel leading). set (d := n_out splits) in *.
  set (rows := blocks n d (data t)).
  assert (Hdata : length (data t) = n * d).
  { unfold wf_tensor in Hwf. rewrite Hwf, Hshape. apply numel_app. }
  assert (Hrows : Forall (fun r => length r = d) rows).
  { apply blocks_widths. lia. }
  assert (Hrl : length rows = n) by apply blocks_length.
  assert (Hsum : fold_right Nat.add 0 sizes = d) by reflexivity.
  assert (Hpiece : forall p, In p offs ->
            shape (slice_last (fst p) (snd p) t) = leading ++ [snd p] /\
            blocks n (snd p) (data (slice_last (fst p) (snd p) t))
            = map (slice_row (fst p) (snd p)) rows).
  { intros p Hp. unfold slice_last.
    rewrite Hshape, removelast_last, last_last. cbn [shape data].
    split; [reflexivity |]. fold n d rows.
    pose proof (@split_offsets_bounds 0 sizes) as Hb.
    rewrite Forall_forall in Hb. specialize (Hb p Hp).
    rewrite Hsum in Hb. simpl in Hb.
    assert (Hw : Forall (fun r => length r = snd p)
                        (map (slice_row (fst p) (snd p)) rows)).
    { pose proof (@slice_row_width _ (fst p) (snd p) d rows Hrows) as Hw.
      eapply Forall_impl; [| exact Hw]. simpl. intros r Hr. lia. }
    pose proof (blocks_concat Hw) as Hbc.
    rewrite length_map, Hrl in Hbc. exact Hbc. }
  assert (Hoffsizes : map snd offs = sizes).
  { apply split_offsets_sizes. }
  assert (Hlead : forall t0, In t0 tensors -> removelast (shape t0) = leading).
  { intros t0 Ht0. unfold tensors in Ht0. apply in_map_iff in Ht0.
    destruct Ht0 as (p & <- & Hp). destruct (Hpiece p Hp) as [Hsh _].
    rewrite Hsh. apply removelast_last. }
  assert (Htdef : tensors
                  = map (fun p => slice_last (fst p) (snd p) t) offs)
    by reflexivity.
  clearbody tensors.
  destruct tensors as [| t0 ts'].
  { exfalso. simpl in Hlen. unfold labels in Hlen.
    rewrite length_map in Hlen.
    destruct splits; [congruence | discriminate]. }
  unfold concat_last.
  rewrite (Hlead t0 (or_introl eq_refl)). fold n. rewrite Htdef.
  apply tensor_ext; cbn [shape data].
  - rewrite Hshape. f_equal. f_equal. rewrite map_map.
    rewrite (map_ext_in _ snd).
    + rewrite Hoffsizes. exact Hsum.
    + intros p Hp. destruct (Hpiece p Hp) as [Hsh _].
      rewrite Hsh, last_last. reflexivity.
  - rewrite map_map.
    rewrite (map_ext_in _ (fun p => map (slice_row (fst p) (snd p)) rows)).
    2:{ intros p Hp. destruct (Hpiece p Hp) as [Hsh Hbl].
        rewrite Hsh, last_last. exact Hbl. }
    set (gs := map (fun p => map (slice_row (fst p) (snd p)) rows) offs).
    assert (Hgl : Forall (fun g => length g = n) gs).
    { unfold gs. apply Forall_forall. intros g Hg.
      apply in_map_iff in Hg. destruct Hg as (p & <- & _).
      rewrite length_map. exact Hrl. }
    assert (Hgr : group_rows gs = n).
    { destruct gs as [| g gs'] eqn:Hgs.
      - exfalso. unfold gs in Hgs. apply map_eq_nil in Hgs.
        rewrite Hgs in Htdef. discriminate.
      - inversion Hgl. assumption. }
    unfold concat_axis1. rewrite Hgr.
    rewrite (@columns_by_position _ n gs [] Hgl).
    rewrite map_map.
    rewrite (map_ext_in _ (fun i => nth i rows [])).
    + rewrite <- Hrl, map_nth_all. unfold rows.
      apply concat_blocks. exact Hdata.
    + intros i Hi. apply in_seq in Hi. unfold gs. rewrite map_map.
      rewrite (map_ext _
                 (fun p => slice_row (fst p) (snd p) (nth i rows []))).
      2:{ intros p.
          apply (@nth_map_in_range _ _ (slice_row (fst p) (snd p))
                   rows i [] []). lia. }
      unfold offs. rewrite slices_cover.
      rewrite Hsum. cbn [skipn].
      rewrite Forall_forall in Hrows.
      rewrite <- (Hrows (nth i rows [])) by (apply nth_In; lia).
      apply firstn_all.
Qed.

Lemma split_to_dict_partitions_witness :
  exists d,
    split_to_dict (mkTensor [2; 3] [1; 2; 3; 4; 5; 6]) SplitDemo.demo_splits
    = Ok d /\
    map fst d = output_keys SplitDemo.demo_splits /\
    concat_last (map snd d) = mkTensor [2; 3] [1; 2; 3; 4; 5; 6].
Proof.
  destruct (@split_to_dict_partitions nat
              (mkTensor [2; 3] [1; 2; 3; 4; 5; 6]) [2]
              SplitDemo.demo_splits)
    as (d & Hd & Hkeys & _ & Hcat).
  - discriminate.
  - apply NoDup_cons.
    + intros [H | []]. discriminate H.
    + apply NoDup_cons; [intros [] | apply NoDup_nil].
  - reflexivity.
  - reflexivity.
  - exists d. auto.
Defined.

(** ** The argument names of a layer *)

(** X9: when fewer arguments have a default than the method has arguments
    (the first one, [self], has none), the names that
    [get_argument_names] returns followed by those that
    [get_default_argument_names] returns are the arguments of the method
    after [self], in order, and the second list has one name per default
    value. *)
Theorem argument_names_partition {V : Type} (spec : ArgSpec V) :
  let n_defaults := match spec_defaults spec with
                    | Some ds => length ds
                    | None => 0
                    end in
  n_defaults < length (spec_args spec) ->
  get_argument_names spec ++ get_default_argument_names spec
  = tl (spec_args spec)
  /\ length (get_default_argument_names spec) = n_defaults
  /\ length (get_argument_names spec)
     = length (spec_args spec) - 1 - n_defaults.
Proof.
  destruct spec as [args defaults]. cbn [spec_args spec_defaults].
  unfold get_argument_names, get_default_argument_names.
  cbn [spec_args spec_defaults]. cbv zeta.
  assert (Hone : 0 < length args -> py_bound (length args) 1 = 1).
  { intros Hlen. unfold py_bound. cbn [Z.ltb Z.compare].
    change (Z.to_nat 1) with 1. lia. }
  assert (Hplain : 0 < length args ->
            py_slice (Some 1%Z) None args = tl args).
  { intros Hlen. unfold py_slice. rewrite (Hone Hlen).
    destruct args as [| a args]; [simpl in Hlen; lia |].
    cbn [length skipn tl].
    replace (S (length args) - 1) with (length args) by lia.
    apply firstn_all. }
  destruct defaults as [[| d ds] |]; intros Hn.
  - rewrite app_nil_r, Hplain by lia. simpl length.
    split; [reflexivity |]. split; [reflexivity |].
    destruct args; simpl in *; lia.
  - set (n := length (d :: ds)) in *.
    assert (Hn0 : 0 < n) by (unfold n; simpl; lia).
    assert (Hneg : py_bound (length args) (- Z.of_nat n) = length args - n).
    { unfold py_bound.
      replace (- Z.of_nat n <? 0)%Z with true by (symmetry; apply Z.ltb_lt; lia).
      lia. }
    unfold py_slice. rewrite Hneg, Hone by lia.
    replace (length args - (length args - n)) with n by lia.
    assert (Hlast : firstn n (skipn (length args - n) args)
                    = skipn (length args - n) args).
    { apply firstn_all2. rewrite length_skipn. lia. }
    rewrite Hlast.
    replace (skipn (length args - n) args)
      with (skipn (length args - n - 1) (skipn 1 args))
      by (rewrite skipn_skipn; f_equal; lia).
    split; [| split].
    + rewrite firstn_skipn. destruct args; reflexivity.
    + rewrite !length_skipn. lia.
    + rewrite length_firstn, length_skipn. lia.
  - rewrite app_nil_r, Hplain by lia. simpl length.
    split; [reflexivity |]. split; [reflexivity |].
    destruct args; simpl in *; lia.
Qed.

Lemma argument_names_partition_witness :
  get_argument_names ArgDemo.demo_spec = ArgDemo.demo_required /\
  get_default_argument_names ArgDemo.demo_spec = ArgDemo.demo_optional /\
  get_argument_names ArgDemo.demo_spec
  ++ get_default_argument_names ArgDemo.demo_spec
  = tl (spec_args ArgDemo.demo_spec).
Proof.
  split; [reflexivity |]. split; [reflexivity |].
  apply (@argument_names_partition _ ArgDemo.demo_spec). simpl. lia.
Defined.

(** ** Straight-through estimators *)

Section Rounding.

Local Open Scope Qc_scope.

Lemma Qc_round_integer (q : Qc) :
  exists n : Z, Qc_round q = Q2Qc (inject_Z n).
Proof.
  unfold Qc_round. cbv zeta.
  destruct (Qc_less _ _); [eexists; reflexivity |].
  destruct (Qc_less _ _); [eexists; reflexivity |].
  destruct (Z.even _); eexists; reflexivity.
Qed.

Lemma Qc_round_nearest (q : Qc) :
  q - Q2Qc (1 # 2) <= Qc_round q /\ Qc_round q <= q + Q2Qc (1 # 2).
Proof.
  pose proof (Qfloor_le q) as Hlo. pose proof (Qlt_floor q) as Hhi.
  rewrite inject_Z_plus in Hhi. change (inject_Z 1) with 1%Q in Hhi.
  unfold Qc_round. cbv zeta.
  set (f := Qfloor q) in *.
  destruct (Qc_less (q - Q2Qc (inject_Z f)) (Q2Qc (1 # 2))) eqn:H1.
  - apply Qc_less_lt in H1. revert H1.
    unfold Qcle, Qclt, Qcminus, Qcplus, Qcopp. cbn [this Q2Qc].
    rewrite !Qred_correct. intros H1. split; lra.
  - assert (H1' : Q2Qc (1 # 2) <= q - Q2Qc (inject_Z f)).
    { apply Qcnot_lt_le. intros Hc. apply Qc_less_lt in Hc. congruence. }
    clear H1.
    destruct (Qc_less (Q2Qc (1 # 2)) (q - Q2Qc (inject_Z f))) eqn:H2.
    + revert H1'. rewrite inject_Z_plus. change (inject_Z 1) with 1%Q.
      unfold Qcle, Qclt, Qcminus, Qcplus, Qcopp. cbn [this Q2Qc].
      rewrite !Qred_correct. intros H1'. split; lra.
    + assert (H2' : q - Q2Qc (inject_Z f) <= Q2Qc (1 # 2)).
      { apply Qcnot_lt_le. intros Hc. apply Qc_less_lt in Hc. congruence. }
      clear H2. revert H1' H2'.
      destruct (Z.even f); rewrite ?inject_Z_plus;
        change (inject_Z 1) with 1%Q;
        unfold Qcle, Qclt, Qcminus, Qcplus, Qcopp; cbn [this Q2Qc];
        rewrite !Qred_correct; intros H1' H2'; split; lra.
Qed.

End Rounding.

(** X10: [straight_through_int_quantization] on dual numbers, in exact
    arithmetic: every value of the result is an integer within one half of
    the input value (the rounded input), and every tangent is the tangent
    of the input, as if no quantization had happened. *)
Theorem int_quantization_is_straight_through (x : Tensor Dual) :
  let z := straight_through_int_quantization Dual_round x in
  shape z = shape x /\
  map value (data z) = map (fun v => Qc_round (value v)) (data x) /\
  map tangent (data z) = map tangent (data x) /\
  Forall2 (fun v zv =>
             (exists n : Z, value zv = Q2Qc (inject_Z n)) /\
             (value v - Q2Qc (1 # 2) <= value zv)%Qc /\
             (value zv <= value v + Q2Qc (1 # 2))%Qc)
          (data x) (data z).
Proof.
  cbv zeta. unfold straight_through_int_quantization. cbn [shape data].
  split; [reflexivity |].
  assert (Hv : forall v : Dual,
            value (add v (stop_gradient (sub (Dual_round v) v)))
            = Qc_round (value v)).
  { intros v. simpl. ring. }
  split.
  { rewrite map_map. apply map_ext. exact Hv. }
  split.
  { rewrite map_map. apply map_ext. intros v. simpl. ring. }
  induction (data x) as [| v l IH]; cbn [map]; constructor; [| exact IH].
  rewrite Hv. split; [apply Qc_round_integer | apply Qc_round_nearest].
Qed.

(** X11: [straight_through_softmax] on dual numbers, in exact arithmetic,
    for a sample of the shape of the probabilities that carries no
    derivative of its own: the values of the returned sample are those of
    the drawn one, and its tangents are the tangents of the probabilities
    at the entries the sample selects (each multiplied by the sample's
    value, one or zero for a one-hot sample); the probabilities are
    returned as they are. *)
Theorem softmax_sample_is_straight_through
    (softmax one_hot_sample : Tensor Dual -> Tensor Dual)
    (logits : Tensor Dual) :
  let probs := softmax logits in
  let sample := one_hot_sample probs in
  length (data sample) = length (data probs) ->
  Forall (fun s => tangent s = 0%Qc) (data sample) ->
  let z := fst (straight_through_softmax softmax one_hot_sample logits) in
  snd (straight_through_softmax softmax one_hot_sample logits) = probs /\
  shape z = shape sample /\
  map value (data z) = map value (data sample) /\
  map tangent (data z)
  = map2 (fun p s => (tangent p * value s)%Qc) (data probs) (data sample).
Proof.
  cbv zeta. unfold straight_through_softmax. cbn [fst snd shape data].
  intros Hlen Hconst.
  split; [reflexivity |]. split; [reflexivity |].
  revert Hlen Hconst.
  generalize (data (one_hot_sample (softmax logits))) as ls.
  generalize (data (softmax logits)) as lp.
  induction lp as [| p lp IH]; intros [| s ls] Hlen Hconst;
    try discriminate; [split; reflexivity |].
  inversion Hconst as [| ? ? Hs Hconst']. subst.
  destruct (IH ls) as [IHv IHt]; [simpl in Hlen; lia | exact Hconst' |].
  cbn [map2 map]. rewrite IHv, IHt. split; f_equal.
  - simpl. ring.
  - simpl. rewrite Hs. ring.
Qed.

Lemma softmax_sample_is_straight_through_witness :
  map tangent
    (data (fst (straight_through_softmax demo_softmax demo_one_hot_sample
                  demo_logits)))
  = [0%Qc; Q2Qc 3].
Proof.
  destruct (@softmax_sample_is_straight_through demo_softmax
              demo_one_hot_sample demo_logits) as (_ & _ & _ & Ht).
  - reflexivity.
  - repeat constructor.
  - rewrite Ht. vm_compute. reflexivity.
Defined.

(** ** The stack of dilated convolutions *)

Lemma div_succ (n p : nat) :
  p <> 0 ->
  S n / p = n / p + (if S n mod p =? 0 then 1 else 0).
Proof.
  intros Hp.
  pose proof (Nat.div_mod_eq n p) as Hn.
  pose proof (Nat.mod_upper_bound n p Hp) as Hb.
  destruct (Nat.eq_dec (S (n mod p)) p) as [Heq | Hne].
  - assert (Hm : S n mod p = 0).
    { symmetry. apply (Nat.mod_unique (S n) p (n / p + 1) 0); lia. }
    rewrite Hm. simpl.
    symmetry. apply (Nat.div_unique (S n) p (n / p + 1) 0); lia.
  - assert (Hm : S n mod p = S (n mod p)).
    { symmetry. apply (Nat.mod_unique (S n) p (n / p) (S (n mod p))); lia. }
    rewrite Hm. simpl. rewrite Nat.add_0_r.
    symmetry. apply (Nat.div_unique (S n) p (n / p) (S (n mod p))); lia.
Qed.

(** Among the first [n] stacks, one in [p] is followed by a resampling. *)
Lemma count_resampled_stacks (n p : nat) :
  p <> 0 ->
  length (filter (fun i => (i + 1) mod p =? 0) (seq 0 n)) = n / p.
Proof.
  intros Hp. induction n as [| n IH].
  - rewrite Nat.Div0.div_0_l. reflexivity.
  - rewrite seq_S, filter_app, length_app, IH. cbn [filter Nat.add].
    rewrite (div_succ n Hp). replace (n + 1) with (S n) by lia.
    destruct (S n mod p =? 0); reflexivity.
Qed.

(** With [r] resampling layers for [s] stacks of [l] layers, where
    [r = s / p], the layers left after [r] chunks of [s * l / r] layers are
    fewer than a chunk. *)
Lemma chunk_remainder (s l p : nat) :
  p <> 0 -> l <> 0 -> s / p <> 0 ->
  let r := s / p in
  let q := s * l / r in
  0 < q /\ r * q <= s * l /\ s * l - r * q < q.
Proof.
  intros Hp Hl Hr. cbv zeta.
  set (r := s / p) in *. set (q := s * l / r).
  pose proof (Nat.div_mod_eq s p) as Hs. fold r in Hs.
  pose proof (Nat.mod_upper_bound s p Hp) as Hsb.
  pose proof (Nat.div_mod_eq (s * l) r) as Hq. fold q in Hq.
  pose proof (Nat.mod_upper_bound (s * l) r Hr) as Hqb.
  set (t := s mod p) in *. set (u := (s * l) mod r) in *.
  assert (Hsl : s * l = r * (p * l) + t * l) by nia.
  assert (Hq1 : p * l <= q).
  { unfold q. apply Nat.div_le_lower_bound; [exact Hr | nia]. }
  split; [nia |]. split; [lia |].
  destruct (Nat.le_gt_cases r q) as [Hge | Hlt]; [lia |].
  assert (Htl : t * l < r) by nia.
  assert (Hqeq : q = p * l).
  { unfold q. symmetry.
    apply (Nat.div_unique (s * l) r (p * l) (t * l)); lia. }
  nia.
Qed.

Lemma no_multiple_inside (q a j : nat) :
  a * q <= j -> j + 1 < (a + 1) * q -> (j + 1) mod q <> 0.
Proof.
  intros Hlo Hhi Hmod.
  pose proof (Nat.div_mod_eq (j + 1) q) as Hdm. rewrite Hmod in Hdm.
  destruct (Nat.le_gt_cases ((j + 1) / q) a) as [Hle | Hgt]; nia.
Qed.

Section StackConstruction.

Import DilatedConvStack.

Variable NormType : Type.

Variables (ch layers_per_stack kernel_size : nat) (dilation : Z)
          (norm_type : option NormType)
          (resample_type : option ResampleType)
          (resample_stride stacks_per_resample : nat)
          (shift_only conditional : bool).

Let stack_layers : list (KerasLayer NormType) :=
  map (dilated_conv NormType ch layers_per_stack kernel_size dilation)
      (seq 0 layers_per_stack).

(** What the loop over the stacks adds to the three lists. *)
Lemma add_stacks_Ok (n s : nat)
    (ls ns rs ls' ns' rs' : list (KerasLayer NormType)) :
  add_stacks
    (add_stack ch layers_per_stack kernel_size dilation norm_type
               resample_type resample_stride stacks_per_resample
               shift_only conditional)
    (seq s n) (ls, ns, rs) = Ok (ls', ns', rs') ->
  ls' = ls ++ concat (repeat stack_layers n) /\
  length ns' = length ns + n * layers_per_stack /\
  length rs'
  = length rs
    + match resample_type with
      | None => 0
      | Some _ =>
          length (filter (fun i => (i + 1) mod stacks_per_resample =? 0)
                         (seq s n))
      end.
Proof.
  revert s ls ns rs. induction n as [| n IH]; intros s ls ns rs H.
  - cbn [seq add_stacks] in H. inversion H. subst.
    cbn [repeat concat]. rewrite app_nil_r.
    destruct resample_type; repeat split; simpl; lia.
  - cbn [seq add_stacks] in H.
    apply rbind_Ok in H. destruct H as ([[ls1 ns1] rs1] & Hone & Hrest).
    apply IH in Hrest. destruct Hrest as (Hl & Hn & Hr).
    unfold add_stack in Hone. fold stack_layers in Hone.
    assert (Hone' : ls1 = ls ++ stack_layers /\
                    length ns1 = length ns + layers_per_stack /\
                    length rs1
                    = length rs
                      + match resample_type with
                        | None => 0
                        | Some _ =>
                            if (s + 1) mod stacks_per_resample =? 0
                            then 1 else 0
                        end).
    { destruct resample_type as [kind |].
      - apply rbind_Ok in Hone. destruct Hone as (r & Hmod & Hone).
        unfold py_mod in Hmod.
        destruct (stacks_per_resample =? 0); [discriminate |].
        inversion Hmod. subst r. clear Hmod.
        destruct ((s + 1) mod stacks_per_resample =? 0).
        + destruct kind; inversion Hone; subst;
            rewrite ?length_app, ?repeat_length; simpl; repeat split; lia.
        + inversion Hone. subst.
          rewrite ?length_app, ?repeat_length. repeat split; lia.
      - inversion Hone. subst.
        rewrite ?length_app, ?repeat_length. repeat split; lia. }
    destruct Hone' as (-> & Hn1 & Hr1).
    split; [| split].
    + rewrite Hl. cbn [repeat concat]. rewrite app_assoc. reflexivity.
    + rewrite Hn, Hn1. simpl. lia.
    + rewrite Hr, Hr1. destruct resample_type; [| lia].
      cbn [seq filter].
      destruct ((s + 1) mod stacks_per_resample =? 0); cbn [length]; lia.
Qed.

(** The lists of a constructed stack. *)
Lemma init_Ok (stacks : nat) (self : DilatedConvStack NormType) :
  init ch layers_per_stack stacks kernel_size dilation norm_type
       resample_type resample_stride stacks_per_resample shift_only
       conditional = Ok self ->
  layers self = concat (repeat stack_layers stacks) /\
  length (layers self) = stacks * layers_per_stack /\
  length (norms self) = stacks * layers_per_stack /\
  length (resample_layers self)
  = match resample_type with
    | None => 0
    | Some _ => stacks / stacks_per_resample
    end /\
  DilatedConvStack.conditional self = conditional.
Proof.
  unfold init. intros H.
  apply rbind_Ok in H. destruct H as ([[ls ns] rs] & Hacc & H).
  inversion H. subst self. clear H. cbn [layers norms resample_layers].
  pose proof Hacc as Hacc'.
  apply add_stacks_Ok in Hacc. destruct Hacc as (Hl & Hn & Hr).
  simpl in Hl, Hn, Hr. subst ls.
  split; [reflexivity |].
  split.
  { clear. induction stacks as [| n IH]; [reflexivity |].
    cbn [repeat concat]. rewrite length_app, IH.
    unfold stack_layers. rewrite length_map, length_seq. simpl. lia. }
  split; [exact Hn |].
  split; [| reflexivity].
  rewrite Hr. destruct resample_type as [kind |]; [| reflexivity].
  destruct stacks as [| n].
  - rewrite Nat.Div0.div_0_l. reflexivity.
  - apply count_resampled_stacks.
    cbn [seq add_stacks] in Hacc'.
    apply rbind_Ok in Hacc'. destruct Hacc' as (acc & Hone & _).
    unfold add_stack in Hone.
    apply rbind_Ok in Hone. destruct Hone as (r & Hmod & _).
    unfold py_mod in Hmod.
    destruct (stacks_per_resample =? 0) eqn:Hp; [discriminate |].
    apply Nat.eqb_neq in Hp. exact Hp.
Qed.

End StackConstruction.

Section StackLoop.

Import DilatedConvStack.

Variable NormType : Type.

Context {F : Type} {SF : Scalar F}.

Variable apply : KerasLayer NormType -> Tensor F -> Tensor F.
Variable self : DilatedConvStack NormType.
Variable apply_norm : KerasLayer NormType -> Tensor F -> Tensor F.

Variable chunk : nat.
Hypothesis chunk_eq :
  chunk = length (layers self) / length (resample_layers self).

Lemma run_layers_app (l1 l2 : list (KerasLayer NormType * KerasLayer NormType))
    (i : nat) (x : Tensor F) :
  run_layers apply self apply_norm i (l1 ++ l2) x
  = rbind (run_layers apply self apply_norm i l1 x)
          (fun x' => run_layers apply self apply_norm (i + length l1) l2 x').
Proof.
  revert i x. induction l1 as [| [layer norm] l1 IH]; intros i x.
  - cbn [app run_layers rbind length]. rewrite Nat.add_0_r. reflexivity.
  - cbn [app run_layers length].
    match goal with
    | |- rbind ?step _ = _ => destruct step as [x' | err]
    end; cbn [rbind]; [| reflexivity].
    rewrite IH. replace (i + S (length l1)) with (S i + length l1) by lia.
    reflexivity.
Qed.

(** Layers at which no resampling is due. *)
Lemma run_layers_plain (lns : list (KerasLayer NormType * KerasLayer NormType))
    (i : nat) (x : Tensor F) :
  resample_layers self = [] \/
  (chunk <> 0 /\
   forall j, i <= j < i + length lns -> (j + 1) mod chunk <> 0) ->
  run_layers apply self apply_norm i lns x
  = Ok (fold_left (residual_step apply apply_norm) lns x).
Proof.
  revert i x. induction lns as [| [layer norm] lns IH]; intros i x H.
  - reflexivity.
  - cbn [run_layers fold_left].
    assert (Hstep :
      match resample_layers self with
      | [] => Ok (tensor_add x (apply_norm norm (apply layer x)))
      | _ :: _ =>
          (r <- py_mod (i + 1)
                  (length (layers self) / length (resample_layers self)) ;;
           if r =? 0 then
             match nth_error (resample_layers self)
                     (i / (length (layers self)
                           / length (resample_layers self))) with
             | Some resample =>
                 Ok (apply resample
                       (tensor_add x (apply_norm norm (apply layer x))))
             | None => Raise IndexError
             end
           else Ok (tensor_add x (apply_norm norm (apply layer x))))%result
      end = Ok (tensor_add x (apply_norm norm (apply layer x)))).
    { destruct H as [Hnil | [Hc Hj]].
      - rewrite Hnil. reflexivity.
      - destruct (resample_layers self) as [| rl rls] eqn:Hrl;
          [reflexivity |].
        rewrite <- chunk_eq. unfold py_mod.
        replace (chunk =? 0) with false
          by (symmetry; apply Nat.eqb_neq; exact Hc).
        cbn [rbind].
        replace ((i + 1) mod chunk =? 0) with false; [reflexivity |].
        symmetry. apply Nat.eqb_neq. apply Hj. simpl. lia. }
    rewrite Hstep. cbn [rbind]. rewrite IH; [reflexivity |].
    destruct H as [Hnil | [Hc Hj]]; [left; exact Hnil | right].
    split; [exact Hc |]. intros j Hlt. apply Hj. simpl. lia.
Qed.

(** A layer after which resampling is due. *)
Lemma run_layers_resample (ln : KerasLayer NormType * KerasLayer NormType)
    (i : nat) (x : Tensor F) (resample : KerasLayer NormType) :
  chunk <> 0 ->
  (i + 1) mod chunk = 0 ->
  nth_error (resample_layers self) (i / chunk) = Some resample ->
  run_layers apply self apply_norm i [ln] x
  = Ok (apply resample (residual_step apply apply_norm x ln)).
Proof.
  intros Hc Hmod Hnth. destruct ln as [layer norm]. cbn [run_layers].
  destruct (resample_layers self) as [| rl rls] eqn:Hrl.
  { destruct (i / chunk); discriminate. }
  rewrite <- chunk_eq. unfold py_mod.
  replace (chunk =? 0) with false by (symmetry; apply Nat.eqb_neq; exact Hc).
  cbn [rbind]. rewrite Hmod. cbn [Nat.eqb]. rewrite Hnth. reflexivity.
Qed.

Lemma skipn_nth_error {A} (l : list A) (m : nat) (a : A) :
  nth_error l m = Some a -> skipn m l = a :: skipn (S m) l.
Proof.
  revert m. induction l as [| b l IH]; intros [| m] H;
    try discriminate.
  - inversion H. reflexivity.
  - apply (IH m H).
Qed.

(** The loop, from the start of a chunk on. *)
Lemma run_layers_chunks (rest : nat) :
  chunk <> 0 ->
  rest < chunk ->
  forall (n : nat) (lns : list (KerasLayer NormType * KerasLayer NormType))
         (x : Tensor F),
    n <= length (resample_layers self) ->
    length lns = n * chunk + rest ->
    let m := length (resample_layers self) - n in
    run_layers apply self apply_norm (m * chunk) lns x
    = Ok (run_chunks apply apply_norm chunk
            (skipn m (resample_layers self)) lns x).
Proof.
  intros Hc Hrest. induction n as [| n IH]; intros lns x Hn Hlen; cbv zeta.
  - rewrite Nat.sub_0_r, skipn_all. cbn [run_chunks].
    apply run_layers_plain. right. split; [exact Hc |].
    intros j Hj. simpl in Hlen. rewrite Hlen in Hj.
    apply (@no_multiple_inside chunk (length (resample_layers self)) j);
      nia.
  - set (m := length (resample_layers self) - S n) in *.
    assert (Hm : m < length (resample_layers self)) by (unfold m; lia).
    destruct (nth_error (resample_layers self) m) as [resample |] eqn:Hnth.
    2:{ apply nth_error_None in Hnth. lia. }
    rewrite (skipn_nth_error _ _ Hnth). cbn [run_chunks].
    assert (Hlq : chunk <= length lns) by (rewrite Hlen; simpl; lia).
    assert (Hfl : length (firstn chunk lns) = chunk).
    { rewrite length_firstn. lia. }
    destruct (exists_last (l := firstn chunk lns)) as (front & ln & Hsplit).
    { intros Hnil. rewrite Hnil in Hfl. simpl in Hfl. lia. }
    assert (Hfront : length front = chunk - 1).
    { rewrite Hsplit, length_app in Hfl. simpl in Hfl. lia. }
    rewrite <- (firstn_skipn chunk lns) at 1.
    rewrite Hsplit, <- app_assoc.
    rewrite run_layers_app.
    rewrite run_layers_plain.
    2:{ right. split; [exact Hc |]. intros j Hj.
        rewrite Hfront in Hj.
        apply (@no_multiple_inside chunk m j); nia. }
    cbn [rbind]. rewrite Hfront.
    change ([ln] ++ skipn chunk lns) with ([ln] ++ skipn chunk lns).
    rewrite run_layers_app.
    rewrite (@run_layers_resample ln _ _ resample Hc).
    + cbn [rbind length].
      rewrite fold_left_app. cbn [fold_left].
      replace (m * chunk + (chunk - 1) + 1) with
        ((length (resample_layers self) - n) * chunk) by (unfold m; nia).
      replace (skipn (S m) (resample_layers self))
        with (skipn (length (resample_layers self) - n)
                    (resample_layers self))
        by (f_equal; unfold m; lia).
      apply IH; [lia |].
      rewrite length_skipn, Hlen. simpl. lia.
    + replace (m * chunk + (chunk - 1) + 1) with ((m + 1) * chunk) by nia.
      apply Nat.Div0.mod_mul.
    + replace ((m * chunk + (chunk - 1)) / chunk) with m; [exact Hnth |].
      apply (Nat.div_unique _ chunk m (chunk - 1)); lia.
Qed.

End StackLoop.

(** X12: in a stack built by the constructor with at least one layer per
    stack, the loop of [call] never indexes [resample_layers] out of range
    and never divides by zero: the call is the chunk-by-chunk computation,
    in which every resampling layer is applied once, in order, each after
    the next [len(layers) // len(resample_layers)] residual layers, and the
    layers that are left run without resampling; only the last slicing can
    fail.  There is one resampling layer per [stacks_per_resample] stacks
    (none without a [resample_type]), and when [stacks_per_resample] divides
    [stacks] a chunk is [stacks_per_resample] stacks long. *)
Theorem call_resamples_by_chunks (NormType : Type) {F : Type} {SF : Scalar F}
    (apply : DilatedConvStack.KerasLayer NormType -> Tensor F -> Tensor F)
    (apply2 : DilatedConvStack.KerasLayer NormType ->
              Tensor F -> Tensor F -> Tensor F)
    (ch layers_per_stack stacks kernel_size : nat) (dilation : Z)
    (norm_type : option NormType)
    (resample_type : option DilatedConvStack.ResampleType)
    (resample_stride stacks_per_resample : nat)
    (shift_only conditional : bool)
    (self : DilatedConvStack.DilatedConvStack NormType) :
  DilatedConvStack.init ch layers_per_stack stacks kernel_size dilation
    norm_type resample_type resample_stride stacks_per_resample shift_only
    conditional = Ok self ->
  layers_per_stack <> 0 ->
  let n_resample := length (DilatedConvStack.resample_layers self) in
  let chunk := length (DilatedConvStack.layers self) / n_resample in
  n_resample = match resample_type with
               | None => 0
               | Some _ => stacks / stacks_per_resample
               end /\
  (n_resample <> 0 -> stacks mod stacks_per_resample = 0 ->
   chunk = stacks_per_resample * layers_per_stack) /\
  forall inputs : DilatedConvStack.Inputs
                    (DilatedConvStack.conditional self),
    DilatedConvStack.call apply apply2 self inputs
    = index_0
        (DilatedConvStack.run_chunks apply
           (snd (DilatedConvStack.read_inputs apply apply2
                   (DilatedConvStack.conditional self) inputs))
           chunk
           (DilatedConvStack.resample_layers self)
           (combine (DilatedConvStack.layers self)
                    (DilatedConvStack.norms self))
           (apply (DilatedConvStack.conv_in self)
              (fst (DilatedConvStack.read_inputs apply apply2
                      (DilatedConvStack.conditional self) inputs)))).
Proof.
  intros Hinit Hl. cbv zeta.
  destruct (init_Ok _ _ _ _ _ _ _ _ _ _ _ Hinit)
    as (_ & Hlayers & Hnorms & Hres & _).
  split; [exact Hres |].
  assert (Hp : length (DilatedConvStack.resample_layers self) <> 0 ->
               stacks_per_resample <> 0 /\
               length (DilatedConvStack.resample_layers self)
               = stacks / stacks_per_resample).
  { intros Hn. destruct resample_type; [| lia]. split; [| exact Hres].
    intros ->. rewrite Hres in Hn. simpl in Hn. lia. }
  split.
  { intros Hn Hmod. destruct (Hp Hn) as [Hp0 Hr].
    rewrite Hlayers, Hr.
    assert (Hs : stacks
                 = stacks_per_resample * (stacks / stacks_per_resample)).
    { apply Nat.Div0.div_exact. exact Hmod. }
    rewrite Hr in Hn.
    symmetry.
    apply (Nat.div_unique _ (stacks / stacks_per_resample)
             (stacks_per_resample * layers_per_stack) 0); [lia | nia]. }
  intros inputs. unfold DilatedConvStack.call.
  destruct (DilatedConvStack.read_inputs apply apply2
              (DilatedConvStack.conditional self) inputs)
    as [x apply_norm].
  cbn [fst snd].
  set (lns := combine (DilatedConvStack.layers self)
                      (DilatedConvStack.norms self)).
  assert (Hlns : length lns = stacks * layers_per_stack).
  { unfold lns. rewrite length_combine. lia. }
  set (x0 := apply (DilatedConvStack.conv_in self) x).
  assert (Hrun :
    DilatedConvStack.run_layers apply self apply_norm 0 lns x0
    = Ok (DilatedConvStack.run_chunks apply apply_norm
            (length (DilatedConvStack.layers self)
             / length (DilatedConvStack.resample_layers self))
            (DilatedConvStack.resample_layers self) lns x0)).
  { destruct (Nat.eq_dec (length (DilatedConvStack.resample_layers self)) 0)
      as [Hz | Hnz].
    - apply length_zero_iff_nil in Hz. rewrite Hz.
      cbn [DilatedConvStack.run_chunks].
      apply (@run_layers_plain _ _ _ apply self apply_norm _ eq_refl).
      left. exact Hz.
    - destruct (Hp Hnz) as [Hp0 Hr].
      assert (Hr0 : stacks / stacks_per_resample <> 0) by lia.
      pose proof (@chunk_remainder stacks layers_per_stack
                    stacks_per_resample Hp0 Hl Hr0) as Hrem.
      cbv zeta in Hrem. rewrite <- Hr, <- Hlayers in Hrem.
      destruct Hrem as (Hq & Hle & Hlt).
      pose proof (@run_layers_chunks _ _ _ apply self apply_norm _ eq_refl
                    (length (DilatedConvStack.layers self)
                     - length (DilatedConvStack.resample_layers self)
                       * (length (DilatedConvStack.layers self)
                          / length (DilatedConvStack.resample_layers self)))
                    ltac:(lia) Hlt
                    (length (DilatedConvStack.resample_layers self))
                    lns x0 (le_n _)) as Hchunks.
      cbv zeta in Hchunks. rewrite Nat.sub_diag in Hchunks.
      cbn [Nat.mul skipn] in Hchunks. apply Hchunks.
      rewrite Hlns, <- Hlayers. lia. }
  rewrite Hrun. reflexivity.
Qed.

Lemma call_resamples_by_chunks_witness :
  length (DilatedConvStack.resample_layers demo_stack) = 1 /\
  DilatedConvStack.call demo_apply demo_apply2 demo_stack
    (mkTensor [1; 2; 1] [demo_q 1; demo_q 2])
  = Ok (mkTensor [1; 2; 1] [demo_q 64; demo_q 128]).
Proof.
  destruct (@call_resamples_by_chunks unit Qc _ demo_apply demo_apply2
              1 2 3 3 2%Z None (Some DilatedConvStack.downsample) 2 2
              false false demo_stack eq_refl)
    as (Hn & _ & Hcall).
  - discriminate.
  - split; [exact Hn |].
    rewrite (Hcall (mkTensor [1; 2; 1] [demo_q 1; demo_q 2])).
    vm_compute. reflexivity.
Defined.

Lemma rev_map_seq {A} (g : nat -> A) (n : nat) :
  rev (map g (seq 0 n)) = map (fun j => g (n - 1 - j)) (seq 0 n).
Proof.
  induction n as [| n IH]; [reflexivity |].
  change (rev (map g (seq 0 (S n)))
          = g (S n - 1 - 0) :: map (fun j => g (S n - 1 - j)) (seq 1 n)).
  rewrite seq_S, map_app, rev_app_distr. cbn [map rev app Nat.add].
  rewrite IH. f_equal.
  - f_equal. lia.
  - rewrite <- seq_shift, map_map. apply map_ext_in.
    intros j Hj. apply in_seq in Hj. f_equal. lia.
Qed.

Lemma map_concat_repeat {A B} (f : A -> B) (l : list A) (n : nat) :
  map f (concat (repeat l n)) = concat (repeat (map f l) n).
Proof.
  induction n as [| n IH]; [reflexivity |].
  cbn [repeat concat]. rewrite map_app, IH. reflexivity.
Qed.

(** X13: the dilation rates of a constructed stack.  With a positive
    [dilation] every stack has the rates [dilation ** 0], [dilation ** 1],
    ... in this order; with the opposite, negative, [dilation] every stack
    has the same rates in the reverse order, decreasing with depth. *)
Theorem negative_dilation_reverses_rates (NormType : Type)
    (ch layers_per_stack stacks kernel_size : nat) (dilation : Z)
    (norm_type : option NormType)
    (resample_type : option DilatedConvStack.ResampleType)
    (resample_stride stacks_per_resample : nat)
    (shift_only conditional : bool)
    (up down : DilatedConvStack.DilatedConvStack NormType) :
  (0 < dilation)%Z ->
  DilatedConvStack.init ch layers_per_stack stacks kernel_size dilation
    norm_type resample_type resample_stride stacks_per_resample shift_only
    conditional = Ok up ->
  DilatedConvStack.init ch layers_per_stack stacks kernel_size (- dilation)
    norm_type resample_type resample_stride stacks_per_resample shift_only
    conditional = Ok down ->
  let rates :=
    map (fun i => Some (dilation ^ Z.of_nat i)%Z) (seq 0 layers_per_stack) in
  map (@DilatedConvStack.dilation_rate_of NormType)
      (DilatedConvStack.layers up)
  = concat (repeat rates stacks) /\
  map (@DilatedConvStack.dilation_rate_of NormType)
      (DilatedConvStack.layers down)
  = concat (repeat (rev rates) stacks).
Proof.
  intros Hd Hup Hdown. cbv zeta.
  destruct (init_Ok _ _ _ _ _ _ _ _ _ _ _ Hup) as (Hlu & _).
  destruct (init_Ok _ _ _ _ _ _ _ _ _ _ _ Hdown) as (Hld & _).
  rewrite Hlu, Hld, !map_concat_repeat, !map_map.
  split; f_equal; f_equal.
  - apply map_ext. intros i.
    unfold DilatedConvStack.dilated_conv, DilatedConvStack.dilation_rate_of.
    replace (0 <? dilation)%Z with true
      by (symmetry; apply Z.ltb_lt; exact Hd).
    reflexivity.
  - rewrite rev_map_seq. apply map_ext_in. intros i Hi. apply in_seq in Hi.
    unfold DilatedConvStack.dilated_conv, DilatedConvStack.dilation_rate_of.
    replace (0 <? - dilation)%Z with false
      by (symmetry; apply Z.ltb_ge; lia).
    rewrite Z.opp_involutive. f_equal. f_equal. lia.
Qed.

Lemma negative_dilation_reverses_rates_witness :
  map (@DilatedConvStack.dilation_rate_of unit)
      (DilatedConvStack.layers demo_stack)
  = [Some 1%Z; Some 2%Z; Some 1%Z; Some 2%Z; Some 1%Z; Some 2%Z].
Proof.
  destruct (DilatedConvStack.init 1 2 3 3 (- 2)%Z (@None unit)
              (Some DilatedConvStack.downsample) 2 2 false false)
    as [down | err] eqn:E; [| vm_compute in E; discriminate].
  exact (proj1 (@negative_dilation_reverses_rates unit 1 2 3 3 2%Z None
                  (Some DilatedConvStack.downsample) 2 2 false false
                  demo_stack down eq_refl eq_refl E)).
Defined.

Section StackErrors.

Import DilatedConvStack.

Variable NormType : Type.

Variables (ch layers_per_stack kernel_size : nat) (dilation : Z)
          (norm_type : option NormType)
          (resample_stride stacks_per_resample : nat)
          (shift_only conditional : bool).

Lemma add_stacks_no_resampling (n s : nat)
    (acc : list (KerasLayer NormType) * list (KerasLayer NormType)
           * list (KerasLayer NormType)) :
  exists acc',
    add_stacks
      (add_stack ch layers_per_stack kernel_size dilation norm_type None
                 resample_stride stacks_per_resample shift_only conditional)
      (seq s n) acc = Ok acc'.
Proof.
  revert s acc. induction n as [| n IH]; intros s [[ls ns] rs].
  - eexists. reflexivity.
  - cbn [seq add_stacks add_stack rbind]. apply IH.
Qed.

Lemma add_stacks_resampling (kind : ResampleType) (n s : nat)
    (acc : list (KerasLayer NormType) * list (KerasLayer NormType)
           * list (KerasLayer NormType)) :
  stacks_per_resample <> 0 ->
  match add_stacks
          (add_stack ch layers_per_stack kernel_size dilation norm_type
                     (Some kind) resample_stride stacks_per_resample
                     shift_only conditional)
          (seq s n) acc with
  | Ok _ =>
      kind <> other_resample_type \/
      forall i, s <= i < s + n -> (i + 1) mod stacks_per_resample <> 0
  | Raise e =>
      e = ValueError /\ kind = other_resample_type /\
      exists i, s <= i < s + n /\ (i + 1) mod stacks_per_resample = 0
  end.
Proof.
  intros Hp.
  set (f := add_stack ch layers_per_stack kernel_size dilation norm_type
                      (Some kind) resample_stride stacks_per_resample
                      shift_only conditional).
  revert s acc.
  induction n as [| n IH]; intros s [[ls ns] rs].
  - cbn [seq add_stacks]. right. intros i Hi. lia.
  - cbn [seq add_stacks].
    assert (Hstep :
      match f s (ls, ns, rs) with
      | Ok _ => kind <> other_resample_type \/
                (s + 1) mod stacks_per_resample <> 0
      | Raise e => e = ValueError /\ kind = other_resample_type /\
                   (s + 1) mod stacks_per_resample = 0
      end).
    { unfold f, add_stack, py_mod.
      replace (stacks_per_resample =? 0) with false
        by (symmetry; apply Nat.eqb_neq; exact Hp).
      cbn [rbind].
      destruct ((s + 1) mod stacks_per_resample =? 0) eqn:Hmod.
      - apply Nat.eqb_eq in Hmod.
        destruct kind; [left; discriminate | left; discriminate |].
        split; [reflexivity |]. split; [reflexivity | exact Hmod].
      - apply Nat.eqb_neq in Hmod. right. exact Hmod. }
    destruct (f s (ls, ns, rs)) as [acc' | e]; cbn [rbind].
    + specialize (IH (S s) acc').
      destruct (add_stacks f (seq (S s) n) acc') as [acc'' | e].
      * destruct Hstep as [Hk | Hs]; [left; exact Hk |].
        destruct IH as [Hk | Hall]; [left; exact Hk | right].
        intros i Hi. destruct (Nat.eq_dec i s) as [-> | Hne];
          [exact Hs | apply Hall; lia].
      * destruct IH as (He & Hk & i & Hi & Hi0).
        split; [exact He |]. split; [exact Hk |].
        exists i. split; [lia | exact Hi0].
    + destruct Hstep as (He & Hk & Hs).
      split; [exact He |]. split; [exact Hk |].
      exists s. split; [lia | exact Hs].
Qed.

End StackErrors.

(** X14: the errors that the constructor's own statements raise, the Keras
    layers being taken to accept the arguments they are created with (what
    Keras itself refuses, such as a kernel size of zero, is outside this
    code).  The constructor raises [ZeroDivisionError] exactly when a
    [resample_type] is given, [stacks_per_resample] is zero and there is a
    stack; it raises [ValueError] exactly when [resample_type] is a string
    other than the two supported ones and some stack is followed by a
    resampling, that is, [stacks_per_resample] is positive and at most
    [stacks]; no other statement of it raises, so an unsupported
    [resample_type] goes unnoticed when [stacks_per_resample] exceeds
    [stacks]. *)
Theorem init_failures (NormType : Type)
    (ch layers_per_stack stacks kernel_size : nat) (dilation : Z)
    (norm_type : option NormType)
    (resample_type : option DilatedConvStack.ResampleType)
    (resample_stride stacks_per_resample : nat)
    (shift_only conditional : bool) :
  match DilatedConvStack.init ch layers_per_stack stacks kernel_size
          dilation norm_type resample_type resample_stride
          stacks_per_resample shift_only conditional with
  | Raise e =>
      (e = ZeroDivisionError /\ resample_type <> None /\
       stacks_per_resample = 0 /\ stacks <> 0)
      \/ (e = ValueError /\
          resample_type = Some DilatedConvStack.other_resample_type /\
          stacks_per_resample <> 0 /\ stacks_per_resample <= stacks)
  | Ok _ =>
      resample_type = None \/ stacks = 0
      \/ (stacks_per_resample <> 0 /\
          (resample_type <> Some DilatedConvStack.other_resample_type \/
           stacks < stacks_per_resample))
  end.
Proof.
  unfold DilatedConvStack.init.
  destruct resample_type as [kind |].
  2:{ destruct (@add_stacks_no_resampling NormType ch layers_per_stack
                  kernel_size dilation norm_type resample_stride
                  stacks_per_resample shift_only conditional stacks 0
                  ([], [], [])) as ([[ls ns] rs] & ->).
      cbn [rbind]. left. reflexivity. }
  destruct stacks as [| n].
  { cbn [seq DilatedConvStack.add_stacks rbind]. right. left. reflexivity. }
  destruct (Nat.eq_dec stacks_per_resample 0) as [-> | Hp].
  { cbn [seq DilatedConvStack.add_stacks]. cbn. left.
    repeat split; try discriminate. }
  pose proof (@add_stacks_resampling NormType ch layers_per_stack
                kernel_size dilation norm_type resample_stride
                stacks_per_resample shift_only conditional kind (S n) 0
                ([], [], []) Hp) as H.
  destruct (DilatedConvStack.add_stacks _ (seq 0 (S n)) ([], [], []))
    as [[[ls ns] rs] | e]; cbn [rbind].
  - right. right. split; [exact Hp |].
    destruct H as [Hk | Hall].
    + left. intros Heq. apply Hk. inversion Heq. reflexivity.
    + right. destruct (Nat.le_gt_cases stacks_per_resample (S n))
        as [Hle | Hgt]; [| exact Hgt].
      exfalso. apply (Hall (stacks_per_resample - 1)); [lia |].
      replace (stacks_per_resample - 1 + 1) with stacks_per_resample by lia.
      apply Nat.Div0.mod_same.
  - right. destruct H as (-> & -> & i & Hi & Hmod).
    split; [reflexivity |]. split; [reflexivity |]. split; [exact Hp |].
    destruct (Nat.le_gt_cases stacks_per_resample (S n)) as [Hle | Hgt];
      [exact Hle |].
    exfalso. rewrite Nat.mod_small in Hmod by lia. lia.
Qed.

(** ** Note regions *)

Lemma cumsum_length (acc : Z) (l : list Z) :
  length (cumsum acc l) = length l.
Proof.
  revert acc. induction l as [| a l IH]; intros acc; simpl; auto.
Qed.

Lemma cumsum_step (acc : Z) (l : list Z) (t : nat) :
  S t < length l ->
  nth (S t) (cumsum acc l) 0%Z
  = (nth t (cumsum acc l) 0 + nth (S t) l 0)%Z.
Proof.
  revert acc t. induction l as [| a l IH]; intros acc t Ht;
    simpl in Ht; [lia |].
  destruct t as [| t].
  - destruct l as [| b l]; [simpl in Ht; lia | reflexivity].
  - cbn [cumsum nth]. apply (IH (acc + a)%Z t). lia.
Qed.

Lemma length_removelast {A} (l : list A) :
  length (removelast l) = length l - 1.
Proof.
  induction l as [| a l IH]; [reflexivity |].
  destruct l as [| b l]; [reflexivity |].
  cbn [removelast length] in *. rewrite IH. lia.
Qed.

Section NoteRegions.

Context {F : Type} {SF : Scalar F}.

Variables (abs : F -> F) (diff : list F -> list F)
          (safe_divide : F -> F -> F).

(** The region numbers: they start at zero, go up by at most one from a
    timestep to the next, and the last timestep stays in the region of the
    one before it. *)
Lemma edge_idx_regions (q : list F) :
  let idx := edge_idx abs diff q in
  length idx = length (diff q) - 1 + 2 /\
  nth 0 idx 0%Z = 0%Z /\
  (forall t, S t < length idx ->
     nth (S t) idx 0%Z = nth t idx 0%Z \/
     nth (S t) idx 0%Z = (nth t idx 0 + 1)%Z) /\
  nth (length idx - 1) idx 0%Z = nth (length idx - 2) idx 0%Z.
Proof.
  cbv zeta. unfold edge_idx. cbv zeta.
  set (found := removelast (map (fun d => less zero (abs d)) (diff q))).
  set (bits := map (fun b : bool => if b then 1%Z else 0%Z)
                   ((true :: found) ++ [false])).
  assert (Hlen : length bits = length (diff q) - 1 + 2).
  { unfold bits, found.
    rewrite length_map, length_app. cbn [length].
    rewrite length_removelast, length_map. lia. }
  assert (Hbits : forall t, nth t bits 0%Z = 0%Z \/ nth t bits 0%Z = 1%Z).
  { intros t. destruct (Nat.lt_ge_cases t (length bits)) as [Hlt | Hge].
    - unfold bits.
      rewrite (@nth_map_in_range _ _ (fun b : bool => if b then 1%Z else 0%Z)
                 _ t false 0%Z).
      + destruct (nth t ((true :: found) ++ [false]) false); auto.
      + unfold bits in Hlt. rewrite length_map in Hlt. exact Hlt.
    - left. apply nth_overflow. exact Hge. }
  assert (Hstep : forall t, S t < length bits ->
            nth (S t) (map (fun s => (s - 1)%Z) (cumsum 0 bits)) 0%Z
            = (nth t (map (fun s => (s - 1)%Z) (cumsum 0 bits)) 0
               + nth (S t) bits 0)%Z).
  { intros t Ht.
    rewrite (@nth_map_in_range _ _ (fun s => (s - 1)%Z) _ (S t) 0%Z 0%Z)
      by (rewrite cumsum_length; exact Ht).
    rewrite (@nth_map_in_range _ _ (fun s => (s - 1)%Z) _ t 0%Z 0%Z)
      by (rewrite cumsum_length; lia).
    rewrite cumsum_step by exact Ht. lia. }
  rewrite length_map, cumsum_length.
  split; [exact Hlen |].
  split; [reflexivity |].
  split.
  - intros t Ht. rewrite (Hstep t Ht).
    destruct (Hbits (S t)) as [-> | ->]; [left | right]; lia.
  - assert (Hf : length (true :: found) = length bits - 1).
    { unfold bits. rewrite length_map, length_app. simpl. lia. }
    assert (Hlast : nth (length bits - 1) bits 0%Z = 0%Z).
    { unfold bits at 2. rewrite map_app.
      rewrite app_nth2 by (rewrite length_map; lia).
      rewrite length_map, Hf, Nat.sub_diag. reflexivity. }
    replace (length bits - 1) with (S (length bits - 2)) in * by lia.
    rewrite Hstep by lia. rewrite Hlast. lia.
Qed.

Lemma get_note_moments_shape (x note_mask : list (list (list F))) (b : nat) :
  length (get_note_moments safe_divide x note_mask)
  = Nat.min (length x) (length note_mask) /\
  (b < length x -> b < length note_mask ->
   length (nth b (get_note_moments safe_divide x note_mask) [])
   = n_columns (nth b note_mask [])).
Proof.
  unfold get_note_moments. split; [apply map2_length |].
  intros Hx Hm.
  rewrite (@nth_map2 _ _ _ _ x note_mask b [] [] [] Hx Hm).
  cbv zeta. rewrite map2_length, length_map, length_seq.
  unfold reduce_sum_axis0. rewrite length_map, length_seq. lia.
Qed.

End NoteRegions.

(** X15: the mask of [get_note_mask], in exact arithmetic and whatever
    [spectral_ops.diff] and [core.safe_divide] compute.  There is one matrix
    per batch entry and one row of [max_regions] entries per region number;
    the region numbers start at zero, go up by at most one from a timestep
    to the next, and the last timestep is in the region of the one before
    it.  Every entry of the mask is zero or one, a timestep has a non-zero
    entry only at its own region, and without [note_on_only] it has a one
    there. *)
Theorem note_mask_regions (abs : Qc -> Qc) (diff : list Qc -> list Qc)
    (safe_divide : Qc -> Qc -> Qc) (q_pitch : list (list Qc))
    (max_regions : nat) (note_on_only : bool) :
  let mask :=
    get_note_mask abs diff safe_divide q_pitch max_regions note_on_only in
  length mask = length q_pitch /\
  forall b, b < length q_pitch ->
    let idx := edge_idx abs diff (nth b q_pitch []) in
    let mb := nth b mask [] in
    length idx = length (diff (nth b q_pitch [])) - 1 + 2 /\
    nth 0 idx 0%Z = 0%Z /\
    (forall t, S t < length idx ->
       nth (S t) idx 0%Z = nth t idx 0%Z \/
       nth (S t) idx 0%Z = (nth t idx 0 + 1)%Z) /\
    nth (length idx - 1) idx 0%Z = nth (length idx - 2) idx 0%Z /\
    length mb = length idx /\
    forall t, t < length idx ->
      length (nth t mb []) = max_regions /\
      forall r, r < max_regions ->
        let v := nth r (nth t mb []) 0%Qc in
        (v = 0%Qc \/ v = 1%Qc) /\
        (v <> 0%Qc -> nth t idx 0%Z = Z.of_nat r) /\
        (note_on_only = false -> nth t idx 0%Z = Z.of_nat r -> v = 1%Qc).
Proof.
  cbv zeta. unfold get_note_mask. cbv zeta.
  set (base := map (fun q =>
                      map (fun idx =>
                             map (fun r => cast_bool (idx =? Z.of_nat r)%Z)
                                 (seq 0 max_regions))
                          (edge_idx abs diff q))
                   q_pitch).
  assert (Hbase_len : length base = length q_pitch).
  { unfold base. apply length_map. }
  assert (Hbase : forall b, b < length q_pitch ->
            nth b base []
            = map (fun idx =>
                     map (fun r => cast_bool (idx =? Z.of_nat r)%Z)
                         (seq 0 max_regions))
                  (edge_idx abs diff (nth b q_pitch []))).
  { intros b Hb. unfold base.
    apply (@nth_map_in_range _ _
             (fun q => map (fun idx =>
                              map (fun r => cast_bool (idx =? Z.of_nat r)%Z)
                                  (seq 0 max_regions))
                           (edge_idx abs diff q))
             q_pitch b [] [] Hb). }
  assert (Hrow : forall b t, b < length q_pitch ->
            t < length (edge_idx abs diff (nth b q_pitch [])) ->
            nth t (nth b base []) []
            = map (fun r =>
                     cast_bool
                       (nth t (edge_idx abs diff (nth b q_pitch [])) 0
                        =? Z.of_nat r)%Z)
                  (seq 0 max_regions)).
  { intros b t Hb Ht. rewrite (Hbase b Hb).
    apply (@nth_map_in_range _ _
             (fun idx => map (fun r => cast_bool (idx =? Z.of_nat r)%Z)
                             (seq 0 max_regions))
             _ t 0%Z [] Ht). }
  assert (Hentry : forall b t r, b < length q_pitch ->
            t < length (edge_idx abs diff (nth b q_pitch [])) ->
            r < max_regions ->
            nth r (nth t (nth b base []) []) 0%Qc
            = cast_bool
                (nth t (edge_idx abs diff (nth b q_pitch [])) 0
                 =? Z.of_nat r)%Z).
  { intros b t r Hb Ht Hr. rewrite (Hrow b t Hb Ht).
    apply (@nth_map_seq _
             (fun r => cast_bool
                         (nth t (edge_idx abs diff (nth b q_pitch [])) 0
                          =? Z.of_nat r)%Z)
             max_regions r 0%Qc Hr). }
  assert (Hcast : forall c : bool,
            (@cast_bool Qc _ c = 0%Qc \/ @cast_bool Qc _ c = 1%Qc) /\
            (@cast_bool Qc _ c <> 0%Qc -> c = true) /\
            (c = true -> @cast_bool Qc _ c = 1%Qc)).
  { intros [|]; simpl; repeat split; auto. intros H. congruence. }
  destruct note_on_only.
  - (* the mask is multiplied by the note-on indicator *)
    set (note_on := map (map (fun p => cast_bool (less zero p)))
                        (get_note_moments_2d safe_divide q_pitch base)).
    assert (Hon_len : length note_on = length q_pitch).
    { unfold note_on, get_note_moments_2d. rewrite !length_map.
      destruct (@get_note_moments_shape _ _ safe_divide
                  (map (map (fun v => [v])) q_pitch) base 0) as [Hl _].
      rewrite Hl, length_map, Hbase_len. lia. }
    assert (Hon : forall b, b < length q_pitch ->
              length (nth b note_on []) = n_columns (nth b base [])).
    { intros b Hb. unfold note_on, get_note_moments_2d.
      rewrite (@nth_map_in_range _ _
                 (map (fun p : Qc => cast_bool (less zero p))) _ b [] [])
        by (rewrite length_map;
            destruct (@get_note_moments_shape _ _ safe_divide
                        (map (map (fun v => [v])) q_pitch) base 0)
              as [Hl _];
            rewrite Hl, length_map, Hbase_len; lia).
      rewrite length_map.
      rewrite (@nth_map_in_range _ _
                 (map (fun row : list Qc => nth 0 row zero)) _ b [] [])
        by (destruct (@get_note_moments_shape _ _ safe_divide
                        (map (map (fun v => [v])) q_pitch) base 0)
              as [Hl _];
            rewrite Hl, length_map, Hbase_len; lia).
      rewrite length_map.
      apply (@get_note_moments_shape _ _ safe_divide
               (map (map (fun v => [v])) q_pitch) base b).
      - rewrite length_map. exact Hb.
      - rewrite Hbase_len. exact Hb. }
    split; [rewrite map2_length; lia |].
    intros b Hb.
    destruct (@edge_idx_regions _ _ abs diff (nth b q_pitch []))
      as (Hil & Hi0 & Histep & Hilast).
    split; [exact Hil |]. split; [exact Hi0 |].
    split; [exact Histep |]. split; [exact Hilast |].
    rewrite (@nth_map2 _ _ _ _ base note_on b [] [] [])
      by (rewrite ?Hbase_len, ?Hon_len; exact Hb).
    rewrite length_map. rewrite (Hbase b Hb) at 1. rewrite length_map.
    split; [reflexivity |].
    intros t Ht.
    assert (Hcols : n_columns (nth b base []) = max_regions).
    { rewrite (Hbase b Hb).
      destruct (edge_idx abs diff (nth b q_pitch [])) as [| i0 idx'];
        [simpl in Ht; lia |].
      cbn [map n_columns]. rewrite length_map, length_seq. reflexivity. }
    rewrite (@nth_map_in_range _ _
               (fun mt => map2 mul mt (nth b note_on [])) _ t [] [])
      by (rewrite (Hbase b Hb), length_map; exact Ht).
    assert (Hrl : length (nth t (nth b base []) []) = max_regions).
    { rewrite (Hrow b t Hb Ht), length_map, length_seq. reflexivity. }
    split; [rewrite map2_length, Hrl, (Hon b Hb), Hcols; lia |].
    intros r Hr.
    rewrite (@nth_map2 _ _ _ mul _ _ r 0%Qc 0%Qc 0%Qc)
      by (rewrite ?Hrl, ?(Hon b Hb), ?Hcols; exact Hr).
    rewrite (Hentry b t r Hb Ht Hr).
    assert (Hv : nth r (nth b note_on []) 0%Qc = 0%Qc \/
                 nth r (nth b note_on []) 0%Qc = 1%Qc).
    { assert (Hall : forall row v, In row note_on -> In v row ->
                         v = 0%Qc \/ v = 1%Qc).
      { intros row v Hrow_in Hv_in. unfold note_on in Hrow_in.
        apply in_map_iff in Hrow_in. destruct Hrow_in as (ps & <- & _).
        apply in_map_iff in Hv_in. destruct Hv_in as (p & <- & _).
        apply Hcast. }
      apply (Hall (nth b note_on [])).
      - apply nth_In. rewrite Hon_len. exact Hb.
      - apply nth_In. rewrite (Hon b Hb), Hcols. exact Hr. }
    destruct (Hcast (nth t (edge_idx abs diff (nth b q_pitch [])) 0
                     =? Z.of_nat r)%Z) as (H01 & Hnz & _).
    split; [| split].
    + destruct H01 as [-> | ->]; destruct Hv as [-> | ->]; simpl;
        [left | left | left | right]; ring.
    + intros Hne. apply Z.eqb_eq. apply Hnz. intros Hz. apply Hne.
      rewrite Hz. simpl. ring.
    + discriminate.
  - split; [exact Hbase_len |].
    intros b Hb.
    destruct (@edge_idx_regions _ _ abs diff (nth b q_pitch []))
      as (Hil & Hi0 & Histep & Hilast).
    split; [exact Hil |]. split; [exact Hi0 |].
    split; [exact Histep |]. split; [exact Hilast |].
    split; [rewrite (Hbase b Hb); apply length_map |].
    intros t Ht.
    split; [rewrite (Hrow b t Hb Ht), length_map, length_seq; reflexivity |].
    intros r Hr. rewrite (Hentry b t r Hb Ht Hr).
    destruct (Hcast (nth t (edge_idx abs diff (nth b q_pitch [])) 0
                     =? Z.of_nat r)%Z) as (H01 & Hnz & H1).
    split; [exact H01 |]. split.
    + intros Hne. apply Z.eqb_eq. apply Hnz. exact Hne.
    + intros _ Heq. apply H1. apply Z.eqb_eq. exact Heq.
Qed.

(** ** Pooling over notes *)

Lemma map2_swap {A B C} (f : A -> B -> C) (la : list A) (lb : list B) :
  map2 f la lb = map2 (fun b a => f a b) lb la.
Proof.
  revert lb. induction la as [| a la IH]; intros [| b lb];
    try reflexivity.
  cbn [map2]. f_equal. apply IH.
Qed.

Section NotePooling.

Local Open Scope Qc_scope.

Lemma Qc_of_nat_positive (n : nat) : (0 < n)%nat -> Qc_of_nat n <> 0.
Proof.
  intros Hn. destruct n as [| n]; [lia |].
  rewrite Qc_of_nat_S. intros H.
  pose proof (Qc_of_nat_nonneg n) as Hpos.
  assert (Hle : 1 + Qc_of_nat n <= 0) by (rewrite H; apply Qcle_refl).
  assert (H1 : 1 + 0 <= 1 + Qc_of_nat n).
  { apply Qcplus_le_compat; [apply Qcle_refl | exact Hpos]. }
  assert (H10 : 1 + 0 <= 0) by (eapply Qcle_trans; eassumption).
  revert H10. unfold Qcle. simpl. intros H10.
  apply (Qle_not_lt _ _ H10). reflexivity.
Qed.

(** What a one-hot row selects from a table. *)
Lemma one_hot_row_selects {A} (f : A -> Qc) (rows : list A) (d : A)
    (c : nat) :
  (c < length rows)%nat ->
  reduce_sum
    (map2 (fun row m => f row * m) rows
          (map (fun i => if i =? c then 1 else 0) (seq 0 (length rows))))
  = f (nth c rows d).
Proof.
  intros Hc.
  rewrite <- (map_nth_all rows d) at 1.
  rewrite map2_map_same.
  rewrite (map_ext _ (fun i => if c =? i then f (nth c rows d) else 0)).
  - rewrite reduce_sum_indicator.
    replace ((0 <=? c)%nat && (c <? 0 + length rows)%nat) with true;
      [reflexivity |].
    symmetry. apply andb_true_iff. split.
    + apply Nat.leb_le. lia.
    + apply Nat.ltb_lt. lia.
  - intros i. rewrite (Nat.eqb_sym c i).
    destruct (Nat.eqb_spec i c) as [-> | Hne]; ring.
Qed.

Variable safe_divide : Qc -> Qc -> Qc.

Hypothesis safe_divide_divides :
  forall a b : Qc, b <> 0 -> safe_divide a b = a / b.

(** The moments and the pooled values of one batch entry whose mask is the
    one-hot encoding of the note of each timestep. *)
Lemma pool_one_entry (n d : nat) (xb : list (list Qc)) (nb : list nat) :
  nb <> [] ->
  length xb = length nb ->
  Forall (fun r => length r = d) xb ->
  Forall (fun c => c < n)%nat nb ->
  get_note_lengths [one_hot nb n] = [assigned_counts n nb] /\
  pool_over_notes safe_divide [xb] [one_hot nb n]
  = [map (fun c =>
            map (fun s => s / Qc_of_nat (count_occ Nat.eq_dec nb c))
                (nth c (assigned_sums n d nb xb) []))
         nb].
Proof.
  intros Hne Hlen Hw Hrange.
  assert (Hn : (0 < n)%nat).
  { destruct nb as [| c nb']; [congruence |].
    inversion Hrange. lia. }
  assert (Hcols_m : n_columns (@one_hot Qc _ nb n) = n).
  { destruct nb as [| c nb']; [congruence |].
    cbn [one_hot map n_columns]. rewrite length_map, length_seq.
    reflexivity. }
  assert (Hcols_x : n_columns xb = d).
  { destruct xb as [| r xb']; [destruct nb; simpl in *; congruence |].
    inversion Hw. assumption. }
  split.
  { unfold get_note_lengths. cbn [map]. rewrite Hcols_m, one_hot_counts.
    reflexivity. }
  unfold pool_over_notes, get_note_moments. cbn [map2].
  rewrite Hcols_m, Hcols_x, one_hot_counts.
  (* the sums over time are the sums of the rows of each note *)
  replace (map (fun r =>
                  map (fun j =>
                         reduce_sum
                           (map2 (fun xt mt =>
                                    mul (nth j xt zero) (nth r mt zero))
                                 xb (one_hot nb n)))
                      (seq 0 d))
               (seq 0 n))
    with (assigned_sums n d nb xb).
  2:{ rewrite <- one_hot_sums. unfold matmul_ta.
      apply map_ext. intros r. apply map_ext. intros j. f_equal.
      rewrite map2_swap. apply map2_ext. intros a b. simpl. ring. }
  set (sums := assigned_sums n d nb xb).
  set (notes := map2 (fun row len => map (fun s => safe_divide s len) row)
                     sums (assigned_counts n nb)).
  assert (Hsl : length sums = n).
  { unfold sums, assigned_sums. rewrite length_map, length_seq.
    reflexivity. }
  assert (Hcl : length (assigned_counts n nb) = n).
  { unfold assigned_counts. rewrite length_map, length_seq. reflexivity. }
  assert (Hnl : length notes = n).
  { unfold notes. rewrite map2_length, Hsl, Hcl. lia. }
  assert (Hsw : forall c, (c < n)%nat -> length (nth c sums []) = d).
  { intros c Hc. unfold sums, assigned_sums.
    rewrite (@nth_map_seq _
               (fun i => map (fun j =>
                                fold_right Qcplus 0
                                  (map (fun row => nth j row 0)
                                       (assigned_rows i nb xb)))
                             (seq 0 d)) n c [] Hc).
    rewrite length_map, length_seq. reflexivity. }
  assert (Hnote : forall c, (c < n)%nat ->
            nth c notes []
            = map (fun s => safe_divide s (nth c (assigned_counts n nb) 0))
                  (nth c sums [])).
  { intros c Hc. unfold notes.
    apply (@nth_map2 _ _ _
             (fun row len => map (fun s => safe_divide s len) row)
             sums (assigned_counts n nb) c [] 0 []); lia. }
  assert (Hcols_n : n_columns notes = d).
  { destruct notes as [| r0 notes'] eqn:Hnotes; [simpl in Hnl; lia |].
    cbn [n_columns].
    change r0 with (nth 0 (r0 :: notes') []).
    rewrite (Hnote 0%nat Hn), length_map. apply Hsw. exact Hn. }
  rewrite Hcols_n. f_equal.
  unfold one_hot. rewrite map_map.
  apply map_ext_in. intros c Hc.
  rewrite Forall_forall in Hrange. specialize (Hrange c Hc).
  assert (Hcount : nth c (assigned_counts n nb) 0
                   = Qc_of_nat (count_occ Nat.eq_dec nb c)).
  { unfold assigned_counts.
    apply (@nth_map_seq _
             (fun i => Qc_of_nat (count_occ Nat.eq_dec nb i)) n c 0 Hrange). }
  assert (Hpos : Qc_of_nat (count_occ Nat.eq_dec nb c) <> 0).
  { apply Qc_of_nat_positive. apply count_occ_In. exact Hc. }
  transitivity (map (fun j => nth j (nth c notes []) 0) (seq 0 d)).
  - apply map_ext. intros j.
    rewrite <- Hnl.
    apply (@one_hot_row_selects _ (fun nr => nth j nr 0) notes [] c). lia.
  - rewrite (Hnote c Hrange), Hcount.
    set (row := map (fun s => safe_divide s
                                (Qc_of_nat (count_occ Nat.eq_dec nb c)))
                    (nth c sums [])).
    replace d with (length row)
      by (unfold row; rewrite length_map; apply Hsw; exact Hrange).
    rewrite map_nth_all. unfold row.
    apply map_ext. intros s. apply safe_divide_divides. exact Hpos.
Qed.

End NotePooling.

(** X16: pooling over notes, in exact arithmetic, for a mask that is the
    one-hot encoding of the note of every timestep, a [core.safe_divide]
    that divides when the denominator is not zero, and at least one
    timestep per batch entry: [get_note_lengths] counts the timesteps of
    every note, and [pool_over_notes] gives every timestep the mean of [x]
    over the timesteps of its note. *)
Theorem pool_over_notes_averages (safe_divide : Qc -> Qc -> Qc) (n d : nat)
    (x : list (list (list Qc))) (notes : list (list nat)) :
  (forall a b : Qc, b <> 0%Qc -> safe_divide a b = (a / b)%Qc) ->
  Forall2 (fun xb nb =>
             nb <> [] /\
             length xb = length nb /\
             Forall (fun r => length r = d) xb /\
             Forall (fun c => c < n) nb)
          x notes ->
  let note_mask := map (fun nb => one_hot nb n) notes in
  get_note_lengths note_mask = map (assigned_counts n) notes /\
  pool_over_notes safe_divide x note_mask
  = map2 (fun xb nb =>
            map (fun c =>
                   map (fun s =>
                          (s / Qc_of_nat (count_occ Nat.eq_dec nb c))%Qc)
                       (nth c (assigned_sums n d nb xb) []))
                nb)
         x notes.
Proof.
  intros Hdiv Hall. cbv zeta.
  induction Hall as [| xb nb x notes (Hne & Hlen & Hw & Hrange) _ [IHl IHp]].
  - split; reflexivity.
  - destruct (@pool_one_entry safe_divide Hdiv n d xb nb Hne Hlen Hw Hrange)
      as [Hl Hp].
    split.
    + cbn [map].
      change (get_note_lengths
                (one_hot nb n :: map (fun nb0 => one_hot nb0 n) notes))
        with (get_note_lengths [@one_hot Qc _ nb n]
              ++ get_note_lengths (map (fun nb0 => one_hot nb0 n) notes)).
      rewrite Hl, IHl. reflexivity.
    + cbn [map map2].
      change (pool_over_notes safe_divide (xb :: x)
                (one_hot nb n :: map (fun nb0 => one_hot nb0 n) notes))
        with (pool_over_notes safe_divide [xb] [@one_hot Qc _ nb n]
              ++ pool_over_notes safe_divide x
                   (map (fun nb0 => one_hot nb0 n) notes)).
      rewrite Hp, IHp. reflexivity.
Qed.

Lemma pool_over_notes_averages_witness :
  pool_over_notes Qc_divide_no_nan
    [[[demo_q 1]; [demo_q 3]; [demo_q 10]]]
    [one_hot [0; 0; 1] 2]
  = [[[demo_q 2]; [demo_q 2]; [demo_q 10]]].
Proof.
  destruct (@pool_over_notes_averages Qc_divide_no_nan 2 1
              [[[demo_q 1]; [demo_q 3]; [demo_q 10]]] [[0; 0; 1]])
    as [_ Hp].
  - intros a b Hb. unfold Qc_divide_no_nan.
    destruct (b ?= 0)%Qc eqn:Hcmp; try reflexivity.
    apply Qceq_alt in Hcmp. contradiction.
  - repeat constructor; discriminate.
  - cbn [map] in Hp. rewrite Hp. vm_compute.
    repeat (f_equal; try (apply Qc_is_canon; reflexivity)).
Defined.

(** ** Short notes *)

(** X17: [get_short_note_loss_mask] in exact arithmetic, for a note mask
    that is the one-hot encoding of the note of every timestep: a timestep
    gets a one when the note it lies in is shorter than [min_length] and
    has a positive pitch, and a zero otherwise. *)
Theorem short_note_loss_mask_flags (n : nat) (notes : list (list nat))
    (note_lengths note_pitches : list (list Qc)) (min_length : Qc) :
  length note_lengths = length notes ->
  length note_pitches = length notes ->
  Forall (fun r => length r = n) note_lengths ->
  Forall (fun r => length r = n) note_pitches ->
  Forall (Forall (fun c => c < n)) notes ->
  get_short_note_loss_mask (map (fun nb => one_hot nb n) notes)
    note_lengths note_pitches min_length
  = map2 (fun nb lp =>
            map (fun c =>
                   if Qc_less (nth c (fst lp) 0%Qc) min_length
                      && Qc_less 0%Qc (nth c (snd lp) 0%Qc)
                   then 1%Qc else 0%Qc)
                nb)
         notes (combine note_lengths note_pitches).
Proof.
  unfold get_short_note_loss_mask. cbv zeta.
  revert note_lengths note_pitches.
  induction notes as [| nb notes IH];
    intros [| lens note_lengths] [| ps note_pitches] Hl Hp Hlw Hpw Hrange;
    try discriminate; [reflexivity |].
  inversion Hlw as [| ? ? Hlen_l Hlw']. inversion Hpw as [| ? ? Hlen_p Hpw'].
  inversion Hrange as [| ? ? Hnb Hrange']. subst.
  cbn [map map2 combine]. f_equal.
  - unfold one_hot. rewrite map_map. apply map_ext_in. intros c Hc.
    rewrite Forall_forall in Hnb. specialize (Hnb c Hc).
    set (short := map2 (fun len p =>
                          cast_bool (less len min_length && less zero p))
                       lens ps).
    assert (Hsl : length short = length lens).
    { unfold short. rewrite map2_length. lia. }
    rewrite map2_swap.
    rewrite (map2_ext _ (fun s m => (s * m)%Qc))
      by (intros a b; simpl; ring).
    rewrite <- Hsl.
    etransitivity;
      [apply (@one_hot_row_selects _ (fun s => s) short 0%Qc c); lia |].
    unfold short.
    rewrite (@nth_map2 _ _ _
               (fun len p => cast_bool (less len min_length && less zero p))
               lens ps c 0%Qc 0%Qc 0%Qc) by lia.
    reflexivity.
  - apply IH; simpl in *; auto; lia.
Qed.

Lemma short_note_loss_mask_flags_witness :
  get_short_note_loss_mask [one_hot [0; 0; 1; 2] 3]
    [[demo_q 2; demo_q 1; demo_q 1]] [[demo_q 60; demo_q 0; demo_q 62]]
    (demo_q 2)
  = [[0%Qc; 0%Qc; 0%Qc; 1%Qc]].
Proof.
  apply (@short_note_loss_mask_flags 3 [[0; 0; 1; 2]]
           [[demo_q 2; demo_q 1; demo_q 1]]
           [[demo_q 60; demo_q 0; demo_q 62]] (demo_q 2)).
  - reflexivity.
  - reflexivity.
  - repeat constructor.
  - repeat constructor.
  - repeat constructor.
Defined.

(** ** Normalization *)

(** The position of an element of a group, and the group it is read back
    into. *)
Lemma group_index (bc d e r p id ie ir : nat) :
  p < bc -> id < d -> ie < e -> ir < r ->
  let q := p * (d * e * r) + (id * e + ie) * r + ir in
  q < bc * (d * e * r) /\
  (q mod (d * e * r)) / (e * r) = id /\
  q mod r = ir.
Proof.
  intros Hp Hid Hie Hir. cbv zeta.
  assert (Hin : ie * r + ir < e * r) by nia.
  assert (Hrow : (id * e + ie) * r + ir < d * e * r).
  { assert (id * e + ie <= d * e - 1) by nia.
    assert ((id * e + ie) * r <= (d * e - 1) * r) by nia.
    assert (1 <= d * e) by nia.
    nia. }
  assert (Hmod : (p * (d * e * r) + (id * e + ie) * r + ir) mod (d * e * r)
                 = (id * e + ie) * r + ir).
  { symmetry. apply (Nat.mod_unique _ _ p); [exact Hrow | lia]. }
  split; [nia |]. split.
  - rewrite Hmod. symmetry.
    apply (Nat.div_unique _ _ id (ie * r + ir)); [exact Hin | lia].
  - symmetry.
    apply (Nat.mod_unique _ _ (p * (d * e) + (id * e + ie)));
      [exact Hir | lia].
Qed.

Lemma map_flat_map {A B C} (g : B -> C) (h : A -> list B) (l : list A) :
  map g (flat_map h l) = flat_map (fun a => map g (h a)) l.
Proof.
  induction l as [| a l IH]; [reflexivity |].
  cbn [flat_map]. rewrite map_app, IH. reflexivity.
Qed.

Lemma flat_map_ext_in {A B} (f g : A -> list B) (l : list A) :
  (forall a, In a l -> f a = g a) -> flat_map f l = flat_map g l.
Proof.
  induction l as [| a l IH]; intros H; [reflexivity |].
  cbn [flat_map]. rewrite (H a (or_introl eq_refl)), IH; [reflexivity |].
  intros b Hb. apply H. right. exact Hb.
Qed.

Lemma length_flat_map_uniform {A B} (f : A -> list B) (n : nat) (l : list A) :
  (forall a, In a l -> length (f a) = n) ->
  length (flat_map f l) = length l * n.
Proof.
  induction l as [| a l IH]; intros H; [reflexivity |].
  cbn [flat_map length]. rewrite length_app, (H a (or_introl eq_refl)), IH.
  - lia.
  - intros b Hb. apply H. right. exact Hb.
Qed.

Section Centred.

Local Open Scope Qc_scope.

(** Subtracting the mean and dividing leaves a sum of zero. *)
Lemma centred_sum (s : Qc) (l : list Qc) :
  l <> [] ->
  reduce_sum
    (map (fun u => (u - reduce_mean Qcdiv l) / s) l) = 0.
Proof.
  intros Hl.
  assert (Hn : Qc_of_nat (length l) <> 0).
  { apply Qc_of_nat_positive. destruct l; [congruence | simpl; lia]. }
  assert (Hlin : forall (m : Qc) (l' : list Qc),
            reduce_sum (map (fun u => (u - m) / s) l')
            = (reduce_sum l' - Qc_of_nat (length l') * m) / s).
  { intros m l'. unfold reduce_sum.
    induction l' as [| a l' IH]; cbn [map fold_right length].
    - rewrite Qc_of_nat_0. simpl. unfold Qcdiv. ring.
    - rewrite IH, Qc_of_nat_S. simpl. unfold Qcdiv. ring. }
  rewrite Hlin. unfold reduce_mean. simpl of_nat.
  replace (reduce_sum l
           - Qc_of_nat (length l) * (reduce_sum l / Qc_of_nat (length l)))
    with 0.
  - unfold Qcdiv. ring.
  - rewrite Qcmult_div_r by exact Hn. ring.
Qed.

End Centred.

Section NormalizedGroups.

Local Open Scope Qc_scope.

Variables (sqrt : Qc -> Qc) (eps : Qc).

Lemma group_elems_length (bc d e r : nat) (block : list Qc) (id ir : nat) :
  length (group_elems bc d e r block id ir) = (bc * e)%nat.
Proof.
  unfold group_elems.
  rewrite (@length_flat_map_uniform _ _ _ e).
  - rewrite length_seq. reflexivity.
  - intros p _. rewrite length_map, length_seq. reflexivity.
Qed.

(** The elements of a group after the normalization of a block. *)
Lemma normalize_block_group (bc d e : nat) (block : list Qc) (gi : nat) :
  (gi < d)%nat ->
  let elems := group_elems bc d e 1 block gi 0 in
  let mean := reduce_mean Qcdiv elems in
  let var :=
    reduce_mean Qcdiv (map (fun u => (u - mean) * (u - mean)) elems) in
  group_elems bc d e 1 (normalize_block Qcdiv sqrt bc d e 1 eps block) gi 0
  = map (fun u => (u - mean) / sqrt (var + eps)) elems.
Proof.
  intros Hgi. cbv zeta.
  set (elems := group_elems bc d e 1 block gi 0).
  set (M := reduce_mean Qcdiv elems).
  set (S := sqrt (reduce_mean Qcdiv
                    (map (fun u => (u - M) * (u - M)) elems) + eps)).
  unfold elems at 1. unfold group_elems.
  rewrite map_flat_map.
  apply flat_map_ext_in. intros p Hp. apply in_seq in Hp.
  rewrite map_map. apply map_ext_in. intros ie Hie. apply in_seq in Hie.
  destruct (@group_index bc d e 1 p gi ie 0) as (Hlt & Hid & Hir);
    try lia.
  unfold normalize_block.
  rewrite (@nth_map_seq _
             (fun q =>
                let id := ((q mod (d * e * 1)) / (e * 1))%nat in
                let ir := (q mod 1)%nat in
                let elems := group_elems bc d e 1 block id ir in
                let mean := reduce_mean Qcdiv elems in
                let var :=
                  reduce_mean Qcdiv
                    (map (fun u => mul (sub u mean) (sub u mean)) elems) in
                Qcdiv (sub (nth q block zero) mean) (sqrt (add var eps)))
             (bc * (d * e * 1))
             (p * (d * e * 1) + (gi * e + ie) * 1 + 0) zero Hlt).
  cbv zeta. rewrite Hid, Hir. reflexivity.
Qed.

(** After the normalization of a block every group sums to zero. *)
Lemma normalize_block_centred (bc d e : nat) (block : list Qc) (gi : nat) :
  (gi < d)%nat -> (bc * e)%nat <> 0%nat ->
  reduce_sum
    (group_elems bc d e 1 (normalize_block Qcdiv sqrt bc d e 1 eps block)
                 gi 0) = 0.
Proof.
  intros Hgi Hne. rewrite (@normalize_block_group bc d e block gi Hgi).
  apply centred_sum. intros Hnil.
  pose proof (group_elems_length bc d e 1 block gi 0) as Hl.
  rewrite Hnil in Hl. simpl in Hl. lia.
Qed.

Lemma normalize_block_length (bc d e r : nat) (block : list Qc) :
  length (normalize_block Qcdiv sqrt bc d e r eps block)
  = (bc * (d * e * r))%nat.
Proof.
  unfold normalize_block. rewrite length_map, length_seq. reflexivity.
Qed.

End NormalizedGroups.

(** The variance of a group is not negative, so that with a positive [eps]
    the root is taken of a positive number. *)
Lemma Qc_div_nonneg (a b : Qc) : (0 <= a -> 0 < b -> 0 <= a / b)%Qc.
Proof.
  intros Ha Hb.
  apply (@Qcmult_lt_0_le_reg_r 0%Qc (a / b)%Qc b Hb).
  replace (0 * b)%Qc with 0%Qc by ring.
  replace (a / b * b)%Qc with a; [exact Ha |].
  field. intros Hz. apply (Qclt_not_eq _ _ Hb). symmetry. exact Hz.
Qed.

Lemma variance_nonneg (m : Qc) (l : list Qc) :
  l <> [] ->
  (0 <= reduce_mean Qcdiv (map (fun u => (u - m) * (u - m)) l))%Qc.
Proof.
  intros Hl. unfold reduce_mean. rewrite length_map.
  apply Qc_div_nonneg.
  - clear Hl. unfold reduce_sum.
    induction l as [| a l IH]; cbn [map fold_right]; [apply Qcle_refl |].
    replace 0%Qc with (0 + 0)%Qc by ring.
    apply Qcplus_le_compat; [apply Qc_square_nonneg | exact IH].
  - assert (Hn : of_nat (length l) <> 0%Qc).
    { apply Qc_of_nat_positive. destruct l; [congruence | simpl; lia]. }
    pose proof (Qc_of_nat_nonneg (length l)) as Hge.
    destruct (Qcle_lt_or_eq _ _ Hge) as [Hlt | Heq]; [exact Hlt |].
    exfalso. apply Hn. symmetry. exact Heq.
Qed.

Lemma Qc_plus_positive (a b : Qc) : (0 <= a -> 0 < b -> 0 < a + b)%Qc.
Proof.
  intros Ha Hb.
  apply Qclt_le_trans with (y := (0 + b)%Qc).
  - replace (0 + b)%Qc with b by ring. exact Hb.
  - apply Qcplus_le_compat; [exact Ha | apply Qcle_refl].
Qed.

(** X18: [normalize_op] on a tensor of four axes [[mb, h, w, ch]], in exact
    arithmetic, with a positive [eps] and a [tf.sqrt] that is positive on
    positive numbers: when the number of groups of the normalization (the
    channels for 'instance', one for 'layer', 32 for 'group') divides the
    channels and a group is not empty, the result has the shape of the
    input; in every batch entry every group has a variance that is not
    negative and is divided by a positive number, the elements of the group
    become [(u - mean) / sqrt (var + eps)], and they sum to zero, that is,
    every normalized group has mean zero. *)
Theorem normalize_op_centres_groups (sqrt : Qc -> Qc) (eps : Qc)
    (kind : NormKind) (x : Tensor Qc) (mb h w ch : nat) :
  shape x = [mb; h; w; ch] ->
  wf_tensor x ->
  (0 < eps)%Qc ->
  (forall v, 0 < v -> 0 < sqrt v)%Qc ->
  let g := match kind with
           | instance_norm => ch
           | layer_norm => 1
           | group_norm => 32
           end in
  g <> 0 ->
  ch mod g = 0 ->
  h * w * (ch / g) <> 0 ->
  exists y,
    normalize_op Qcdiv sqrt x (Some kind) eps = Ok y /\
    shape y = shape x /\
    length (data y) = length (data x) /\
    forall m gi, m < mb -> gi < g ->
      let group := fun t : Tensor Qc =>
        group_elems (h * w) g (ch / g) 1
          (nth m (blocks mb (h * w * (g * (ch / g) * 1)) (data t)) [])
          gi 0 in
      let mean := reduce_mean Qcdiv (group x) in
      let var :=
        reduce_mean Qcdiv
          (map (fun u => (u - mean) * (u - mean))%Qc (group x)) in
      length (group x) = h * w * (ch / g) /\
      (0 <= var)%Qc /\
      (0 < sqrt (var + eps))%Qc /\
      group y = map (fun u => (u - mean) / sqrt (var + eps))%Qc (group x) /\
      reduce_sum (group y) = 0%Qc.
Proof.
  intros Hshape Hwf Heps Hsqrt. cbv zeta.
  set (g := match kind with
            | instance_norm => ch
            | layer_norm => 1
            | group_norm => 32
            end).
  intros Hg Hmod Hne.
  assert (Hch : ch = g * (ch / g)) by (apply Nat.Div0.div_exact; exact Hmod).
  unfold wf_tensor in Hwf. rewrite Hshape in Hwf. simpl in Hwf.
  set (size := h * w * (g * (ch / g) * 1)).
  assert (Hlen : length (data x) = mb * size).
  { unfold size. rewrite Hwf. nia. }
  set (outs := map (normalize_block Qcdiv sqrt (h * w) g (ch / g) 1 eps)
                   (blocks mb size (data x))).
  assert (Houts : Forall (fun b => length b = size) outs).
  { unfold outs. apply Forall_forall. intros b Hb.
    apply in_map_iff in Hb. destruct Hb as (b0 & <- & _).
    apply normalize_block_length. }
  assert (Hol : length outs = mb).
  { unfold outs. rewrite length_map. apply blocks_length. }
  exists (mkTensor (shape x) (concat outs)).
  split.
  { unfold normalize_op. rewrite Hshape. cbn [rev app].
    fold g.
    replace (g =? 0) with false by (symmetry; apply Nat.eqb_neq; exact Hg).
    cbn [removelast app].
    unfold reshape.
    replace (length (data x) =? numel [mb; h; w; g; ch / g]) with true.
    2:{ symmetry. apply Nat.eqb_eq. rewrite Hlen. unfold size. simpl. nia. }
    cbn [rbind shape data numel fold_right].
    fold size. reflexivity. }
  split; [reflexivity |].
  split.
  { cbn [data]. rewrite (concat_length_uniform Houts), Hol, Hlen.
    reflexivity. }
  intros m gi Hm Hgi. cbn [data].
  pose proof (blocks_concat Houts) as Hb. rewrite Hol in Hb.
  fold size. rewrite Hb. unfold outs.
  rewrite (@nth_map_in_range _ _
             (normalize_block Qcdiv sqrt (h * w) g (ch / g) 1 eps)
             (blocks mb size (data x)) m [] [])
    by (rewrite blocks_length; exact Hm).
  set (block := nth m (blocks mb size (data x)) []).
  assert (Hgl : length (group_elems (h * w) g (ch / g) 1 block gi 0)
                = h * w * (ch / g)).
  { apply group_elems_length. }
  assert (Hnil : group_elems (h * w) g (ch / g) 1 block gi 0 <> []).
  { intros Hnil. rewrite Hnil in Hgl. simpl in Hgl. lia. }
  split; [exact Hgl |].
  split; [apply variance_nonneg; exact Hnil |].
  split.
  { apply Hsqrt. apply Qc_plus_positive; [| exact Heps].
    apply variance_nonneg. exact Hnil. }
  split.
  { apply (@normalize_block_group sqrt eps (h * w) g (ch / g) block gi Hgi). }
  apply normalize_block_centred; [exact Hgi | exact Hne].
Qed.

Lemma normalize_op_centres_groups_witness :
  exists y,
    normalize_op Qcdiv (fun v => v)
                 (mkTensor [1; 1; 2; 2] (map demo_q [1; 5; 3; 9]%Z))
                 (Some instance_norm) (demo_q 1) = Ok y /\
    shape y = [1; 1; 2; 2].
Proof.
  destruct (@normalize_op_centres_groups (fun v => v) (demo_q 1)
              instance_norm
              (mkTensor [1; 1; 2; 2] (map demo_q [1; 5; 3; 9]%Z))
              1 1 2 2 eq_refl eq_refl)
    as (y & Hy & Hs & _).
  - reflexivity.
  - intros v Hv. exact Hv.
  - discriminate.
  - reflexivity.
  - discriminate.
  - exists y. split; [exact Hy | exact Hs].
Defined.

(** ** A freshly built [Normalize] layer *)

Lemma ensure_4d_round_trip {A} (x : Tensor A) :
  wf_tensor x ->
  inv_ensure_4d (ensure_4d x) (length (shape x)) = Ok x.
Proof.
  destruct x as [s d]. unfold wf_tensor, ensure_4d, inv_ensure_4d.
  cbn [shape data]. intros Hx.
  destruct s as [| a [| b [| c [| e s]]]]; cbn [length Nat.eqb shape data];
    try reflexivity.
  - unfold index_0_0. cbn [shape data Nat.eqb orb].
    rewrite Nat.mul_1_l. rewrite concat_firstn_blocks; [reflexivity |].
    exact Hx.
  - unfold index_0. cbn [shape data Nat.eqb].
    rewrite Nat.mul_1_l. rewrite concat_firstn_blocks; [reflexivity |].
    simpl in *. lia.
Qed.

(** The shape that a tensor of at least two axes has after [ensure_4d]. *)
Lemma ensure_4d_shape {A} (x : Tensor A) :
  2 <= length (shape x) ->
  wf_tensor x ->
  exists lead ch,
    shape (ensure_4d x) = lead ++ [ch] /\
    3 <= length lead /\
    length (data (ensure_4d x)) = numel lead * ch /\
    last_dim (shape x) = Ok ch.
Proof.
  destruct x as [s d]. unfold wf_tensor, ensure_4d. cbn [shape data].
  intros Hrank Hx.
  destruct s as [| a [| b [| c [| e s]]]]; cbn [length] in Hrank; try lia.
  - exists [a; 1; 1], b. cbn [shape data]. simpl in *.
    repeat split; try reflexivity; lia.
  - exists [a; b; 1], c. cbn [shape data]. simpl in *.
    repeat split; try reflexivity; lia.
  - cbn [shape data].
    assert (Hne : a :: b :: c :: e :: s <> []) by discriminate.
    pose proof (app_removelast_last 0 Hne) as Hsplit.
    exists (removelast (a :: b :: c :: e :: s)),
           (last (a :: b :: c :: e :: s) 0).
    split; [exact Hsplit |].
    split.
    { assert (Hl : length (a :: b :: c :: e :: s)
                   = length (removelast (a :: b :: c :: e :: s)) + 1).
      { rewrite Hsplit at 1. rewrite length_app. reflexivity. }
      cbn [length] in Hl. lia. }
    split.
    { rewrite Hx. rewrite Hsplit at 1. apply numel_app. }
    unfold last_dim. rewrite Hsplit at 1. rewrite rev_app_distr.
    reflexivity.
Qed.

Section UnitWeights.

Context {F : Type} {SF : Scalar F}.

(** A weight that is the unit of the operation changes nothing. *)
Lemma broadcast_weight_unit (op : F -> F -> F) (u : F) (t : Tensor F)
    (lead : list nat) (ch : nat) :
  (forall a, op a u = a) ->
  shape t = lead ++ [ch] ->
  3 <= length lead ->
  length (data t) = numel lead * ch ->
  broadcast_weight op t (repeat u ch) = Ok t.
Proof.
  intros Hunit Hshape Hlead Hlen. unfold broadcast_weight. cbv zeta.
  rewrite Hshape, length_app, repeat_length.
  replace (4 - (length lead + length [ch])) with 0 by (cbn [length]; lia).
  cbn [repeat app]. rewrite last_last, Nat.eqb_refl, removelast_last.
  destruct t as [s d]. cbn [shape data] in *. subst s. f_equal. f_equal.
  transitivity (concat (blocks (numel lead) ch d));
    [| apply concat_blocks; exact Hlen].
  f_equal. rewrite <- (map_id (blocks (numel lead) ch d)) at 2.
  apply map_ext_in. intros row Hrow.
  pose proof (@blocks_widths _ (numel lead) ch d) as Hw.
  rewrite Forall_forall in Hw. specialize (Hw ltac:(lia) row Hrow).
  clear - Hunit Hw. revert ch Hw.
  induction row as [| a row IH]; intros ch Hw; [reflexivity |].
  destruct ch as [| ch]; [discriminate |].
  cbn [repeat map2]. rewrite Hunit. f_equal. apply IH.
  simpl in Hw. lia.
Qed.

End UnitWeights.

(** X19: a [Normalize] layer without a normalization ([norm_type=None])
    whose weights are as [build] creates them, ones and zeros for the
    channels of the input: in exact arithmetic its call returns every
    tensor of at least two axes unchanged. *)
Theorem fresh_Normalize_is_identity (sqrt : Qc -> Qc) (default_eps : Qc)
    (x : Tensor Qc) (weights : NormalizeWeights (F := Qc)) :
  2 <= length (shape x) ->
  wf_tensor x ->
  Normalize_build (shape x) = Ok weights ->
  Normalize_call Qcdiv sqrt default_eps None weights x = Ok x.
Proof.
  intros Hrank Hwf Hbuild.
  destruct (@ensure_4d_shape _ x Hrank Hwf) as (lead & ch & Hs & Hl & Hd & Hch).
  unfold Normalize_build in Hbuild. rewrite Hch in Hbuild.
  cbn [rbind] in Hbuild. inversion Hbuild. subst weights. clear Hbuild.
  unfold Normalize_call. cbv zeta. cbn [normalize_op rbind scale shift].
  rewrite (@broadcast_weight_unit _ _ mul 1%Qc (ensure_4d x) lead ch)
    by (try exact Hs; try exact Hl; try exact Hd; intros a; simpl; ring).
  cbn [rbind].
  rewrite (@broadcast_weight_unit _ _ add (Q2Qc 0) (ensure_4d x) lead ch)
    by (try exact Hs; try exact Hl; try exact Hd; intros a; simpl; ring).
  cbn [rbind]. apply ensure_4d_round_trip. exact Hwf.
Qed.

Lemma fresh_Normalize_is_identity_witness :
  match Normalize_build [2; 2] with
  | Ok weights =>
      Normalize_call Qcdiv (fun v => v) (demo_q 1) None weights
        (mkTensor [2; 2] (map demo_q [1; 5; 3; 9]%Z))
      = Ok (mkTensor [2; 2] (map demo_q [1; 5; 3; 9]%Z))
  | Raise _ => False
  end.
Proof.
  destruct (Normalize_build [2; 2]) as [weights | err] eqn:E;
    [| vm_compute in E; discriminate].
  apply (@fresh_Normalize_is_identity (fun v => v) (demo_q 1)
           (mkTensor [2; 2] (map demo_q [1; 5; 3; 9]%Z)) weights).
  - simpl. lia.
  - reflexivity.
  - exact E.
Defined.
